(** * Verification of the dependency analyser and the test runners of
    family-ontology.

    Shallow embedding of
    - [scripts/dependency_analyzer.py]: [extract_dependencies],
      [topological_sort], [_visit], [_calculate_dependency_levels],
      [_get_short_name], [_format_node_name], [_get_error_context],
      [generate_mermaid_diagram], [dump_graph_data],
      [write_ordered_relationships] and [main];
    - [tests/runners/base_runner.py]: [normalize_results], [_ensure_prefix],
      [run_test], [run_tests];
    - [tests/runners/test_executor.py]: [_resolve_script_path], [run_level],
      [apply_materialization], [run_all_levels];
    - [tests/cli.py]: the deduplicating collection of the materialization
      scripts of [cmd_run_tests] for [--level all].

    Python strings are Rocq [string]s (code points 0..255), dicts keyed by
    strings and Python sets of strings are stdpp [gmap]s and [gset]s.  The
    iteration order of a Python [set] depends on string hashing, which is
    randomised per process; it is kept as a parameter [iter] that enumerates
    the set. *)

From Stdlib Require Import String Ascii.
From stdpp Require Import base gmap sets list strings sorting relations pretty.

(* ------------------------------------------------------------------------ *)
(** ** Python string helpers *)

Module PyStr.

(** [s.split(c)] for a one-character separator. *)
Fixpoint split_go (c : ascii) (s : string) (cur : string) : list string :=
  match s with
  | EmptyString => [cur]
  | String x s' =>
      if Ascii.eqb x c then cur :: split_go c s' EmptyString
      else split_go c s' (String.append cur (String x EmptyString))
  end.
Definition split (c : ascii) (s : string) : list string := split_go c s EmptyString.

(** [l[-1]] on the (never empty) result of [split]. *)
Definition last_of (l : list string) : string := default EmptyString (last l).

(** [sub in s]. *)
Fixpoint contains (sub s : string) : bool :=
  String.prefix sub s ||
  match s with
  | EmptyString => false
  | String _ s' => contains sub s'
  end.

(** [str] order: lexicographic by code point. *)
Definition str_le (a b : string) : Prop := String.leb a b = true.
#[global] Instance str_le_dec : RelDecision str_le.
Proof. intros a b. unfold str_le. apply _. Defined.

(** [sorted(l)] for a list of strings (Python's sort is stable, as is
    [merge_sort]). *)
Definition sorted_strs (l : list string) : list string := merge_sort str_le l.

End PyStr.

(* ------------------------------------------------------------------------ *)
(** ** [OntologyDependencyAnalyzer]: topological sort *)

Module Analyzer.
Import PyStr.

(** The fields of the analyser that the traversal reads and writes. *)
Record analyzer := mk_analyzer {
  dependencies : gmap string (gset string);
  sorted_relations : list string;
  visited : gset string;
  temp_marked : gset string
}.

(** State right after [__init__] and [extract_dependencies]. *)
Definition fresh (deps : gmap string (gset string)) : analyzer :=
  mk_analyzer deps [] ∅ ∅.

(** Outcome of a traversal: normal return, the [ValueError] raised on a
    cycle (with the fields as they stand when it is raised), or exhaustion
    of the recursion budget of the embedding (shown never to happen). *)
Inductive result :=
  | Ok (a : analyzer)
  | CycleError (a : analyzer)
  | OutOfFuel.

(** [self.dependencies.get(node, set())] *)
Definition deps_of (a : analyzer) (node : string) : gset string :=
  default ∅ (dependencies a !! node).

(** A [for] loop whose body may raise. *)
Fixpoint for_each (g : string → analyzer → result) (ds : list string)
    (a : analyzer) : result :=
  match ds with
  | [] => Ok a
  | d :: ds' =>
      match g d a with
      | Ok a' => for_each g ds' a'
      | r => r
      end
  end.

(** [_visit] *)
Fixpoint visit (fuel : nat) (node : string) (a : analyzer) : result :=
  match fuel with
  | O => OutOfFuel
  | S f =>
      if decide (node ∈ temp_marked a) then CycleError a
      else if decide (node ∈ visited a) then Ok a
      else
        let a1 := mk_analyzer (dependencies a) (sorted_relations a)
                    (visited a) ({[node]} ∪ temp_marked a) in
        match for_each (visit f) (sorted_strs (elements (deps_of a node))) a1 with
        | Ok a2 =>
            Ok (mk_analyzer (dependencies a2) (sorted_relations a2 ++ [node])
                  ({[node]} ∪ visited a2) (temp_marked a2 ∖ {[node]}))
        | r => r
        end
  end.

(** [all_nodes = set(self.dependencies.keys()); all_nodes.update( *values)] *)
Definition all_nodes (deps : gmap string (gset string)) : gset string :=
  dom deps ∪ ⋃ (snd <$> map_to_list deps).

(** Body of the loop of [topological_sort]:
    [if node not in self.visited: self._visit(node)]. *)
Definition sort_body (nodes : gset string) (node : string) (a : analyzer) : result :=
  if decide (node ∈ visited a) then Ok a else visit (S (size nodes)) node a.

(** [topological_sort]: [visited] and [sorted_relations] are reset,
    [temp_marked] is not; [iter] is the iteration order of the set
    [all_nodes]. *)
Definition topological_sort (iter : gset string → list string)
    (a : analyzer) : result :=
  let nodes := all_nodes (dependencies a) in
  let a0 := mk_analyzer (dependencies a) [] ∅ (temp_marked a) in
  for_each (sort_body nodes) (iter nodes) a0.

(** "A depends on B". *)
Definition depends (deps : gmap string (gset string)) (A B : string) : Prop :=
  ∃ S, deps !! A = Some S ∧ B ∈ S.

Definition acyclic (deps : gmap string (gset string)) : Prop :=
  ∀ x, ¬ tc (depends deps) x x.

(** Every dependency of an entry of [l] sits at a smaller index of [l]. *)
Definition topo_ordered (D : gmap string (gset string)) (l : list string) : Prop :=
  ∀ i x y, l !! i = Some x → depends D x y → ∃ j, j < i ∧ l !! j = Some y.

(** Invariant of the traversal over the relation [D]. *)
Definition inv (D : gmap string (gset string)) (a : analyzer) : Prop :=
  dependencies a = D ∧ NoDup (sorted_relations a) ∧
  (∀ x, x ∈ sorted_relations a ↔ x ∈ visited a) ∧
  visited a ## temp_marked a ∧ visited a ⊆ all_nodes D ∧
  topo_ordered D (sorted_relations a).

(** Every node on the in-progress stack reaches [n]. *)
Definition stack_reaches (D : gmap string (gset string)) (a : analyzer) (n : string) : Prop :=
  ∀ t, t ∈ temp_marked a → tc (depends D) t n.

End Analyzer.

(* ------------------------------------------------------------------------ *)
(** ** [_calculate_dependency_levels] *)

Module Levels.
Import PyStr Analyzer.

(** [_get_short_name]: [node_uri.split('#')[-1].split('/')[-1]] *)
Definition short_name (node_uri : string) : string :=
  last_of (split "/" (last_of (split "#" node_uri))).

(** First pass: [nodes] and [relationships] (pairs [(dep, prop)]), from
    [self.dependencies.items()] and each set of dependencies. *)
Definition collect (D : gmap string (gset string)) : gset string * list (string * string) :=
  foldl (λ acc kv,
      let prop := short_name kv.1 in
      foldl (λ acc2 dep_uri,
          let dep := short_name dep_uri in
          ({[dep]} ∪ acc2.1, acc2.2 ++ [(dep, prop)]))
        ({[prop]} ∪ acc.1, acc.2) (elements kv.2))
    (∅, []) (map_to_list D).

(** [rev_graph = {node: [] for node in nodes}], then
    [rev_graph[target].append(source)] for each relationship.  (The forward
    [graph] is built as well but never read.) *)
Definition build_rev_graph (nodes : gset string) (rels : list (string * string))
    : gmap string (list string) :=
  foldl (λ rg st, <[st.2 := default [] (rg !! st.2) ++ [st.1]]> rg)
    (gset_to_gmap [] nodes) rels.

(** [rev_graph[node]] *)
Definition rev_deps (rg : gmap string (list string)) (node : string) : list string :=
  default [] (rg !! node).

(** [max(...)] of a non-empty list of levels. *)
Definition py_max (l : list nat) : nat := foldr Nat.max 0 l.

(** [for node in nodes: if not rev_graph[node]: levels[node] = 0] *)
Definition init_levels (rg : gmap string (list string)) (ns : list string)
    : gmap string nat :=
  foldl (λ lv node, if decide (rev_deps rg node = []) then <[node := 0]> lv else lv)
    ∅ ns.

(** One iteration of the body of [for node in nodes] in the [while] loop;
    the accumulator is [(levels, changed)]. *)
Definition pass_step (rg : gmap string (list string))
    (acc : gmap string nat * bool) (node : string) : gmap string nat * bool :=
  let (lv, changed) := acc in
  if decide (is_Some (lv !! node)) then (lv, changed)
  else
    match rev_deps rg node with
    | [] => (<[node := 0]> lv, true)
    | deps =>
        if forallb (λ dep, bool_decide (is_Some (lv !! dep))) deps
        then (<[node := S (py_max ((λ dep, default 0 (lv !! dep)) <$> deps))]> lv, true)
        else (lv, changed)
    end.

(** [changed = False; for node in nodes: ...] *)
Definition level_pass (rg : gmap string (list string)) (ns : list string)
    (lv : gmap string nat) : gmap string nat * bool :=
  foldl (pass_step rg) (lv, false) ns.

(** [while changed: ...]: at most [fuel] passes; [None] when the budget is
    used up (shown never to happen with the budget [size nodes + 1]). *)
Fixpoint fixpoint_loop (rg : gmap string (list string)) (ns : list string)
    (fuel : nat) (lv : gmap string nat) : option (gmap string nat) :=
  match fuel with
  | O => None
  | S f =>
      let (lv', changed) := level_pass rg ns lv in
      if changed then fixpoint_loop rg ns f lv' else Some lv'
  end.

(** [for node in nodes: if node not in levels: levels[node] = 0] *)
Definition fill_default (ns : list string) (lv : gmap string nat) : gmap string nat :=
  foldl (λ lv node, if decide (is_Some (lv !! node)) then lv else <[node := 0]> lv)
    lv ns.

(** [max(levels.values()) if levels else 0] *)
Definition max_level_of (lv : gmap string nat) : nat :=
  py_max (snd <$> map_to_list lv).

Section WithIter.
(** [iter] is the iteration order of the set [nodes]. *)
Variable iter : gset string → list string.

(** The levels when the [while] loop stops, before the default fill. *)
Definition loop_levels (D : gmap string (gset string)) : option (gmap string nat) :=
  let (nodes, rels) := collect D in
  let rg := build_rev_graph nodes rels in
  fixpoint_loop rg (iter nodes) (S (size nodes)) (init_levels rg (iter nodes)).

(** [_calculate_dependency_levels]: [(nodes, relationships, levels, max_level)]. *)
Definition calculate_dependency_levels (D : gmap string (gset string))
    : option (gset string * list (string * string) * gmap string nat * nat) :=
  let (nodes, rels) := collect D in
  match loop_levels D with
  | Some lv =>
      let levels := fill_default (iter nodes) lv in
      Some (nodes, rels, levels, max_level_of levels)
  | None => None
  end.
End WithIter.

(** The relation as the level computation sees it: [t] depends on [s] when
    [s] is listed in [rev_graph[t]]. *)
Definition short_depends (D : gmap string (gset string)) (t s : string) : Prop :=
  let (nodes, rels) := collect D in
  s ∈ rev_deps (build_rev_graph nodes rels) t.

(** Invariant of the level maps: every assigned node is in [nodes], has
    level 0 exactly when it has no dependency, and each of its dependencies
    has a smaller level. *)
Definition level_inv (rg : gmap string (list string)) (ns : list string)
    (lv : gmap string nat) : Prop :=
  ∀ x v, lv !! x = Some v →
    x ∈ ns ∧ (v = 0 ↔ rev_deps rg x = []) ∧
    ∀ d, d ∈ rev_deps rg x → ∃ w, lv !! d = Some w ∧ w < v.

(** [l] is a walk from [x] along [E]. *)
Fixpoint is_walk (E : relation string) (x : string) (l : list string) : Prop :=
  match l with
  | [] => True
  | y :: l' => E x y ∧ is_walk E y l'
  end.

End Levels.

(* ------------------------------------------------------------------------ *)
(** ** Concrete relations used by the witnesses and counterexamples *)

Module AnalyzerExamples.
Import Analyzer.

(** [extract_dependencies] rebinds [self.dependencies] (and the reverse map,
    not used by the traversal); [visited], [temp_marked] and
    [sorted_relations] are left as they are. *)
Definition with_dependencies (a : analyzer) (D : gmap string (gset string)) : analyzer :=
  mk_analyzer D (sorted_relations a) (visited a) (temp_marked a).

(** The list returned by [topological_sort], if it returns. *)
Definition sort_output (r : result) : option (list string) :=
  match r with Ok a => Some (sorted_relations a) | _ => None end.

Definition raised_cycle (r : result) : bool :=
  match r with CycleError _ => true | _ => false end.

(** The run after an aborted run on [D1], once the dependencies have been
    re-extracted as [D2]. *)
Definition rerun_after_abort (iter : gset string → list string)
    (D1 D2 : gmap string (gset string)) : option result :=
  match topological_sort iter (fresh D1) with
  | CycleError a1 => Some (topological_sort iter (with_dependencies a1 D2))
  | _ => None
  end.

(** [grandparentOf] depends on [parentOf]. *)
Definition d_chain : gmap string (gset string) :=
  {[ "grandparentOf" := {["parentOf"]} ]}.

(** [X] depends on [Y] and [Y] on [X]. *)
Definition d_cycle : gmap string (gset string) :=
  {[ "X" := {["Y"]}; "Y" := {["X"]} ]}.

(** The same ontology once the edge [Y -> X] is removed. *)
Definition d_fixed : gmap string (gset string) := {[ "X" := {["Y"]} ]}.

(** Two relations [a] and [b] that both depend on [x]. *)
Definition d_two : gmap string (gset string) :=
  {[ "a" := {["x"]}; "b" := {["x"]} ]}.

(** A relation of the family namespace that depends on a FOAF relation with
    the same local name. *)
Definition d_collide : gmap string (gset string) :=
  {[ "http://example.org/family#knows" := {["http://xmlns.com/foaf/0.1/knows"]} ]}.

End AnalyzerExamples.

(* ------------------------------------------------------------------------ *)
(** ** [repr] of Python strings and the comparison key of result rows *)

Module PyRepr.
Import PyStr.

(** The characters of a Python [str] built by [repr]/[str]. *)
Abbreviation chars := (list ascii).

Definition dquote : ascii := ascii_of_nat 34.
Definition squote : ascii := "'"%char.
Definition bslash : ascii := "\"%char.

Definition hex_digit (n : nat) : ascii :=
  ascii_of_nat (if n <? 10 then 48 + n else 87 + n).

(** [repr(s)] uses double quotes when [s] contains a single quote and no
    double quote, and single quotes otherwise. *)
Definition repr_quote (s : string) : ascii :=
  if existsb (λ c, Ascii.eqb c squote) (list_ascii_of_string s) &&
     negb (existsb (λ c, Ascii.eqb c dquote) (list_ascii_of_string s))
  then dquote else squote.

(** One character of [repr] (CPython's [unicode_repr], for code points up
    to 255): the quote and the backslash are escaped, then [\t], [\n],
    [\r]; other control characters, [0x7f] and the non-printable Latin-1
    characters [0x80]..[0xa0] and [0xad] as [\xHH]; everything else as is. *)
Definition escape_char (q c : ascii) : chars :=
  let n := nat_of_ascii c in
  if Ascii.eqb c q || Ascii.eqb c bslash then [bslash; c]
  else if n =? 9 then [bslash; "t"%char]
  else if n =? 10 then [bslash; "n"%char]
  else if n =? 13 then [bslash; "r"%char]
  else if (n <? 32) || (n =? 127) || ((128 <=? n) && (n <=? 160)) || (n =? 173)
  then [bslash; "x"%char; hex_digit (n / 16); hex_digit (n mod 16)]
  else [c].

Definition repr (s : string) : chars :=
  let q := repr_quote s in
  q :: concat (escape_char q <$> list_ascii_of_string s) ++ [q].

(** Values in result rows: [str] (SELECT bindings, expected values) and
    [bool] (ASK results). *)
Inductive pyval := VStr (s : string) | VBool (b : bool).

#[global] Instance pyval_eq_dec : EqDecision pyval.
Proof. solve_decision. Defined.

Definition repr_val (v : pyval) : chars :=
  match v with
  | VStr s => repr s
  | VBool true => list_ascii_of_string "True"
  | VBool false => list_ascii_of_string "False"
  end.

(** A row: [dict] from variable names to values. *)
Abbreviation row := (gmap string pyval).

(** [repr] of a [(key, value)] tuple. *)
Definition item_repr (kv : string * pyval) : chars :=
  "("%char :: repr kv.1 ++ [","%char; " "%char] ++ repr_val kv.2 ++ [")"%char].

(** [", ".join(...)] *)
Fixpoint join (l : list chars) : chars :=
  match l with
  | [] => []
  | [x] => x
  | x :: l' => x ++ [","%char; " "%char] ++ join l'
  end.

(** [sorted(x.items())]: the keys of a dict are distinct, so tuples compare
    by their keys. *)
Definition item_le (a b : string * pyval) : Prop := str_le a.1 b.1.
#[global] Instance item_le_dec : RelDecision item_le.
Proof. intros a b. unfold item_le. apply _. Defined.

Definition sorted_items (r : row) : list (string * pyval) :=
  merge_sort item_le (map_to_list r).

(** [str(sorted(x.items()))], the sort key of [run_test]. *)
Definition row_key (r : row) : chars :=
  "["%char :: join (item_repr <$> sorted_items r) ++ ["]"%char].

(** [str] order on characters: lexicographic by code point. *)
Fixpoint chars_leb (a b : chars) : bool :=
  match a, b with
  | [], _ => true
  | _ :: _, [] => false
  | x :: a', y :: b' =>
      if nat_of_ascii x <? nat_of_ascii y then true
      else if Ascii.eqb x y then chars_leb a' b' else false
  end.

Definition key_le (r1 r2 : row) : Prop := chars_leb (row_key r1) (row_key r2) = true.
#[global] Instance key_le_dec : RelDecision key_le.
Proof. intros a b. unfold key_le. apply _. Defined.

(** [sorted(rows, key=lambda x: str(sorted(x.items())))] *)
Definition sort_rows (rows : list row) : list row := merge_sort key_le rows.

(** [actual_sorted == expected_sorted] *)
Definition results_match (actual expected : list row) : bool :=
  bool_decide (sort_rows actual = sort_rows expected).

(** Left inverse of [repr], used in the proofs: reads a quoted literal. *)
Definition hex_val (c : ascii) : option nat :=
  let n := nat_of_ascii c in
  if (48 <=? n) && (n <=? 57) then Some (n - 48)
  else if (97 <=? n) && (n <=? 102) then Some (n - 87) else None.

Definition unescape (e : ascii) : option ascii :=
  let n := nat_of_ascii e in
  if (n =? 92) || (n =? 39) || (n =? 34) then Some e
  else if Ascii.eqb e "t"%char then Some (ascii_of_nat 9)
  else if Ascii.eqb e "n"%char then Some (ascii_of_nat 10)
  else if Ascii.eqb e "r"%char then Some (ascii_of_nat 13)
  else None.

Definition cons_res (c : ascii) (r : option (chars * chars)) : option (chars * chars) :=
  match r with Some (b, t) => Some (c :: b, t) | None => None end.

Fixpoint parse_body (q : ascii) (s : chars) : option (chars * chars) :=
  match s with
  | [] => None
  | c :: s' =>
      if Ascii.eqb c q then Some ([], s')
      else if Ascii.eqb c bslash then
        match s' with
        | [] => None
        | e :: s'' =>
            if Ascii.eqb e "x"%char then
              match s'' with
              | h1 :: h2 :: s3 =>
                  match hex_val h1, hex_val h2 with
                  | Some a, Some b => cons_res (ascii_of_nat (16 * a + b)) (parse_body q s3)
                  | _, _ => None
                  end
              | _ => None
              end
            else
              match unescape e with
              | Some c' => cons_res c' (parse_body q s'')
              | None => None
              end
        end
      else cons_res c (parse_body q s')
  end.

Definition parse_repr (s : chars) : option (string * chars) :=
  match s with
  | q :: s' =>
      if Ascii.eqb q squote || Ascii.eqb q dquote then
        match parse_body q s' with
        | Some (b, t) => Some (string_of_list_ascii b, t)
        | None => None
        end
      else None
  | [] => None
  end.

End PyRepr.

(* ------------------------------------------------------------------------ *)
(** ** [BaseTestRunner] and [TestExecutor] *)

Module Runner.
Import PyStr PyRepr.

Definition family_ns : string := "http://example.org/family#".

(** [str(value)] *)
Definition py_str (v : pyval) : string :=
  match v with
  | VStr s => s
  | VBool true => "True"
  | VBool false => "False"
  end.

(** The body of the inner loop of [normalize_results]. *)
Definition normalize_value (v : pyval) : string :=
  let value_str := py_str v in
  if contains family_ns value_str then String ":" (last_of (split "#" value_str))
  else value_str.

Definition normalize_row (r : row) : row := (λ v, VStr (normalize_value v)) <$> r.

(** [normalize_results]: [[]] on empty input, the input itself for one row
    holding a key ['result'], and every row normalised otherwise. *)
Definition normalize_results (results : list row) : list row :=
  match results with
  | [] => []
  | [r] => if decide (is_Some (r !! "result")) then results else [normalize_row r]
  | _ => normalize_row <$> results
  end.

(** [str.isspace] on code points up to 255. *)
Definition is_space (c : ascii) : bool :=
  let n := nat_of_ascii c in
  ((9 <=? n) && (n <=? 13)) || ((28 <=? n) && (n <=? 32)) || (n =? 133) || (n =? 160).

Fixpoint lstrip_chars (l : list ascii) : list ascii :=
  match l with
  | c :: l' => if is_space c then lstrip_chars l' else l
  | [] => []
  end.

(** [s.strip()] *)
Definition strip (s : string) : string :=
  string_of_list_ascii
    (reverse (lstrip_chars (reverse (lstrip_chars (list_ascii_of_string s))))).

(** [_ensure_prefix] *)
Definition ensure_prefix (query : string) : string :=
  let prefix := "PREFIX : <http://example.org/family#>" in
  if negb (contains prefix query) && negb (contains "PREFIX :" query)
  then String.append prefix (String (ascii_of_nat 10) query)
  else query.

(** A test definition: ['name'], ['query'], ['expected']. *)
Record test_case := mk_test {
  tc_name : string;
  tc_query : string;
  tc_expected : list row
}.

Inductive status := PASS | FAIL | ERROR.

(** [self.results], and the dict [run_level] builds on a script error (the
    only one with a ['materialization_error'] entry). *)
Record results := mk_results {
  total : nat;
  passed : nat;
  failed : nat;
  details : gmap string status;
  materialization_error : option string
}.

Definition results0 : results := mk_results 0 0 0 ∅ None.

(** Python exceptions, with [str(e)]. *)
Inductive exn :=
  | ValueError (msg : string)
  | FileNotFoundError (msg : string)
  | OtherError (msg : string).

Definition exn_msg (e : exn) : string :=
  match e with ValueError m | FileNotFoundError m | OtherError m => m end.

(** What [run_level] returns: the runner's own [self.results] dict (returned
    by [run_tests], so every such result is the same object), or a fresh
    dict. *)
Inductive res_ref := Shared | Fresh (r : results).

(** Tuples of ints compare lexicographically. *)
Fixpoint zlist_leb (a b : list Z) : bool :=
  match a, b with
  | [], _ => true
  | _ :: _, [] => false
  | x :: a', y :: b' => if (x <? y)%Z then true else if (x =? y)%Z then zlist_leb a' b' else false
  end.

Definition keyed_le (a b : list Z * (string * test_case)) : Prop :=
  zlist_leb a.1 b.1 = true.
#[global] Instance keyed_le_dec : RelDecision keyed_le.
Proof. intros a b. unfold keyed_le. apply _. Defined.

Section Run.
(** The state of the backend (the RDF graph) and its operations. *)
Variable B : Type.
(** [backend.execute_query]: rows, or an exception. *)
Variable execute_query : string → B → exn + list row.
(** [backend.execute_update]: the new graph and the count of added triples. *)
Variable execute_update : string → B → exn + (B * Z).
(** [Path(p).exists()] and [open(p).read()]. *)
Variable path_exists : string → bool.
Variable read_file : string → exn + string.
(** [int(s)]: [None] where it raises [ValueError]. *)
Variable py_int : string → option Z.
(** The project root, against which [_resolve_script_path] resolves. *)
Variable project_root : string.
(** [self.test_suite['tests']]. *)
Variable suite : gmap string test_case.
(** [self.config['test_levels']]: name and test ids of each level, and
    [self.config.get('materialization_requirements', {})]. *)
Variable test_levels : gmap string (string * list string).
Variable materialization_requirements : gmap string (list string).

Record state := mk_state {
  backend : B;
  runner_results : results
}.

(** State and exceptions. *)
Definition M (A : Type) : Type := state → state * (exn + A).

#[local] Instance M_ret : MRet M := λ A a s, (s, inr a).
#[local] Instance M_bind : MBind M := λ X Y f m s,
  match m s with
  | (s', inr a) => f a s'
  | (s', inl e) => (s', inl e)
  end.

Definition raise {A} (e : exn) : M A := λ s, (s, inl e).
Definition get_state : M state := λ s, (s, inr s).
Definition put_state (s' : state) : M unit := λ _, (s', inr ()).
Definition modify_results (f : results → results) : M unit :=
  λ s, (mk_state (backend s) (f (runner_results s)), inr ()).
(** [try: m except Exception as e: h(e)] *)
Definition try_catch {A} (m : M A) (h : exn → M A) : M A :=
  λ s, match m s with
       | (s', inl e) => h e s'
       | r => r
       end.

Definition record_pass (tid : string) (r : results) : results :=
  mk_results (total r) (S (passed r)) (failed r) (<[tid := PASS]> (details r))
    (materialization_error r).
Definition record_fail (st : status) (tid : string) (r : results) : results :=
  mk_results (total r) (passed r) (S (failed r)) (<[tid := st]> (details r))
    (materialization_error r).
Definition set_total (n : nat) (r : results) : results :=
  mk_results n (passed r) (failed r) (details r) (materialization_error r).

(** [run_test]: the [try] block covers the query, the normalisation and
    the comparison. *)
Definition run_test (tid : string) (test : test_case) : M bool :=
  s ← get_state;
  match execute_query (ensure_prefix (strip (tc_query test))) (backend s) with
  | inr rows =>
      let actual := normalize_results rows in
      if results_match actual (tc_expected test)
      then _ ← modify_results (record_pass tid); mret true
      else _ ← modify_results (record_fail FAIL tid); mret false
  | inl _ => _ ← modify_results (record_fail ERROR tid); mret false
  end.

Fixpoint run_test_list (tests : list (string * test_case)) : M unit :=
  match tests with
  | [] => mret ()
  | (tid, test) :: rest => _ ← run_test tid test; run_test_list rest
  end.

(** [tuple(map(int, test_id.split('.')))] *)
Definition id_key (tid : string) : option (list Z) := mapM py_int (split "." tid).

(** [sorted(self.test_suite['tests'].items(), key=...)]. *)
Definition all_tests_sorted : M (list (string * test_case)) :=
  match mapM (λ kv : string * test_case, k ← id_key kv.1; Some (k, kv)) (map_to_list suite) with
  | Some keyed =>
      mret (snd <$> merge_sort keyed_le keyed)
  | None => raise (ValueError "invalid literal for int()")
  end.

(** [run_tests]: [test_ids] is [None] for Python's [None]; an empty list is
    falsy as well and selects all tests. *)
Definition run_tests (test_ids : option (list string)) : M unit :=
  tests ← match test_ids with
          | Some ((_ :: _) as ids) =>
              match mapM (λ tid, pair tid <$> suite !! tid) ids with
              | Some l => mret l
              | None => raise (ValueError "Test ID(s) not found")
              end
          | _ => all_tests_sorted
          end;
  _ ← modify_results (set_total (length tests));
  run_test_list tests.

(** [apply_materialization] *)
Definition apply_materialization (script_path : string) : M unit :=
  if negb (path_exists script_path)
  then raise (FileNotFoundError
                (String.append "Materialization script not found: " script_path))
  else match read_file script_path with
       | inl e => raise e
       | inr sparql_update =>
           s ← get_state;
           match execute_update sparql_update (backend s) with
           | inl e => raise e
           | inr (b', _) => put_state (mk_state b' (runner_results s))
           end
       end.

(** The [for script_path in materialize] loop of [run_level]: the first
    exception, if any, after which no further script is applied. *)
Fixpoint apply_scripts (scripts : list string) : M (option exn) :=
  match scripts with
  | [] => mret None
  | p :: rest =>
      r ← try_catch (_ ← apply_materialization p; mret None) (λ e, mret (Some e));
      match r with
      | Some e => mret (Some e)
      | None => apply_scripts rest
      end
  end.

(** [_resolve_script_path] *)
Definition resolve_script_path (p : string) : string :=
  if String.prefix "/" p then p else String.append project_root (String "/" p).

(** [run_level] *)
Definition run_level (level : nat) (materialize : option (list string)) : M res_ref :=
  let level_str := pretty level in
  match test_levels !! level_str with
  | None => raise (ValueError "Invalid level")
  | Some (_, test_ids) =>
      let scripts :=
        match materialize with
        | Some m => m
        | None => resolve_script_path <$> default [] (materialization_requirements !! level_str)
        end in
      err ← apply_scripts scripts;
      match err with
      | Some e => mret (Fresh (mk_results 0 0 0 ∅ (Some (exn_msg e))))
      | None => _ ← run_tests (Some test_ids); mret Shared
      end
  end.

(** The dict a result denotes in state [s]. *)
Definition deref (s : state) (r : res_ref) : results :=
  match r with
  | Shared => runner_results s
  | Fresh x => x
  end.

(** [f"level_{level}"] *)
Definition level_key (level : nat) : string := String.append "level_" (pretty level).

(** The [for level in range(start_level, 4)] loop of [run_all_levels]; the
    [break] reads [results['failed']] right after the level ran. *)
Fixpoint levels_loop (mpl : gmap nat (list string)) (lvls : list nat)
    (acc : list (string * res_ref)) : M (list (string * res_ref)) :=
  match lvls with
  | [] => mret acc
  | level :: rest =>
      r ← run_level level (Some (default [] (mpl !! level)));
      let acc' := acc ++ [(level_key level, r)] in
      s ← get_state;
      if bool_decide (0 < failed (deref s r)) then mret acc' else levels_loop mpl rest acc'
  end.

(** [run_all_levels(start_level, materialize_per_level)]; the entries of the
    result that are [Shared] all denote the runner's final [self.results]. *)
Definition run_all_levels (start_level : nat) (mpl : gmap nat (list string))
    : M (list (string * res_ref)) :=
  levels_loop mpl (seq start_level (4 - start_level)) [].

End Run.

End Runner.

(** A backend with one state whose queries all return no rows, every script
    present, empty and adding nothing. *)
Module RunnerExamples.
Import PyStr PyRepr Runner.

Definition ex_query (q : string) (b : unit) : exn + list row := inr [].
Definition ex_update (u : string) (b : unit) : exn + (unit * Z) := inr (b, 0%Z).

Definition ex_state : state unit := mk_state unit tt results0.

(** A test expecting no rows (it passes) and one expecting a row (it fails). *)
Definition t_pass : test_case := mk_test "pass" "ASK {}" [].
Definition t_fail : test_case := mk_test "fail" "SELECT ?x {}" [ {[ "x" := VStr ":a" ]} ].

Definition ex_suite (level0 : test_case) : gmap string test_case :=
  {[ "0.1" := level0; "1.1" := t_pass; "2.1" := t_pass; "3.1" := t_pass ]}.

Definition ex_levels : gmap string (string * list string) :=
  {[ "0" := ("L0", ["0.1"]); "1" := ("L1", ["1.1"]);
     "2" := ("L2", ["2.1"]); "3" := ("L3", ["3.1"]) ]}.

(** [TestExecutor(...).run_all_levels()] on this configuration. *)
Definition ex_run_all (level0 : test_case) : state unit * (exn + list (string * res_ref)) :=
  run_all_levels unit ex_query ex_update (λ _, true) (λ _, inr "") (λ _, None) ""
    (ex_suite level0) ex_levels ∅ 0 ∅ ex_state.

End RunnerExamples.


(* ------------------------------------------------------------------------ *)
(** ** Outputs and command line of the dependency analyser *)

Module AnalyzerOutputs.
Import PyStr Analyzer Levels Runner.

(** [s.replace(a, b)] for one-character [a] and [b]. *)
Fixpoint replace_char (a b : ascii) (s : string) : string :=
  match s with
  | EmptyString => EmptyString
  | String c s' => String (if Ascii.eqb c a then b else c) (replace_char a b s')
  end.

(** [_format_node_name] *)
Definition format_node_name (node_uri : string) : string :=
  let name := last_of (split "/" (last_of (split "#" node_uri))) in
  replace_char ":" "_" (replace_char "-" "_" name).

(** [s.rstrip()] *)
Definition rstrip (s : string) : string :=
  string_of_list_ascii (reverse (lstrip_chars (reverse (list_ascii_of_string s)))).

(** [range(start, start + n)] *)
Fixpoint range_from (start : Z) (n : nat) : list Z :=
  match n with
  | O => []
  | S n' => start :: range_from (start + 1)%Z n'
  end.

(** [range(start, stop)] *)
Definition py_range (start stop : Z) : list Z := range_from start (Z.to_nat (stop - start)).

(** The list [context] built by [_get_error_context] from the lines of the
    file ([f.readlines()]); every index [i] of the loop is below
    [len(lines)]. *)
Definition error_context_lines (lines : list string) (line_num context_lines : Z)
    : list string :=
  let start := Z.max 0 (line_num - context_lines - 1) in
  let end_ := Z.min (Z.of_nat (length lines)) (line_num + context_lines) in
  (λ i, let prefix := if bool_decide (i + 1 = line_num)%Z then ">> " else "   " in
        prefix +:+ pretty (i + 1)%Z +:+ ": " +:+ rstrip (default "" (lines !! Z.to_nat i)))
    <$> py_range start end_.

(** ['\n'.join(l)] *)
Fixpoint join_nl (l : list string) : string :=
  match l with
  | [] => ""
  | [x] => x
  | x :: l' => x +:+ String (ascii_of_nat 10) (join_nl l')
  end.

(** [_get_error_context]; [read_lines] gives [f.readlines()], or [None] when
    opening or reading the file raises. *)
Definition get_error_context (read_lines : string → option (list string))
    (file_path : string) (line_num context_lines : Z) : string :=
  match read_lines file_path with
  | None => "(Could not retrieve context)"
  | Some lines => join_nl (error_context_lines lines line_num context_lines)
  end.


(** [chr(10)] and [chr(34)], as one-character strings. *)
Definition nl : string := String (ascii_of_nat 10) EmptyString.
Definition dq : string := String (ascii_of_nat 34) EmptyString.
Definition quoted (s : string) : string := dq +:+ s +:+ dq.

(** [os.path.basename(p)] *)
Definition basename (p : string) : string := last_of (split "/" p).

(** RDF terms of an rdflib graph. *)
Inductive term :=
  | URIRef (s : string)
  | BNode (s : string)
  | Literal (s : string).

#[global] Instance term_eq_dec : EqDecision term.
Proof. solve_decision. Defined.

(** [str(t)] *)
Definition term_str (t : term) : string :=
  match t with URIRef s | BNode s | Literal s => s end.

Definition is_bnode (t : term) : bool :=
  match t with BNode _ => true | _ => false end.

Definition triple : Type := term * term * term.

Definition owl_propertyChainAxiom : term :=
  URIRef "http://www.w3.org/2002/07/owl#propertyChainAxiom".
Definition family_materializationDependency : term :=
  URIRef "http://example.org/family#materializationDependency".

(** The two [defaultdict(set)] fields written by [extract_dependencies]. *)
Record dep_maps := mk_dep_maps {
  dependencies_of : gmap string (gset string);
  reverse_deps : gmap string (gset string)
}.

(** [self.dependencies[prop_uri].add(dep_uri)];
    [self.reverse_deps[dep_uri].add(prop_uri)] *)
Definition add_dependency (prop_uri dep_uri : string) (m : dep_maps) : dep_maps :=
  mk_dep_maps
    (<[prop_uri := {[dep_uri]} ∪ default ∅ (dependencies_of m !! prop_uri)]>
       (dependencies_of m))
    (<[dep_uri := {[prop_uri]} ∪ default ∅ (reverse_deps m !! dep_uri)]>
       (reverse_deps m)).

(** [self.graph.triples((None, pred, None))], as (subject, object) pairs. *)
Definition triples_with (g : list triple) (pred : term) : list (term * term) :=
  (λ t : triple, (t.1.1, t.2)) <$> filter (λ t : triple, t.1.2 = pred) g.

(** Body of the first loop; [items] is [self.graph.items]. *)
Definition chain_step (items : term → list term) (m : dep_maps) (so : term * term)
    : dep_maps :=
  let (prop, chain_node) := so in
  if is_bnode chain_node then
    foldl (λ m dep, if is_bnode dep then m
                    else add_dependency (term_str prop) (term_str dep) m)
      m (items chain_node)
  else m.

(** Body of the second loop. *)
Definition annotation_step (m : dep_maps) (so : term * term) : dep_maps :=
  match so with
  | (URIRef prop_uri, URIRef dep_uri) => add_dependency prop_uri dep_uri m
  | _ => m
  end.

(** [extract_dependencies] on the graph [g] (its triples, in the order the
    graph yields them). *)
Definition extract_dependencies (items : term → list term) (g : list triple) : dep_maps :=
  let m := foldl (chain_step items) (mk_dep_maps ∅ ∅)
             (triples_with g owl_propertyChainAxiom) in
  foldl annotation_step m (triples_with g family_materializationDependency).

(** [d = defaultdict(list); for (k, x) in l: d[k].append(x)] *)
Definition group_pairs (l : list (nat * string)) : gmap nat (list string) :=
  foldl (λ (g : gmap nat (list string)) (kx : nat * string),
    <[kx.1 := default [] (g !! kx.1) ++ [kx.2]]> g) ∅ l.

(** [sorted(d.keys())] for a dict keyed by levels. *)
Definition sorted_keys {V} (g : gmap nat V) : list nat :=
  merge_sort Nat.le (fst <$> map_to_list g).

(** [d[k] = v] on a dict kept as the list of its items in insertion order. *)
Fixpoint assoc_insert {V} (k : string) (v : V) (l : list (string * V)) : list (string * V) :=
  match l with
  | [] => [(k, v)]
  | (k', v') :: l' => if String.eqb k k' then (k, v) :: l' else (k', v') :: assoc_insert k v l'
  end.

(** [d[k] = f(d[k])] for a key [k] of the dict. *)
Fixpoint assoc_modify {V} (k : string) (f : V → V) (l : list (string * V)) : list (string * V) :=
  match l with
  | [] => []
  | (k', v) :: l' => if String.eqb k k' then (k', f v) :: l' else (k', v) :: assoc_modify k f l'
  end.

(** [generate_mermaid_diagram]: the list [mermaid] of lines, from the result
    [(nodes, relationships, dependency_levels, max_level)] of
    [_calculate_dependency_levels]; [iter] is the iteration order of the set
    [nodes] and [timestamp] the formatted time. *)
Section Mermaid.
Variable iter : gset string → list string.

Definition mermaid_header : list string :=
  [ "%%{init: {" +:+ quoted "theme" +:+ ": " +:+ quoted "base" +:+ ", " +:+
      quoted "themeVariables" +:+ ": { " +:+ quoted "background" +:+ ": " +:+
      quoted "#ffffff" +:+ " }}}%%";
    "graph LR";
    "    %% Define styles";
    "    classDef default fill:#ffffff,stroke:#333,stroke-width:1px,color:#000000";
    "    classDef Level0 fill:#90ee90,stroke:#333,stroke-width:1px,color:#000000";
    "    classDef Level1 fill:#ffffe0,stroke:#333,stroke-width:1px,color:#000000";
    "    classDef Level2 fill:#ffd580,stroke:#333,stroke-width:1px,color:#000000";
    "    classDef Level3Plus fill:#ffb6c1,stroke:#333,stroke-width:1px,color:#000000";
    "";
    "    %% Container styles";
    "    style Dependencies fill:#ffffff,stroke:#333,stroke-width:1px";
    "    style Context fill:#ffffff,stroke:#333,stroke-width:1px";
    "    linkStyle default fill:none,stroke:#333,stroke-width:1px";
    "" ].

(** [f'    {node}:::Level{style_level if style_level < 3 else "3Plus"}'] *)
Definition node_line (level : nat) (node : string) : string :=
  let style_level := Nat.min level 3 in
  "    " +:+ node +:+ ":::Level" +:+
    (if style_level <? 3 then pretty style_level else "3Plus").

Definition mermaid_lines (timestamp : string) (source_file : option string)
    (nodes : gset string) (relationships : list (string * string))
    (dependency_levels : gmap string nat) (max_level : nat) : list string :=
  let nodes_by_level := group_pairs
    ((λ node, (default 0 (dependency_levels !! node), node)) <$> iter nodes) in
  let level0 :=
    match nodes_by_level !! 0 with
    | Some ns =>
        ["    %% Level 0 nodes (no dependencies)"] ++
        ((λ node, "    " +:+ node +:+ ":::Level0") <$> sorted_strs ns) ++ [""]
    | None => []
    end in
  let others := concat ((λ level,
      if level =? 0 then []
      else ("    %% Level " +:+ pretty level +:+ " nodes") ::
           (node_line level <$> sorted_strs (default [] (nodes_by_level !! level))) ++ [""])
    <$> sorted_keys nodes_by_level) in
  let has_source := match source_file with Some f => negb (String.eqb f "") | None => false end in
  let context_subgraph :=
    [ "    %% Context information (appears at the bottom)";
      "    subgraph Context[" +:+ quoted "Context" +:+ "]";
      "        direction TB";
      "        style Context fill:#ffffff,stroke:#333,stroke-width:1px";
      "        style context fill:#ffffff,stroke:none,color:#000000";
      "        context[" +:+ dq +:+ "Source: " +:+ basename (default "" source_file) +:+ nl +:+
        "Generated: " +:+ timestamp +:+ nl +:+
        "Total nodes: " +:+ pretty (size nodes) +:+ ", Relationships: " +:+
        pretty (length relationships) +:+ nl +:+
        "Max dependency depth: " +:+ pretty max_level +:+ dq +:+ "]";
      "    end" ] in
  let dependency_buffer := concat ((λ level,
      if level =? 0 then []
      else ("        %% Level " +:+ pretty level +:+ " dependencies") ::
           concat ((λ node,
               (λ st : string * string, "        " +:+ st.1 +:+ " --> " +:+ st.2) <$>
                 filter (λ st : string * string, st.2 = node) relationships)
             <$> sorted_strs (default [] (nodes_by_level !! level))) ++ [""])
    <$> sorted_keys nodes_by_level) in
  mermaid_header ++ level0 ++ others ++
  ["";
   "    subgraph Dependencies[" +:+ quoted "Dependencies" +:+ "]";
   "        direction LR";
   ""] ++
  dependency_buffer ++ ["    end"] ++
  (if has_source then "" :: context_subgraph else []).

(** [generate_mermaid_diagram(output_file, source_file)]: the text written,
    ['\n'.join(mermaid) + '\n']. *)
Definition generate_mermaid_diagram (timestamp : string) (source_file : option string)
    (D : gmap string (gset string)) : option string :=
  match calculate_dependency_levels iter D with
  | Some (nodes, relationships, levels, max_level) =>
      Some (join_nl (mermaid_lines timestamp source_file nodes relationships levels max_level) +:+ nl)
  | None => None
  end.

(** The dict [graph['nodes'][node]]. *)
Record node_entry := mk_node_entry {
  ne_level : nat;
  ne_dependencies : list string;
  ne_dependents : list string
}.

(** [graph_data], each dict as its items in insertion order ([levels] is
    [dependency_levels] itself). *)
Record graph_data := mk_graph_data {
  gd_nodes : list (string * node_entry);
  gd_relationships : list (string * string);
  gd_levels : gmap string nat;
  gd_levels_ordered : list (string * list string)
}.

Definition add_dependent (t : string) (e : node_entry) : node_entry :=
  mk_node_entry (ne_level e) (ne_dependencies e) (ne_dependents e ++ [t]).
Definition add_dependency_entry (s : string) (e : node_entry) : node_entry :=
  mk_node_entry (ne_level e) (ne_dependencies e ++ [s]) (ne_dependents e).

(** The loop over [relationships] of [dump_graph_data]. *)
Definition adjacency_step (ns : list (string * node_entry)) (st : string * string)
    : list (string * node_entry) :=
  let (source, target) := st in
  if bool_decide (source ∈ fst <$> ns) && bool_decide (target ∈ fst <$> ns)
  then assoc_modify target (add_dependency_entry source)
         (assoc_modify source (add_dependent target) ns)
  else ns.

Definition graph_data_of (nodes : gset string) (relationships : list (string * string))
    (dependency_levels : gmap string nat) : graph_data :=
  let nodes_by_level := group_pairs ((λ kv, (kv.2, kv.1)) <$> map_to_list dependency_levels) in
  let ns0 := foldl (λ ns node,
      assoc_insert node (mk_node_entry (default 0 (dependency_levels !! node)) [] []) ns)
    [] (sorted_strs (iter nodes)) in
  let ns := foldl adjacency_step ns0 relationships in
  let levels_ordered := foldl (λ lo level,
      assoc_insert ("level_" +:+ pretty level)
        (sorted_strs (default [] (nodes_by_level !! level))) lo)
    [] (sorted_keys nodes_by_level) in
  mk_graph_data ns relationships dependency_levels levels_ordered.

(** [dump_graph_data]: the [graph_data] dict written as JSON. *)
Definition dump_graph_data (D : gmap string (gset string)) : option graph_data :=
  match calculate_dependency_levels iter D with
  | Some (nodes, relationships, levels, _) => Some (graph_data_of nodes relationships levels)
  | None => None
  end.
End Mermaid.

(** The Mermaid class of a node of each level, and the lines the diagram
    gives one level: its node declarations, and its edges (the
    relationships whose target is at that level). *)
Definition level_class (level : nat) : string :=
  match level with
  | 0 => "Level0" | 1 => "Level1" | 2 => "Level2" | _ => "Level3Plus"
  end.

Definition node_decl_block (level : nat) (ns : list string) : list string :=
  (if level =? 0 then "    %% Level 0 nodes (no dependencies)"
   else "    %% Level " +:+ pretty level +:+ " nodes") ::
  ((λ node, "    " +:+ node +:+ ":::" +:+ level_class level) <$> ns) ++ [""].

Definition edge_block (level : nat) (edges : list (string * string)) : list string :=
  ("        %% Level " +:+ pretty level +:+ " dependencies") ::
  ((λ st : string * string, "        " +:+ st.1 +:+ " --> " +:+ st.2) <$> edges) ++ [""].

(** [write_ordered_relationships]: the strings passed to [f.write], in order. *)
Definition ordered_relationships_writes (timestamp : string) (relationships : list string)
    (dependency_levels : gmap string nat) : list string :=
  let relationships_by_level := group_pairs
    ((λ rel, (default 0 (dependency_levels !! short_name rel), rel)) <$> relationships) in
  ["# Ordered Relationships by Dependency Level" +:+ nl;
   "# Generated at: " +:+ timestamp +:+ nl +:+ nl] ++
  concat ((λ level,
      (if level =? 0 then "## Level 0 (Base relationships - no dependencies)" +:+ nl
       else "## Level " +:+ pretty level +:+ " (Dependency Depth: " +:+ pretty level +:+ ")" +:+ nl) ::
      ((λ rel, "- " +:+ short_name rel +:+ " (" +:+ rel +:+ ")" +:+ nl) <$>
         sorted_strs (default [] (relationships_by_level !! level))) ++ [nl])
    <$> sorted_keys relationships_by_level).

(** The exception classes [main] tells apart. *)
Inductive py_error := PyFileNotFoundError | PySyntaxError | PyOtherError.

Section Main.
Variable iter : gset string → list string.
(** [os.path.exists] *)
Variable path_exists : string → bool.
(** [self.graph.parse(f, format='turtle')]: the triples, or the exception with
    the line number [re.search(r'line (\d+)', str(e))] finds in it. *)
Variable parse : string → (option Z * py_error) + list triple.
(** [self.graph.items] on the parsed graph. *)
Variable items : term → list term.
(** Everything [main] does after [_calculate_dependency_levels] that may
    raise (creating the output directory and writing the three files). *)
Variable save_outputs : list string → gset string * list (string * string) * gmap string nat * nat →
  option py_error.

(** [OntologyDependencyAnalyzer(f)]: [FileNotFoundError] when the file does
    not exist, [SyntaxError] when the parse error names a line, the parse
    error itself otherwise. *)
Definition load_ontology (f : string) : py_error + list triple :=
  if negb (path_exists f) then inl PyFileNotFoundError
  else match parse f with
       | inl (Some _, _) => inl PySyntaxError
       | inl (None, e) => inl e
       | inr g => inr g
       end.

(** The [try] block of [main]: the exception that leaves it, if any. *)
Definition analyze (f : string) : option py_error :=
  match load_ontology f with
  | inl e => Some e
  | inr g =>
      let D := dependencies_of (extract_dependencies items g) in
      match topological_sort iter (fresh D) with
      | Ok a =>
          match calculate_dependency_levels iter D with
          | Some res => save_outputs (sorted_relations a) res
          | None => Some PyOtherError
          end
      | _ => Some PyOtherError
      end
  end.

Definition is_help (s : string) : bool := String.eqb s "-h" || String.eqb s "--help".

(** [main()]: the exit code, from [sys.argv]. *)
Definition main (argv : list string) : nat :=
  match argv with
  | [_; f] =>
      if is_help f then 0
      else match analyze f with
           | None => 0
           | Some PyFileNotFoundError => 1
           | Some PySyntaxError => 2
           | Some PyOtherError => 3
           end
  | _ :: a :: _ => if is_help a then 0 else 1
  | _ => 0
  end.
End Main.

End AnalyzerOutputs.

(* ------------------------------------------------------------------------ *)
(** ** The deduplicating loops of the test command line *)

Module Cli.
Import PyStr.

(** One pass of the [if x not in seen: out.append(x); seen.add(x)] loops of
    [cmd_run_tests]: the list built so far and the set [seen]. *)
Definition dedup_step (st : list string * gset string) (x : string) : list string * gset string :=
  if decide (x ∈ st.2) then st else (st.1 ++ [x], {[x]} ∪ st.2).

(** The loop over one list, from an empty list and an empty [seen]. *)
Definition collect_unique (l : list string) : list string := (foldl dedup_step ([], ∅) l).1.

(** [all_materialize] of [cmd_run_tests] for [--level all]: the explicit
    ['all'] entry of [materialization_requirements], or else the scripts of
    levels 0 to 9, in that order, each kept at its first occurrence. *)
Definition all_materialize (mat_config : gmap string (list string)) : list string :=
  match mat_config !! "all" with
  | Some l => l
  | None =>
      (foldl (λ st level, foldl dedup_step st (default [] (mat_config !! pretty level)))
         ([], ∅) (seq 0 10)).1
  end.

End Cli.

(* ------------------------------------------------------------------------ *)
(** ** Inputs used by the witnesses of the further properties *)

Module ExtraExamples.
Import PyStr.

(** [int(s)] on strings of decimal digits (and [None], Python's
    [ValueError], on anything else, the empty string included). *)
Definition digits_int (s : string) : option Z :=
  match s with
  | EmptyString => None
  | _ =>
      foldl (λ acc c, acc ≫= λ n,
               let d := (Z.of_nat (nat_of_ascii c) - 48)%Z in
               if bool_decide (0 ≤ d ≤ 9)%Z then Some (10 * n + d)%Z else None)
        (Some 0%Z) (list_ascii_of_string s)
  end.

End ExtraExamples.

(* ------------------------------------------------------------------------ *)
(** ** Lemmas on the traversal *)

Module AnalyzerFacts.
Import PyStr Analyzer.

Lemma for_each_ind (P : analyzer → Prop) g ds a a' :
  P a →
  (∀ d b b', d ∈ ds → P b → g d b = Ok b' → P b') →
  for_each g ds a = Ok a' → P a'.
Proof.
  revert a. induction ds as [|d ds IH]; intros a Ha Hstep; simpl.
  - by intros [= <-].
  - destruct (g d a) as [b|b|] eqn:Hg; try discriminate.
    apply IH; [eapply Hstep; eauto; by left|].
    intros. eapply Hstep; eauto. by right.
Qed.

(** A loop that does not return normally ends with the failure of one of its
    bodies, run on a state that satisfies the loop invariant. *)
Lemma for_each_not_ok (P : analyzer → Prop) g ds a r :
  P a →
  (∀ d b b', d ∈ ds → P b → g d b = Ok b' → P b') →
  for_each g ds a = r → (∀ a', r ≠ Ok a') →
  ∃ d b, d ∈ ds ∧ P b ∧ g d b = r.
Proof.
  revert a. induction ds as [|d ds IH]; intros a Ha Hstep; simpl.
  - intros <- H. by destruct (H a).
  - destruct (g d a) as [b|b|] eqn:Hg.
    + intros Hr Hne. destruct (IH b) as (d' & b' & ? & ? & ?); try done.
      * apply (Hstep d a b); [by left|done..].
      * intros e c c' ?. apply Hstep. by right.
      * exists d', b'. split; [by right|done].
    + intros <- _. exists d, a. split; [by left|done].
    + intros <- _. exists d, a. split; [by left|done].
Qed.

Lemma for_each_all (P : analyzer → Prop) (Q : string → analyzer → Prop) g ds a a' :
  P a →
  (∀ d b b', d ∈ ds → P b → g d b = Ok b' → P b' ∧ Q d b') →
  (∀ d d' b b', d' ∈ ds → P b → Q d b → g d' b = Ok b' → Q d b') →
  for_each g ds a = Ok a' → P a' ∧ ∀ d, d ∈ ds → Q d a'.
Proof.
  revert a. induction ds as [|d ds IH]; intros a Ha Hstep Hkeep; simpl.
  - intros [= <-]. split; [done|]. intros ? Hd. by apply elem_of_nil in Hd.
  - destruct (g d a) as [b|b|] eqn:Hg; try discriminate. intros Hrun.
    destruct (Hstep d a b) as [Hb HQ]; [by left|done|done|].
    assert (HP : P a' ∧ ∀ d', d' ∈ ds → Q d' a').
    { apply (IH b); [done| | |done].
      - intros e c c' ???. apply (Hstep e c c'); [by right|done..].
      - intros e e' c c' ?. apply Hkeep. by right. }
    split; [apply HP|].
    intros d' Hd'. apply elem_of_cons in Hd' as [->|Hd']; [|by apply HP].
    refine (proj2 (for_each_ind (λ c, P c ∧ Q d c) g ds b a' _ _ Hrun)).
    + done.
    + intros e c c' He [Hc HQc] Hgc. split.
      * apply (Hstep e c c'); [by right|done..].
      * eapply (Hkeep d e c c'); [by right|done..].
Qed.

Lemma sorted_strs_elem x l : x ∈ sorted_strs l ↔ x ∈ l.
Proof. unfold sorted_strs. by rewrite (merge_sort_Permutation str_le l). Qed.

Lemma deps_of_depends D a x y :
  dependencies a = D → (y ∈ sorted_strs (elements (deps_of a x)) ↔ depends D x y).
Proof.
  intros HD. rewrite sorted_strs_elem, elem_of_elements. unfold deps_of, depends.
  rewrite HD. destruct (D !! x) as [S|]; simpl.
  - split; [eauto|]. intros (S' & [= <-] & ?). done.
  - split; [set_solver|]. by intros (? & ? & ?).
Qed.

Lemma depends_all_nodes D x y :
  depends D x y → x ∈ all_nodes D ∧ y ∈ all_nodes D.
Proof.
  intros (S & HS & Hy). unfold all_nodes. split.
  - apply elem_of_union_l. apply elem_of_dom. eauto.
  - apply elem_of_union_r. apply elem_of_union_list. exists S. split; [|done].
    apply list_elem_of_fmap. exists (x, S). split; [done|].
    by apply elem_of_map_to_list.
Qed.

Lemma visit_ok D f n a a' :
  inv D a → n ∈ all_nodes D → visit f n a = Ok a' →
  inv D a' ∧ temp_marked a' = temp_marked a ∧ n ∈ visited a' ∧
  visited a ⊆ visited a'.
Proof.
  revert n a a'. induction f as [|f IH]; intros n a a' Ha Hn; simpl; [done|].
  destruct (decide (n ∈ temp_marked a)) as [Ht|Ht]; [done|].
  destruct (decide (n ∈ visited a)) as [Hv|Hv].
  { intros [= <-]. done. }
  destruct Ha as (HD & Hnd & Hsv & Hdis & Hsub & Hord).
  match goal with |- context [for_each _ ?l ?a1] =>
    remember l as ds eqn:Hds; set (a1' := a1) end.
  destruct (for_each (visit f) ds a1') as [a2|a2|] eqn:Hfe; try discriminate.
  intros [= <-].
  destruct (for_each_all
    (λ b, inv D b ∧ temp_marked b = {[n]} ∪ temp_marked a ∧ visited a ⊆ visited b)
    (λ d b, d ∈ visited b) (visit f) ds a1' a2) as
    [((HD2 & Hnd2 & Hsv2 & Hdis2 & Hsub2 & Hord2) & Ht2 & Hv2) Hall]; [| | |done|].
  - subst a1'. split; [|done]. unfold inv; simpl. split_and!; try done. set_solver.
  - intros d b b' Hd (Hb & Htb & Hvb) Hrun.
    assert (Hdn : depends D n d) by (subst ds; by apply (deps_of_depends D a)).
    destruct (IH d b b') as (? & ? & ? & ?); [done|by apply (depends_all_nodes D n d)|done|].
    split; [split; [done|] |done]. split; [congruence|set_solver].
  - intros d d' b b' Hd' (Hb & _ & _) Hdb Hrun.
    assert (Hdn : depends D n d') by (subst ds; by apply (deps_of_depends D a)).
    destruct (IH d' b b') as (? & ? & ? & ?); [done|by apply (depends_all_nodes D n d')|done|].
    set_solver.
  - assert (Hn2 : n ∉ sorted_relations a2).
    { rewrite Hsv2. rewrite Ht2 in Hdis2. set_solver. }
    unfold inv; simpl. split_and!.
      * done.
      * apply NoDup_app. split; [done|]. split; [|apply NoDup_singleton].
        intros x Hx ->%list_elem_of_singleton. done.
      * intros x. rewrite elem_of_app, list_elem_of_singleton, elem_of_union,
          elem_of_singleton, Hsv2. tauto.
      * set_solver.
      * set_solver.
      * intros i x y Hi Hxy. apply lookup_snoc_Some in Hi as [[Hi Hix]|[-> <-]].
        { destruct (Hord2 i x y Hix Hxy) as (j & ? & ?).
          exists j. split; [done|]. by apply lookup_app_l_Some. }
        assert (Hy : y ∈ visited a2).
        { apply Hall. subst ds. by apply (deps_of_depends D a). }
        apply Hsv2, list_elem_of_lookup_1 in Hy as [j Hj].
        exists j. split; [by eapply lookup_lt_Some|]. by apply lookup_app_l_Some.
      * rewrite Ht2. set_solver.
      * set_solver.
      * set_solver.
Qed.

Lemma size_remove_node (N T : gset string) n :
  n ∈ N → n ∉ T → size (N ∖ ({[n]} ∪ T)) < size (N ∖ T).
Proof. intros. apply subset_size. set_solver. Qed.

(** The recursion budget [size (all_nodes D) + 1] of [topological_sort] is
    never exhausted: every nested call puts one more node of [all_nodes D]
    on the stack. *)
Lemma visit_fuel D f n a :
  inv D a → n ∈ all_nodes D → size (all_nodes D ∖ temp_marked a) < f →
  visit f n a ≠ OutOfFuel.
Proof.
  revert n a. induction f as [|f IH]; intros n a Ha Hn Hf; [lia|]. simpl.
  destruct (decide (n ∈ temp_marked a)) as [Ht|Ht]; [done|].
  destruct (decide (n ∈ visited a)) as [Hv|Hv]; [done|].
  pose proof Ha as (HD & _).
  match goal with |- context [for_each _ ?l ?a1] =>
    remember l as ds eqn:Hds; set (a1' := a1) end.
  destruct (for_each (visit f) ds a1') as [a2|a2|] eqn:Hfe; [done|done|].
  intros _.
  destruct (for_each_not_ok
    (λ b, inv D b ∧ temp_marked b = {[n]} ∪ temp_marked a)
    (visit f) ds a1' OutOfFuel) as (d & b & Hd & [Hb Htb] & Hrun); try done.
  - subst a1'. split; [|done]. destruct Ha as (? & ? & ? & ? & ? & ?).
    unfold inv; simpl. split_and!; try done. set_solver.
  - intros d b b' Hd [Hb Htb] Hrun.
    assert (Hdn : depends D n d) by (subst ds; by apply (deps_of_depends D a)).
    destruct (visit_ok D f d b b') as (? & ? & ? & ?);
      [done|by apply (depends_all_nodes D n d)|done|].
    split; [done|congruence].
  - assert (Hdn : depends D n d) by (subst ds; by apply (deps_of_depends D a)).
    apply (IH d b); [done|by apply (depends_all_nodes D n d)| |done].
    rewrite Htb. pose proof (size_remove_node (all_nodes D) (temp_marked a) n Hn Ht).
    lia.
Qed.

(** [_visit] raises only when the relation has a cycle, provided every node
    on the in-progress stack reaches the visited node. *)
Lemma visit_cycle D f n a a' :
  inv D a → n ∈ all_nodes D → stack_reaches D a n → visit f n a = CycleError a' →
  ∃ x, tc (depends D) x x.
Proof.
  revert n a. induction f as [|f IH]; intros n a Ha Hn Hst; [done|]. simpl.
  destruct (decide (n ∈ temp_marked a)) as [Ht|Ht].
  { intros _. exists n. by apply Hst. }
  destruct (decide (n ∈ visited a)) as [Hv|Hv]; [done|].
  pose proof Ha as (HD & _).
  match goal with |- context [for_each _ ?l ?a1] =>
    remember l as ds eqn:Hds; set (a1' := a1) end.
  destruct (for_each (visit f) ds a1') as [a2|a2|] eqn:Hfe; [done| |done].
  intros [= <-].
  destruct (for_each_not_ok
    (λ b, inv D b ∧ temp_marked b = {[n]} ∪ temp_marked a)
    (visit f) ds a1' (CycleError a2)) as (d & b & Hd & [Hb Htb] & Hrun); try done.
  - subst a1'. split; [|done]. destruct Ha as (? & ? & ? & ? & ? & ?).
    unfold inv; simpl. split_and!; try done. set_solver.
  - intros d b b' Hd [Hb Htb] Hrun.
    assert (Hdn : depends D n d) by (subst ds; by apply (deps_of_depends D a)).
    destruct (visit_ok D f d b b') as (? & ? & ? & ?);
      [done|by apply (depends_all_nodes D n d)|done|].
    split; [done|congruence].
  - assert (Hdn : depends D n d) by (subst ds; by apply (deps_of_depends D a)).
    apply (IH d b); [done|by apply (depends_all_nodes D n d)| |done].
    intros t. rewrite Htb, elem_of_union, elem_of_singleton. intros [->|Ht'].
    + by apply tc_once.
    + eapply tc_r; [by apply Hst|done].
Qed.

Section TopSort.
Variable iter : gset string → list string.
Hypothesis iter_elem : ∀ X x, x ∈ iter X ↔ x ∈ X.

Lemma topological_sort_step D a d b b' :
  temp_marked b = temp_marked a → inv D b → d ∈ iter (all_nodes D) →
  sort_body (all_nodes D) d b = Ok b' →
  (inv D b' ∧ temp_marked b' = temp_marked a) ∧ d ∈ visited b' ∧
  visited b ⊆ visited b'.
Proof.
  intros Htb Hb Hd. unfold sort_body. destruct (decide (d ∈ visited b)).
  { intros [= <-]. done. }
  intros Hrun. apply iter_elem in Hd.
  destruct (visit_ok D (S (size (all_nodes D))) d b b') as (? & ? & ? & ?); [done..|].
  split_and!; try done. congruence.
Qed.

Lemma topological_sort_start a :
  inv (dependencies a)
    (mk_analyzer (dependencies a) [] ∅ (temp_marked a)).
Proof.
  unfold inv; simpl. split_and!; try done.
  - constructor.
  - intros x. rewrite elem_of_nil, elem_of_empty. done.
Qed.

(** A call that returns leaves the invariant and all nodes visited. *)
Lemma topological_sort_ok a a' :
  topological_sort iter a = Ok a' →
  inv (dependencies a) a' ∧ temp_marked a' = temp_marked a ∧
  ∀ x, x ∈ all_nodes (dependencies a) → x ∈ visited a'.
Proof.
  unfold topological_sort. intros Hrun.
  destruct (for_each_all
    (λ b, inv (dependencies a) b ∧ temp_marked b = temp_marked a)
    (λ d b, d ∈ visited b) (sort_body (all_nodes (dependencies a))) (iter (all_nodes (dependencies a))) _ a'
    (conj (topological_sort_start a) eq_refl))
    as [[Ha' Ht'] Hall]; [| |done|].
  - intros d b b' Hd [Hb Htb] Hstep.
    destruct (topological_sort_step (dependencies a) a d b b') as (? & ? & ?); done.
  - intros d d' b b' Hd' [Hb Htb] Hdb Hstep.
    destruct (topological_sort_step (dependencies a) a d' b b') as (? & ? & ?); try done.
    set_solver.
  - split_and!; try done. intros x Hx. apply Hall, iter_elem, Hx.
Qed.

Lemma topological_sort_not_oof a : topological_sort iter a ≠ OutOfFuel.
Proof.
  unfold topological_sort. intros Hrun.
  destruct (for_each_not_ok
    (λ b, inv (dependencies a) b ∧ temp_marked b = temp_marked a)
    (sort_body (all_nodes (dependencies a))) (iter (all_nodes (dependencies a))) _ OutOfFuel
    (conj (topological_sort_start a) eq_refl))
    as (d & b & Hd & [Hb Htb] & Hg); try done.
  - intros d b b' Hd [Hb Htb] Hstep.
    destruct (topological_sort_step (dependencies a) a d b b') as (? & ? & ?); done.
  - unfold sort_body in Hg. destruct (decide (d ∈ visited b)); [done|].
    refine (visit_fuel (dependencies a) (S (size (all_nodes (dependencies a)))) d b
      Hb _ _ Hg); [by apply iter_elem|].
    assert (size (all_nodes (dependencies a) ∖ temp_marked b)
      ≤ size (all_nodes (dependencies a))) by (apply subseteq_size; set_solver).
    lia.
Qed.

Lemma topological_sort_cycle a a' :
  temp_marked a = ∅ → topological_sort iter a = CycleError a' →
  ∃ x, tc (depends (dependencies a)) x x.
Proof.
  unfold topological_sort. intros Hempty Hrun.
  destruct (for_each_not_ok
    (λ b, inv (dependencies a) b ∧ temp_marked b = temp_marked a)
    (sort_body (all_nodes (dependencies a))) (iter (all_nodes (dependencies a))) _ (CycleError a')
    (conj (topological_sort_start a) eq_refl))
    as (d & b & Hd & [Hb Htb] & Hg); try done.
  - intros d b b' Hd [Hb Htb] Hstep.
    destruct (topological_sort_step (dependencies a) a d b b') as (? & ? & ?); done.
  - unfold sort_body in Hg. destruct (decide (d ∈ visited b)); [done|].
    eapply visit_cycle; [done|by apply iter_elem| |done].
    intros t. rewrite Htb, Hempty. set_solver.
Qed.

End TopSort.

(** Along a path of the relation, positions strictly decrease in an ordered
    list that holds every node. *)
Lemma topo_ordered_tc D l x y i :
  topo_ordered D l → (∀ z, z ∈ all_nodes D → z ∈ l) →
  tc (depends D) x y → l !! i = Some x → ∃ j, j < i ∧ l !! j = Some y.
Proof.
  intros Hord Hall Htc. revert i. induction Htc as [x y Hxy|x y z Hxy Hyz IH]; intros i Hi.
  - by apply (Hord i x y).
  - destruct (Hord i x y Hi Hxy) as (j & Hj & Hjy).
    destruct (IH j Hjy) as (k & ? & ?). exists k. split; [lia|done].
Qed.

End AnalyzerFacts.

(* ------------------------------------------------------------------------ *)
(** ** Lemmas on the level computation *)

Module LevelsFacts.
Import PyStr Analyzer AnalyzerFacts Levels.

Lemma collect_inner (prop : string) (l : list string) (N : gset string)
    (R : list (string * string)) :
  foldl (λ acc2 dep_uri,
      let dep := short_name dep_uri in
      ({[dep]} ∪ acc2.1, acc2.2 ++ [(dep, prop)])) (N, R) l =
  (list_to_set (short_name <$> l) ∪ N, R ++ ((λ d, (short_name d, prop)) <$> l)).
Proof.
  revert N R. induction l as [|d l IH]; intros N R; simpl.
  - f_equal; [set_solver|by rewrite app_nil_r].
  - rewrite IH. f_equal; [set_solver|by rewrite <-app_assoc].
Qed.

Lemma collect_go (items : list (string * gset string)) (N : gset string)
    (R : list (string * string)) :
  let res := foldl (λ acc kv,
      let prop := short_name kv.1 in
      foldl (λ acc2 dep_uri,
          let dep := short_name dep_uri in
          ({[dep]} ∪ acc2.1, acc2.2 ++ [(dep, prop)]))
        ({[prop]} ∪ acc.1, acc.2) (elements kv.2)) (N, R) items in
  (∀ st, st ∈ res.2 ↔ st ∈ R ∨
     ∃ p S d, (p, S) ∈ items ∧ d ∈ S ∧ st = (short_name d, short_name p)) ∧
  (∀ x, x ∈ res.1 ↔ x ∈ N ∨
     ∃ p S, (p, S) ∈ items ∧ (x = short_name p ∨ ∃ d, d ∈ S ∧ x = short_name d)).
Proof.
  revert N R. induction items as [|[p S] items IH]; intros N R; simpl.
  - split.
    + intros st. split; [by left|].
      intros [?|(? & ? & ? & Hin & _)]; [done|by apply elem_of_nil in Hin].
    + intros x. split; [by left|].
      intros [?|(? & ? & Hin & _)]; [done|by apply elem_of_nil in Hin].
  - rewrite collect_inner. destruct (IH (list_to_set (short_name <$> elements S) ∪ ({[short_name p]} ∪ N))
      (R ++ ((λ d, (short_name d, short_name p)) <$> elements S))) as [HR HN].
    split.
    + intros st. rewrite HR, elem_of_app, list_elem_of_fmap. split.
      * intros [[?|(d & -> & Hd)]|(p' & S' & d & Hin & ? & ->)].
        -- by left.
        -- right. exists p, S, d. split; [by left|]. by rewrite <-elem_of_elements.
        -- right. exists p', S', d. split; [by right|done].
      * intros [?|(p' & S' & d & Hin & Hd & ->)]; [by left; left|].
        apply elem_of_cons in Hin as [[= -> ->]|Hin].
        -- left. right. exists d. split; [done|]. by apply elem_of_elements.
        -- right. by exists p', S', d.
    + intros x. rewrite HN, !elem_of_union, elem_of_list_to_set, list_elem_of_fmap,
        elem_of_singleton. split.
      * intros [[(d & -> & Hd)|[->|?]]|(p' & S' & Hin & Hx)].
        -- right. exists p, S. split; [by left|]. right. exists d.
           by rewrite <-elem_of_elements.
        -- right. exists p, S. split; [by left|by left].
        -- by left.
        -- right. exists p', S'. split; [by right|done].
      * intros [?|(p' & S' & Hin & Hx)]; [by left; right; right|].
        apply elem_of_cons in Hin as [[= -> ->]|Hin].
        -- left. destruct Hx as [->|(d & Hd & ->)]; [by right; left|].
           left. exists d. split; [done|]. by apply elem_of_elements.
        -- right. by exists p', S'.
Qed.

Lemma collect_rels D st :
  st ∈ (collect D).2 ↔
  ∃ p S d, D !! p = Some S ∧ d ∈ S ∧ st = (short_name d, short_name p).
Proof.
  unfold collect. rewrite (proj1 (collect_go (map_to_list D) ∅ [])).
  split.
  - intros [Hin|(p & S & d & Hin & ? & ?)]; [by apply elem_of_nil in Hin|].
    exists p, S, d. by rewrite <-elem_of_map_to_list.
  - intros (p & S & d & ? & ? & ?). right. exists p, S, d.
    by rewrite elem_of_map_to_list.
Qed.

Lemma collect_nodes D x :
  x ∈ (collect D).1 ↔ ∃ A, A ∈ all_nodes D ∧ x = short_name A.
Proof.
  unfold collect. rewrite (proj2 (collect_go (map_to_list D) ∅ [])).
  unfold all_nodes. split.
  - intros [Hin|(p & S & Hin & Hx)]; [set_solver|].
    apply elem_of_map_to_list in Hin. destruct Hx as [->|(d & Hd & ->)].
    + exists p. split; [|done]. apply elem_of_union_l, elem_of_dom. eauto.
    + exists d. split; [|done]. apply elem_of_union_r, elem_of_union_list.
      exists S. split; [|done]. apply list_elem_of_fmap. exists (p, S).
      split; [done|]. by apply elem_of_map_to_list.
  - intros (A & HA & ->). right. apply elem_of_union in HA as [HA|HA].
    + apply elem_of_dom in HA as [S HS]. exists A, S.
      split; [by apply elem_of_map_to_list|by left].
    + apply elem_of_union_list in HA as (S & HS & HA).
      apply list_elem_of_fmap in HS as ([p S'] & -> & Hin). exists p, S'.
      split; [done|]. right. by exists A.
Qed.

Lemma rev_deps_build (rels : list (string * string))
    (rg0 : gmap string (list string)) t s :
  s ∈ rev_deps (foldl (λ rg st, <[st.2 := default [] (rg !! st.2) ++ [st.1]]> rg)
                 rg0 rels) t ↔
  s ∈ rev_deps rg0 t ∨ (s, t) ∈ rels.
Proof.
  revert rg0. induction rels as [|[s' t'] rels IH]; intros rg0; simpl.
  - split; [by left|]. intros [?|Hin]; [done|by apply elem_of_nil in Hin].
  - rewrite IH. unfold rev_deps. destruct (decide (t = t')) as [->|Hne].
    + rewrite lookup_insert_eq. simpl. rewrite elem_of_app, list_elem_of_singleton,
        elem_of_cons. naive_solver.
    + rewrite lookup_insert_ne by done. rewrite elem_of_cons. naive_solver.
Qed.

Lemma short_depends_spec D t s :
  short_depends D t s ↔
  ∃ p S d, D !! p = Some S ∧ d ∈ S ∧ s = short_name d ∧ t = short_name p.
Proof.
  unfold short_depends. destruct (collect D) as [nodes rels] eqn:Hc.
  unfold build_rev_graph. rewrite rev_deps_build.
  assert (Hr : ∀ st, st ∈ rels ↔ st ∈ (collect D).2) by (rewrite Hc; done).
  rewrite Hr, collect_rels. unfold rev_deps. rewrite lookup_gset_to_gmap.
  split.
  - intros [Hin|(p & S & d & ? & ? & [= -> ->])].
    + destruct (decide (t ∈ nodes)); simpl in Hin;
        [rewrite option_guard_True in Hin by done|rewrite option_guard_False in Hin by done];
        by apply elem_of_nil in Hin.
    + by exists p, S, d.
  - intros (p & S & d & ? & ? & -> & ->). right. by exists p, S, d.
Qed.

Lemma short_depends_nodes D t s :
  short_depends D t s → s ∈ (collect D).1 ∧ t ∈ (collect D).1.
Proof.
  intros (p & S & d & HS & Hd & -> & ->)%short_depends_spec.
  rewrite !collect_nodes. destruct (depends_all_nodes D p d) as [Hp Hd'];
    [by exists S|]. split; eauto.
Qed.

(** *** Walks and cycles in a finite set *)

Lemma walk_tc E x l y : is_walk E x l → y ∈ l → tc E x y.
Proof.
  revert x. induction l as [|z l IH]; intros x Hw Hy; [by apply elem_of_nil in Hy|].
  destruct Hw as [Hxz Hw]. apply elem_of_cons in Hy as [->|Hy].
  - by apply tc_once.
  - eapply tc_l; [done|by apply IH].
Qed.

Lemma walk_dup E x l : is_walk E x l → ¬ NoDup (x :: l) → ∃ z, tc E z z.
Proof.
  revert x. induction l as [|y l IH]; intros x Hw Hnd.
  - destruct Hnd. apply NoDup_singleton.
  - destruct (decide (x ∈ y :: l)) as [Hx|Hx].
    + exists x. by apply (walk_tc E x (y :: l)).
    + destruct Hw as [_ Hw]. apply (IH y Hw). intros Hnd'. apply Hnd.
      by constructor.
Qed.

Lemma walk_exists (U : gset string) (E : relation string) :
  (∀ u, u ∈ U → ∃ u', u' ∈ U ∧ E u u') →
  ∀ k u, u ∈ U → ∃ l, length l = k ∧ is_walk E u l ∧ ∀ z, z ∈ l → z ∈ U.
Proof.
  intros Hsucc k. induction k as [|k IH]; intros u Hu.
  - exists []. split_and!; [done|done|]. intros z Hz. by apply elem_of_nil in Hz.
  - destruct (Hsucc u Hu) as (u' & Hu' & Huu').
    destruct (IH u' Hu') as (l & Hlen & Hw & Hin).
    exists (u' :: l). split_and!; simpl; [by rewrite Hlen|done|].
    intros z [->|Hz]%elem_of_cons; [done|by apply Hin].
Qed.

(** A finite set in which every node has a successor contains a cycle. *)
Lemma finite_cycle (U : gset string) (E : relation string) u :
  (∀ u, u ∈ U → ∃ u', u' ∈ U ∧ E u u') → u ∈ U → ∃ z, tc E z z.
Proof.
  intros Hsucc Hu.
  destruct (walk_exists U E Hsucc (size U) u Hu) as (l & Hlen & Hw & Hin).
  apply (walk_dup E u l Hw). intros Hnd.
  pose proof (size_list_to_set (C:=gset string) (u :: l) Hnd) as Hsz.
  assert (Hle : size (list_to_set (C:=gset string) (u :: l)) ≤ size U).
  { apply subseteq_size. intros z. rewrite elem_of_list_to_set, elem_of_cons.
    intros [->|Hz]; [done|by apply Hin]. }
  rewrite Hsz in Hle. simpl in Hle. lia.
Qed.

(** *** The level maps *)

Section LevelInv.
Variable rg : gmap string (list string).
Variable ns : list string.

Lemma level_inv_insert lv n v :
  level_inv rg ns lv → n ∈ ns → (v = 0 ↔ rev_deps rg n = []) →
  (∀ d, d ∈ rev_deps rg n → ∃ w, lv !! d = Some w ∧ w < v) →
  (∀ w, lv !! n = Some w → w = v) →
  level_inv rg ns (<[n := v]> lv).
Proof.
  intros Hinv Hn Hv Hdeps Hold x vx Hx.
  destruct (decide (x = n)) as [->|Hne].
  - rewrite lookup_insert_eq in Hx. injection Hx as <-.
    split_and!; [done|done|]. intros d Hd.
    destruct (Hdeps d Hd) as (w & Hw & Hlt). exists w. split; [|done].
    destruct (decide (d = n)) as [->|Hdn].
    + rewrite (Hold w Hw) in Hlt. lia.
    + by rewrite lookup_insert_ne.
  - rewrite lookup_insert_ne in Hx by done.
    destruct (Hinv x vx Hx) as (? & ? & Hdeps'). split_and!; [done|done|].
    intros d Hd. destruct (Hdeps' d Hd) as (w & Hw & Hlt).
    destruct (decide (d = n)) as [->|Hdn].
    + exists v. rewrite lookup_insert_eq. rewrite (Hold w Hw) in Hlt. done.
    + exists w. by rewrite lookup_insert_ne.
Qed.

Lemma py_max_ge (lv : gmap string nat) ds d w :
  d ∈ ds → lv !! d = Some w → w ≤ py_max ((λ dep, default 0 (lv !! dep)) <$> ds).
Proof.
  induction ds as [|e ds IH]; intros Hd Hw; [by apply elem_of_nil in Hd|].
  simpl. apply elem_of_cons in Hd as [->|Hd].
  - rewrite Hw. simpl. apply Nat.le_max_l.
  - specialize (IH Hd Hw). etransitivity; [exact IH|apply Nat.le_max_r].
Qed.

Lemma init_levels_inv : level_inv rg ns (init_levels rg ns).
Proof.
  unfold init_levels.
  assert (Hgen : ∀ l lv, (∀ n, n ∈ l → n ∈ ns) → level_inv rg ns lv →
    level_inv rg ns (foldl (λ lv node,
      if decide (rev_deps rg node = []) then <[node := 0]> lv else lv) lv l)).
  { induction l as [|n l IH]; intros lv Hl Hinv; simpl; [done|].
    apply IH; [intros; apply Hl; by right|].
    destruct (decide (rev_deps rg n = [])) as [Hn|Hn]; [|done].
    apply level_inv_insert; [done|apply Hl; by left|done| |].
    - rewrite Hn. intros d Hd. by apply elem_of_nil in Hd.
    - intros w Hw. destruct (Hinv n w Hw) as (_ & Hw0 & _). by apply Hw0. }
  apply Hgen; [done|]. intros x v Hx. by rewrite lookup_empty in Hx.
Qed.

Lemma pass_step_spec lv c n :
  n ∈ ns → level_inv rg ns lv →
  let r := pass_step rg (lv, c) n in
  level_inv rg ns r.1 ∧ lv ⊆ r.1 ∧
  ((r.1 = lv ∧ r.2 = c ∧
     (lv !! n = None → rev_deps rg n ≠ [] ∧ ∃ d, d ∈ rev_deps rg n ∧ lv !! d = None)) ∨
   (lv !! n = None ∧ is_Some (r.1 !! n) ∧ r.2 = true)).
Proof.
  intros Hn Hinv. unfold pass_step.
  destruct (decide (is_Some (lv !! n))) as [Hs|Hs].
  { simpl. split_and!; [done|done|]. left. split_and!; [done|done|].
    intros Hnone. rewrite Hnone in Hs. by destruct Hs. }
  apply eq_None_not_Some in Hs.
  destruct (rev_deps rg n) as [|d0 ds] eqn:Hrev.
  - simpl. split_and!.
    + apply level_inv_insert; [done|done|by rewrite Hrev| |].
      * rewrite Hrev. intros d Hd. by apply elem_of_nil in Hd.
      * rewrite Hs. done.
    + by apply insert_subseteq.
    + right. split_and!; [done| |done]. rewrite lookup_insert_eq. by eexists.
  - destruct (forallb _ _) eqn:Hall; simpl.
    + split_and!.
      * apply level_inv_insert; [done|done|by rewrite Hrev| |].
        -- rewrite Hrev. intros d Hd.
           assert (Hsd : is_Some (lv !! d)).
           { apply forallb_forall with (x := d) in Hall.
             - by apply bool_decide_eq_true in Hall.
             - by apply list_elem_of_In. }
           destruct Hsd as [w Hw]. exists w. split; [done|].
           pose proof (py_max_ge lv (d0 :: ds) d w Hd Hw). simpl in *. lia.
        -- rewrite Hs. done.
      * by apply insert_subseteq.
      * right. split_and!; [done| |done]. rewrite lookup_insert_eq. by eexists.
    + split_and!; [done|done|]. left. split_and!; [done|done|]. intros _.
      split; [done|].
      apply not_true_iff_false in Hall. rewrite forallb_forall in Hall.
      assert (Hex : Exists (λ d, lv !! d = None) (d0 :: ds)).
      { destruct (decide (Exists (λ d, lv !! d = None) (d0 :: ds))) as [?|Hno];
          [done|].
        destruct Hall. intros d Hd%list_elem_of_In. apply bool_decide_eq_true.
        destruct (lv !! d) eqn:Hd'; [by eexists|]. destruct Hno.
        apply Exists_exists. by exists d. }
      apply Exists_exists in Hex as (d & Hd & Hnone). by exists d.
Qed.

Lemma pass_fold l lv c :
  (∀ n, n ∈ l → n ∈ ns) → level_inv rg ns lv →
  let r := foldl (pass_step rg) (lv, c) l in
  level_inv rg ns r.1 ∧ lv ⊆ r.1 ∧
  (r.2 = false → c = false ∧ r.1 = lv ∧
     ∀ n, n ∈ l → lv !! n = None →
       rev_deps rg n ≠ [] ∧ ∃ d, d ∈ rev_deps rg n ∧ lv !! d = None) ∧
  (r.2 = true → c = true ∨ ∃ n, lv !! n = None ∧ is_Some (r.1 !! n)).
Proof.
  revert lv c. induction l as [|n l IH]; intros lv c Hl Hinv; cbn [foldl].
  { simpl. split_and!; [done|done| |by left]. intros ->. split_and!; [done|done|].
    intros n Hn. by apply elem_of_nil in Hn. }
  pose proof (pass_step_spec lv c n (Hl n ltac:(by left)) Hinv) as Hstep.
  destruct (pass_step rg (lv, c) n) as [lv1 c1] eqn:Hps. simpl in Hstep.
  destruct Hstep as (Hinv1 & Hsub1 & Hcase).
  destruct (IH lv1 c1) as (Hinv' & Hsub' & Hfalse & Htrue);
    [intros m Hm; apply Hl; by right|done|].
  destruct (foldl (pass_step rg) (lv1, c1) l) as [lvf cf]. simpl in *.
  split_and!; [done|by transitivity lv1| |].
  - intros ->. destruct (Hfalse eq_refl) as (Hc1 & Hlvf & Hrest). subst c1 lvf.
    destruct Hcase as [(Hlv & Hc & Hn)|(_ & _ & ?)]; [|done]. subst lv1 c.
    split_and!; [done|done|]. intros m [->|Hm]%elem_of_cons Hnone; [by apply Hn|].
    by apply Hrest.
  - intros ->. destruct (Htrue eq_refl) as [->|(m & Hm & Hsm)].
    + destruct Hcase as [(-> & -> & _)|(Hn & Hsn & _)]; [by left|].
      right. exists n. split; [done|]. destruct Hsn as [v Hv].
      exists v. by eapply lookup_weaken.
    + right. exists m. split; [|done].
      destruct (lv !! m) as [v|] eqn:Hv; [|done].
      by rewrite (lookup_weaken lv lv1 m v Hv Hsub1) in Hm.
Qed.

(** The [while] loop: with enough passes it stops at a map that one more
    pass leaves unchanged. *)
Lemma loop_spec (N : gset string) :
  (∀ x, x ∈ ns ↔ x ∈ N) →
  ∀ f lv, level_inv rg ns lv → size N - size (dom lv) < f →
  ∃ lvf, fixpoint_loop rg ns f lv = Some lvf ∧ level_inv rg ns lvf ∧
    lv ⊆ lvf ∧ level_pass rg ns lvf = (lvf, false).
Proof.
  intros HN f. induction f as [|f IH]; intros lv Hinv Hf; [lia|]. simpl.
  pose proof (pass_fold ns lv false (λ n Hn, Hn) Hinv) as Hp.
  unfold level_pass. destruct (foldl (pass_step rg) (lv, false) ns) as [lv' ch] eqn:Hfold.
  simpl in Hp. destruct Hp as (Hinv' & Hsub & Hfalse & Htrue).
  destruct ch.
  - destruct (Htrue eq_refl) as [?|(n & Hn & Hsn)]; [done|].
    assert (Hlt : size (dom lv) < size (dom lv')).
    { apply subset_size. split.
      - intros x. rewrite !elem_of_dom. intros [v Hv]. exists v.
        by eapply lookup_weaken.
      - intros Hsub'. apply elem_of_dom, Hsub', elem_of_dom in Hsn.
        rewrite Hn in Hsn. by destruct Hsn. }
    assert (Hle : size (dom lv') ≤ size N).
    { apply subseteq_size. intros x [v Hv]%elem_of_dom.
      apply HN. by destruct (Hinv' x v Hv). }
    destruct (IH lv' Hinv') as (lvf & Hloop & Hinvf & Hsubf & Hfix); [lia|].
    exists lvf. split_and!; [done|done|by transitivity lv'|done].
  - destruct (Hfalse eq_refl) as (_ & -> & _).
    exists lv. split_and!; [done|done|done|]. by rewrite Hfold.
Qed.

(** At the stopping map, an unassigned node has an unassigned dependency. *)
Lemma loop_fixpoint lv :
  level_inv rg ns lv → level_pass rg ns lv = (lv, false) →
  ∀ n, n ∈ ns → lv !! n = None → ∃ d, d ∈ rev_deps rg n ∧ lv !! d = None.
Proof.
  intros Hinv Hfix n Hn Hnone.
  pose proof (pass_fold ns lv false (λ n Hn, Hn) Hinv) as (_ & _ & Hfalse & _).
  unfold level_pass in Hfix. rewrite Hfix in Hfalse. simpl in Hfalse.
  destruct (Hfalse eq_refl) as (_ & _ & Hrest).
  by destruct (Hrest n Hn Hnone) as (_ & Hd).
Qed.

(** Levels strictly decrease along dependency chains. *)
Lemma level_descent lv x y v :
  level_inv rg ns lv → tc (λ t s, s ∈ rev_deps rg t) x y → lv !! x = Some v →
  ∃ w, lv !! y = Some w ∧ w < v.
Proof.
  intros Hinv Htc. revert v. induction Htc as [x y Hxy|x y z Hxy Hyz IH]; intros v Hx.
  - destruct (Hinv x v Hx) as (_ & _ & Hd). by apply Hd.
  - destruct (Hinv x v Hx) as (_ & _ & Hd). destruct (Hd y Hxy) as (w & Hw & Hlt).
    destruct (IH w Hw) as (u & Hu & Hlt'). exists u. split; [done|lia].
Qed.

End LevelInv.

Lemma fill_default_lookup ns lv y v :
  fill_default ns lv !! y = Some v ↔
  lv !! y = Some v ∨ (lv !! y = None ∧ y ∈ ns ∧ v = 0).
Proof.
  unfold fill_default. revert lv. induction ns as [|n ns IH]; intros lv; simpl.
  { split; [by left|]. intros [?|(_ & Hy & _)]; [done|by apply elem_of_nil in Hy]. }
  rewrite IH. destruct (decide (is_Some (lv !! n))) as [Hs|Hs].
  - rewrite elem_of_cons. split; [naive_solver|].
    intros [?|(Hy & [->|?] & ->)]; [by left| |by right].
    rewrite Hy in Hs. by destruct Hs.
  - apply eq_None_not_Some in Hs. rewrite elem_of_cons.
    destruct (decide (y = n)) as [->|Hne].
    + rewrite lookup_insert_eq, Hs. naive_solver.
    + rewrite lookup_insert_ne by done. naive_solver.
Qed.

(** *** From the relation to the short-name graph and back *)

Lemma tc_mono (R R' : relation string) x y :
  (∀ a b, R a b → R' a b) → tc R x y → tc R' x y.
Proof.
  intros HR Htc. induction Htc as [a b Hab|a b c Hab _ IH].
  - apply tc_once. by apply HR.
  - eapply tc_l; [by apply HR|done].
Qed.

Lemma short_depends_rg D nodes rels t s :
  collect D = (nodes, rels) →
  short_depends D t s ↔ s ∈ rev_deps (build_rev_graph nodes rels) t.
Proof. intros Hc. unfold short_depends. by rewrite Hc. Qed.

Lemma depends_short D p d :
  depends D p d → short_depends D (short_name p) (short_name d).
Proof.
  intros (S & HS & Hd). apply short_depends_spec. by exists p, S, d.
Qed.

Lemma tc_depends_short D x y :
  tc (depends D) x y → tc (short_depends D) (short_name x) (short_name y).
Proof.
  intros Htc. induction Htc as [a b Hab|a b c Hab _ IH].
  - apply tc_once. by apply depends_short.
  - eapply tc_l; [by apply depends_short|done].
Qed.

Lemma tc_depends_all_nodes D x y : tc (depends D) x y → y ∈ all_nodes D.
Proof.
  intros Htc. induction Htc as [a b Hab|a b c Hab _ IH]; [|done].
  by destruct (depends_all_nodes D a b Hab).
Qed.

Section Injective.
Variable D : gmap string (gset string).
(** Distinct relations of [D] have distinct short names. *)
Hypothesis Hinj : ∀ A B, A ∈ all_nodes D → B ∈ all_nodes D →
  short_name A = short_name B → A = B.

Lemma short_depends_lift t s p :
  short_depends D t s → p ∈ all_nodes D → short_name p = t →
  ∃ d, depends D p d ∧ short_name d = s.
Proof.
  intros (p' & S & d & HS & Hd & -> & ->)%short_depends_spec Hp Hpp.
  assert (p' = p) as ->.
  { apply Hinj; [|done|done]. destruct (depends_all_nodes D p' d); [|done].
    by exists S. }
  exists d. split; [by exists S|done].
Qed.

Lemma tc_short_lift t s :
  tc (short_depends D) t s → ∀ p, p ∈ all_nodes D → short_name p = t →
  ∃ d, tc (depends D) p d ∧ short_name d = s.
Proof.
  intros Htc. induction Htc as [a b Hab|a b c Hab _ IH]; intros p Hp Hpa.
  - destruct (short_depends_lift a b p Hab Hp Hpa) as (d & Hd & Hdb).
    exists d. split; [by apply tc_once|done].
  - destruct (short_depends_lift a b p Hab Hp Hpa) as (d1 & Hd1 & Hd1b).
    destruct (IH d1) as (d & Hd & Hdc); [by destruct (depends_all_nodes D p d1)|done|].
    exists d. split; [by eapply tc_l|done].
Qed.

Lemma short_acyclic : acyclic D → ∀ t, ¬ tc (short_depends D) t t.
Proof.
  intros Hac t Htc.
  assert (Ht : t ∈ (collect D).1).
  { assert (Hb : ∃ b, short_depends D t b) by (inversion Htc; eauto).
    destruct Hb as [b Hb]. by destruct (short_depends_nodes D t b Hb). }
  apply collect_nodes in Ht as (p & Hp & ->).
  destruct (tc_short_lift _ _ Htc p Hp eq_refl) as (d & Hpd & Hd).
  assert (d = p) as ->.
  { apply Hinj; [|done|done]. by eapply tc_depends_all_nodes. }
  by apply (Hac p).
Qed.

Lemma no_depends_rev nodes rels A :
  collect D = (nodes, rels) → A ∈ all_nodes D →
  (rev_deps (build_rev_graph nodes rels) (short_name A) = [] ↔ ¬ ∃ B, depends D A B).
Proof.
  intros Hc HA. split.
  - intros Hnil (B & HB). apply depends_short, (short_depends_rg D nodes rels) in HB;
      [|done]. rewrite Hnil in HB. by apply elem_of_nil in HB.
  - intros Hno. destruct (rev_deps _ _) as [|s ss] eqn:Hr; [done|]. exfalso.
    assert (Hs : short_depends D (short_name A) s).
    { apply (short_depends_rg D nodes rels); [done|]. rewrite Hr. by left. }
    destruct (short_depends_lift _ _ A Hs HA eq_refl) as (B & HB & _).
    apply Hno. by exists B.
Qed.
End Injective.

(** *** The loop on the relation's graph *)

Section Loop.
Variable iter : gset string → list string.
Hypothesis Hiter : ∀ (X : gset string) x, x ∈ iter X ↔ x ∈ X.

Lemma loop_levels_spec D nodes rels :
  collect D = (nodes, rels) →
  ∃ lvf, loop_levels iter D = Some lvf ∧
    level_inv (build_rev_graph nodes rels) (iter nodes) lvf ∧
    level_pass (build_rev_graph nodes rels) (iter nodes) lvf = (lvf, false).
Proof.
  intros Hc. unfold loop_levels. rewrite Hc.
  destruct (loop_spec (build_rev_graph nodes rels) (iter nodes) nodes
    (Hiter nodes) (S (size nodes)) (init_levels (build_rev_graph nodes rels) (iter nodes))
    (init_levels_inv _ _)) as (lvf & Hl & Hinv & _ & Hfix); [lia|].
  by exists lvf.
Qed.

(** Without a cycle in the short-name graph the loop assigns every node. *)
Lemma loop_assigns_all D nodes rels lvf :
  collect D = (nodes, rels) → (∀ t, ¬ tc (short_depends D) t t) →
  level_inv (build_rev_graph nodes rels) (iter nodes) lvf →
  level_pass (build_rev_graph nodes rels) (iter nodes) lvf = (lvf, false) →
  ∀ n, n ∈ nodes → is_Some (lvf !! n).
Proof.
  intros Hc Hac Hinv Hfix n Hn.
  destruct (lvf !! n) as [v|] eqn:Hv; [by eexists|exfalso].
  set (U := filter (λ m, lvf !! m = None) nodes).
  assert (Hsucc : ∀ u, u ∈ U → ∃ u', u' ∈ U ∧ short_depends D u u').
  { intros u (Hu & Hun)%elem_of_filter.
    destruct (loop_fixpoint _ _ lvf Hinv Hfix u) as (d & Hd & Hdn);
      [by apply Hiter|done|].
    assert (Hsd : short_depends D u d) by (by apply (short_depends_rg D nodes rels)).
    exists d. split; [|done]. apply elem_of_filter. split; [done|].
    destruct (short_depends_nodes D u d Hsd) as [Hdn' _]. by rewrite Hc in Hdn'. }
  destruct (finite_cycle U (short_depends D) n Hsucc) as (z & Hz).
  - by apply elem_of_filter.
  - by apply (Hac z).
Qed.

(** A node on a cycle is never assigned by the loop. *)
Lemma loop_cycle_unassigned D nodes rels lvf x :
  collect D = (nodes, rels) →
  level_inv (build_rev_graph nodes rels) (iter nodes) lvf →
  tc (depends D) x x → lvf !! short_name x = None.
Proof.
  intros Hc Hinv Hx. apply tc_depends_short in Hx.
  destruct (lvf !! short_name x) as [v|] eqn:Hv; [exfalso|done].
  destruct (level_descent _ _ lvf _ _ v Hinv
    (tc_mono _ _ _ _ (λ a b Hab, proj1 (short_depends_rg D nodes rels a b Hc) Hab) Hx) Hv)
    as (w & Hw & Hlt).
  rewrite Hv in Hw. injection Hw as ->. lia.
Qed.
End Loop.

End LevelsFacts.

(* ------------------------------------------------------------------------ *)
(** ** Claims on [topological_sort] *)

Module AnalyzerClaims.
Import PyStr Analyzer AnalyzerExamples AnalyzerFacts.

Lemma d_chain_acyclic : acyclic d_chain.
Proof.
  assert (Hstep : ∀ x y, depends d_chain x y → x = "grandparentOf" ∧ y = "parentOf").
  { intros x y (S & HS & Hy). unfold d_chain in HS.
    rewrite lookup_singleton_Some in HS. destruct HS as [<- <-].
    split; [done|]. by apply elem_of_singleton in Hy. }
  intros x Hx. inversion Hx as [x' y' Hxy|x' y' z' Hxy Hyz]; subst.
  - destruct (Hstep x x Hxy) as [-> ?]. done.
  - destruct (Hstep x y' Hxy) as [-> ->].
    inversion Hyz as [? ? Hz|? ? ? Hz]; subst;
      destruct (Hstep _ _ Hz) as [? _]; done.
Qed.

(** C2: on an acyclic relation (and with no node left in progress, as after
    [__init__]), [topological_sort] returns a list whose length is the number
    of distinct nodes, in which every dependency of a node precedes it. *)
Theorem topological_sort_acyclic (iter : gset string → list string)
    (Hiter : ∀ X x, x ∈ iter X ↔ x ∈ X)
    (a : analyzer) (Hclean : temp_marked a = ∅)
    (Hacyc : acyclic (dependencies a)) :
  ∃ a', topological_sort iter a = Ok a' ∧
    length (sorted_relations a') = size (all_nodes (dependencies a)) ∧
    ∀ A B i j, depends (dependencies a) A B →
      sorted_relations a' !! j = Some A → sorted_relations a' !! i = Some B →
      i < j.
Proof.
  destruct (topological_sort iter a) as [a'|a'|] eqn:Hrun.
  - exists a'. split; [done|].
    destruct (topological_sort_ok iter Hiter a a' Hrun)
      as ((_ & Hnd & Hsv & _ & Hsub & Hord) & _ & Hall).
    split.
    + rewrite <-(size_list_to_set (C:=gset string) _ Hnd). f_equal.
      apply set_eq. intros x. rewrite elem_of_list_to_set, Hsv.
      split; [apply Hsub|apply Hall].
    + intros A B i j HAB Hj Hi.
      destruct (Hord j A B Hj HAB) as (j' & Hj' & HB).
      by rewrite (NoDup_lookup _ i j' B Hnd Hi HB).
  - destruct (topological_sort_cycle iter Hiter a a' Hclean Hrun) as [x Hx].
    by destruct (Hacyc x).
  - by destruct (topological_sort_not_oof iter Hiter a).
Qed.

Lemma topological_sort_acyclic_witness :
  ∃ a', topological_sort elements (fresh d_chain) = Ok a' ∧
    length (sorted_relations a') = size (all_nodes d_chain) ∧
    ∀ A B i j, depends d_chain A B →
      sorted_relations a' !! j = Some A → sorted_relations a' !! i = Some B →
      i < j.
Proof.
  apply (topological_sort_acyclic elements (λ X x, elem_of_elements X x)
           (fresh d_chain) eq_refl d_chain_acyclic).
Defined.

(** C4: on a relation with a cycle, [topological_sort] raises the cycle
    error: it returns no order, whatever state the analyser is in. *)
Theorem topological_sort_cyclic (iter : gset string → list string)
    (Hiter : ∀ X x, x ∈ iter X ↔ x ∈ X)
    (a : analyzer) (Hcyc : ∃ x, tc (depends (dependencies a)) x x) :
  ∃ a', topological_sort iter a = CycleError a'.
Proof.
  destruct (topological_sort iter a) as [a'|a'|] eqn:Hrun.
  - exfalso. destruct Hcyc as [x Hx].
    destruct (topological_sort_ok iter Hiter a a' Hrun)
      as ((_ & Hnd & Hsv & _ & _ & Hord) & _ & Hall).
    assert (Hxn : x ∈ all_nodes (dependencies a)).
    { inversion Hx as [? ? H|? ? ? H _]; subst;
        exact (proj1 (depends_all_nodes _ _ _ H)). }
    assert (Hin : ∀ z, z ∈ all_nodes (dependencies a) → z ∈ sorted_relations a').
    { intros z Hz. apply Hsv, Hall, Hz. }
    destruct (list_elem_of_lookup_1 _ _ (Hin x Hxn)) as [i Hi].
    destruct (topo_ordered_tc _ _ x x i Hord Hin Hx Hi) as (j & Hj & Hjx).
    pose proof (NoDup_lookup _ i j x Hnd Hi Hjx). lia.
  - by exists a'.
  - by destruct (topological_sort_not_oof iter Hiter a).
Qed.

Lemma topological_sort_cyclic_witness :
  ∃ a', topological_sort elements (fresh d_cycle) = CycleError a'.
Proof.
  apply (topological_sort_cyclic elements (λ X x, elem_of_elements X x)).
  exists "X". eapply tc_l; [|apply tc_once].
  - exists {["Y"]}. split; [reflexivity|apply elem_of_singleton; reflexivity].
  - exists {["X"]}. split; [reflexivity|apply elem_of_singleton; reflexivity].
Defined.

(** C5 (the traversal state is not fully reset): after a run on [X <-> Y]
    aborted with the cycle error, [temp_marked] still holds [X] and [Y];
    once the dependencies are re-extracted as the acyclic [X -> Y], the next
    call raises the cycle error again, while a fresh analyser returns
    [[Y; X]]. *)
Theorem topological_sort_stale_temp_marked :
  raised_cycle (topological_sort elements (fresh d_cycle)) = true ∧
  option_map raised_cycle (rerun_after_abort elements d_cycle d_fixed) = Some true ∧
  sort_output (topological_sort elements (fresh d_fixed)) = Some ["Y"; "X"].
Proof. vm_compute. split_and!; reflexivity. Qed.

(** C6 (the output depends on the iteration order of the node set): two
    enumerations of the same node set, as two interpreter runs with
    different string hashes produce, give two different outputs on
    [{a: {x}, b: {x}}]. *)
Theorem topological_sort_iteration_order :
  (∀ X x, x ∈ reverse (elements X) ↔ x ∈ (X : gset string)) ∧
  sort_output (topological_sort elements (fresh d_two)) = Some ["x"; "a"; "b"] ∧
  sort_output (topological_sort (λ X, reverse (elements X)) (fresh d_two))
    = Some ["x"; "b"; "a"].
Proof.
  split.
  - intros X x. by rewrite elem_of_reverse, elem_of_elements.
  - vm_compute. split; reflexivity.
Qed.

End AnalyzerClaims.

(* ------------------------------------------------------------------------- *)
(** ** Claims on [_calculate_dependency_levels] *)

Module LevelsClaims.
Import PyStr Analyzer Levels AnalyzerExamples AnalyzerFacts LevelsFacts.

Lemma d_collide_acyclic : acyclic d_collide.
Proof.
  assert (Hstep : ∀ x y, depends d_collide x y →
    x = "http://example.org/family#knows" ∧ y = "http://xmlns.com/foaf/0.1/knows").
  { intros x y (S & HS & Hy). unfold d_collide in HS.
    rewrite lookup_singleton_Some in HS. destruct HS as [<- <-].
    split; [done|]. by apply elem_of_singleton in Hy. }
  intros x Hx. inversion Hx as [x' y' Hxy|x' y' z' Hxy Hyz]; subst.
  - destruct (Hstep x x Hxy) as [-> ?]. done.
  - destruct (Hstep x y' Hxy) as [-> ->].
    inversion Hyz as [? ? Hz|? ? ? Hz]; subst;
      destruct (Hstep _ _ Hz) as [? _]; done.
Qed.

Lemma d_chain_levels_acyclic : acyclic d_chain.
Proof.
  assert (Hstep : ∀ x y, depends d_chain x y → x = "grandparentOf" ∧ y = "parentOf").
  { intros x y (S & HS & Hy). unfold d_chain in HS.
    rewrite lookup_singleton_Some in HS. destruct HS as [<- <-].
    split; [done|]. by apply elem_of_singleton in Hy. }
  intros x Hx. inversion Hx as [x' y' Hxy|x' y' z' Hxy Hyz]; subst.
  - destruct (Hstep x x Hxy) as [-> ?]. done.
  - destruct (Hstep x y' Hxy) as [-> ->].
    inversion Hyz as [? ? Hz|? ? ? Hz]; subst;
      destruct (Hstep _ _ Hz) as [? _]; done.
Qed.

Lemma d_chain_short_injective : ∀ A B, A ∈ all_nodes d_chain → B ∈ all_nodes d_chain →
  short_name A = short_name B → A = B.
Proof.
  assert (Hn : ∀ A, A ∈ all_nodes d_chain → A = "grandparentOf" ∨ A = "parentOf").
  { intros A. unfold all_nodes, d_chain. rewrite map_to_list_singleton, dom_singleton_L.
    simpl. set_solver. }
  intros A B [->| ->]%Hn [->| ->]%Hn Hs; vm_compute in Hs; congruence.
Qed.

(** C3 (counterexample): [family#knows] depends on [foaf:knows], an acyclic
    relation; both have the short name [knows], which gets level 0, so a
    relation with a dependency is at level 0 and the edge does not increase
    the level. *)
Lemma levels_short_name_collision :
  acyclic d_collide ∧
  depends d_collide "http://example.org/family#knows" "http://xmlns.com/foaf/0.1/knows" ∧
  ∃ nodes rels levels m,
    calculate_dependency_levels elements d_collide = Some (nodes, rels, levels, m) ∧
    levels !! short_name "http://example.org/family#knows" = Some 0 ∧
    levels !! short_name "http://xmlns.com/foaf/0.1/knows" = Some 0.
Proof.
  split_and!.
  - apply d_collide_acyclic.
  - exists {["http://xmlns.com/foaf/0.1/knows"]}.
    split; [reflexivity|apply elem_of_singleton; reflexivity].
  - do 4 eexists. split_and!; [vm_compute; reflexivity|vm_compute; reflexivity|].
    vm_compute. reflexivity.
Qed.

(** C3 (amended): for an acyclic relation whose identifiers have pairwise
    distinct short names, every identifier gets a level, the level is 0
    exactly for the identifiers without dependencies, and along every edge
    [A] depends on [B] the level of [B] is strictly smaller than that of [A].
    Levels are looked up by short name, as the code keys them. *)
Theorem levels_acyclic (iter : gset string → list string)
    (Hiter : ∀ X x, x ∈ iter X ↔ x ∈ X)
    (D : gmap string (gset string)) (Hac : acyclic D)
    (Hinj : ∀ A B, A ∈ all_nodes D → B ∈ all_nodes D →
       short_name A = short_name B → A = B) :
  ∃ nodes rels levels m,
    calculate_dependency_levels iter D = Some (nodes, rels, levels, m) ∧
    (∀ A, A ∈ all_nodes D → ∃ v, levels !! short_name A = Some v ∧
       (v = 0 ↔ ¬ ∃ B, depends D A B)) ∧
    ∀ A B, depends D A B → ∃ vA vB,
      levels !! short_name A = Some vA ∧ levels !! short_name B = Some vB ∧ vB < vA.
Proof.
  destruct (collect D) as [nodes rels] eqn:Hc.
  destruct (loop_levels_spec iter Hiter D nodes rels Hc) as (lvf & Hl & Hinv & Hfix).
  pose proof (loop_assigns_all iter Hiter D nodes rels lvf Hc
    (short_acyclic D Hinj Hac) Hinv Hfix) as Hall.
  assert (Hlk : ∀ y v, lvf !! y = Some v → fill_default (iter nodes) lvf !! y = Some v).
  { intros y v Hy. apply fill_default_lookup. by left. }
  assert (Hsn : ∀ A, A ∈ all_nodes D → short_name A ∈ nodes).
  { intros A HA. assert (H : short_name A ∈ (collect D).1) by (apply collect_nodes; eauto).
    by rewrite Hc in H. }
  exists nodes, rels, (fill_default (iter nodes) lvf),
    (max_level_of (fill_default (iter nodes) lvf)).
  split_and!.
  - unfold calculate_dependency_levels. by rewrite Hc, Hl.
  - intros A HA. destruct (Hall _ (Hsn A HA)) as [v Hv].
    exists v. split; [by apply Hlk|].
    destruct (Hinv _ _ Hv) as (_ & Hv0 & _). rewrite Hv0.
    by apply (no_depends_rev D Hinj nodes rels A Hc HA).
  - intros A B HAB. destruct (depends_all_nodes D A B HAB) as [HA HB].
    destruct (Hall _ (Hsn A HA)) as [vA HvA].
    destruct (Hinv _ _ HvA) as (_ & _ & Hdeps).
    destruct (Hdeps (short_name B)) as (vB & HvB & Hlt).
    { apply (short_depends_rg D nodes rels); [done|]. by apply depends_short. }
    exists vA, vB. split_and!; [by apply Hlk|by apply Hlk|done].
Qed.

Lemma levels_acyclic_witness :
  ∃ nodes rels levels m,
    calculate_dependency_levels elements d_chain = Some (nodes, rels, levels, m) ∧
    (∀ A, A ∈ all_nodes d_chain → ∃ v, levels !! short_name A = Some v ∧
       (v = 0 ↔ ¬ ∃ B, depends d_chain A B)) ∧
    ∀ A B, depends d_chain A B → ∃ vA vB,
      levels !! short_name A = Some vA ∧ levels !! short_name B = Some vB ∧ vB < vA.
Proof.
  apply (levels_acyclic elements (λ X x, elem_of_elements X x) d_chain
    d_chain_levels_acyclic d_chain_short_injective).
Defined.

Lemma d_cycle_X_cycle : tc (depends d_cycle) "X" "X".
Proof.
  eapply tc_l; [|apply tc_once].
  - exists {["Y"]}. split; [reflexivity|apply elem_of_singleton; reflexivity].
  - exists {["X"]}. split; [reflexivity|apply elem_of_singleton; reflexivity].
Qed.

(** C7 (counterexample): on the cycle [X -> Y -> X] the [while] loop stops
    (after one pass that assigns nothing) and both relations end at the
    default level 0. *)
Lemma levels_cycle_loop_stops :
  tc (depends d_cycle) "X" "X" ∧
  loop_levels elements d_cycle = Some ∅ ∧
  ∃ nodes rels levels m,
    calculate_dependency_levels elements d_cycle = Some (nodes, rels, levels, m) ∧
    levels !! "X" = Some 0 ∧ levels !! "Y" = Some 0.
Proof.
  split_and!.
  - apply d_cycle_X_cycle.
  - vm_compute. reflexivity.
  - do 4 eexists. split_and!; [vm_compute; reflexivity|vm_compute; reflexivity|].
    vm_compute. reflexivity.
Qed.

(** C7 (amended): for a relation with a cycle through [x] the fixed-point
    loop stops (within [len(nodes) + 1] passes, the budget of
    [loop_levels]); it never assigns a level to [x]'s short name, which
    then gets the default level 0. *)
Theorem levels_cycle_terminates (iter : gset string → list string)
    (Hiter : ∀ X x, x ∈ iter X ↔ x ∈ X)
    (D : gmap string (gset string)) (x : string) (Hx : tc (depends D) x x) :
  ∃ lvf, loop_levels iter D = Some lvf ∧ lvf !! short_name x = None ∧
  ∃ nodes rels levels m,
    calculate_dependency_levels iter D = Some (nodes, rels, levels, m) ∧
    levels !! short_name x = Some 0.
Proof.
  destruct (collect D) as [nodes rels] eqn:Hc.
  destruct (loop_levels_spec iter Hiter D nodes rels Hc) as (lvf & Hl & Hinv & _).
  pose proof (loop_cycle_unassigned iter D nodes rels lvf x Hc Hinv Hx) as Hnone.
  assert (Hsn : short_name x ∈ nodes).
  { assert (H : short_name x ∈ (collect D).1).
    { apply collect_nodes. exists x. split; [|done]. by eapply tc_depends_all_nodes. }
    by rewrite Hc in H. }
  exists lvf. split_and!; [done|done|].
  exists nodes, rels, (fill_default (iter nodes) lvf),
    (max_level_of (fill_default (iter nodes) lvf)).
  split.
  - unfold calculate_dependency_levels. by rewrite Hc, Hl.
  - apply fill_default_lookup. right. split_and!; [done|by apply Hiter|done].
Qed.

Lemma levels_cycle_terminates_witness :
  ∃ lvf, loop_levels elements d_cycle = Some lvf ∧ lvf !! short_name "X" = None ∧
  ∃ nodes rels levels m,
    calculate_dependency_levels elements d_cycle = Some (nodes, rels, levels, m) ∧
    levels !! short_name "X" = Some 0.
Proof.
  apply (levels_cycle_terminates elements (λ X x, elem_of_elements X x) d_cycle "X").
  eapply tc_l; [|apply tc_once].
  - exists {["Y"]}. split; [reflexivity|apply elem_of_singleton; reflexivity].
  - exists {["X"]}. split; [reflexivity|apply elem_of_singleton; reflexivity].
Defined.

End LevelsClaims.

(* ------------------------------------------------------------------------- *)
(** ** Lemmas on [repr] and the row key *)

Module ReprFacts.
Import PyStr PyRepr.

Lemma parse_escape q c t :
  q = squote ∨ q = dquote →
  parse_body q (escape_char q c ++ t) = cons_res c (parse_body q t).
Proof.
  intros Hq. destruct c as [[] [] [] [] [] [] [] []];
    destruct Hq as [-> | ->]; reflexivity.
Qed.

Lemma parse_body_escaped q l t :
  q = squote ∨ q = dquote →
  parse_body q (concat (escape_char q <$> l) ++ q :: t) = Some (l, t).
Proof.
  intros Hq. induction l as [|c l IH]; simpl.
  - by rewrite Ascii.eqb_refl.
  - rewrite <- app_assoc, parse_escape by done. exact (f_equal (cons_res c) IH).
Qed.

Lemma repr_quote_cases s : repr_quote s = squote ∨ repr_quote s = dquote.
Proof. unfold repr_quote. destruct (_ && _); auto. Qed.

Lemma parse_repr_app s t : parse_repr (repr s ++ t) = Some (s, t).
Proof.
  unfold repr. simpl. rewrite <- app_assoc. simpl.
  destruct (repr_quote_cases s) as [Hq|Hq].
  - rewrite Hq. simpl. rewrite <- Hq, parse_body_escaped by (by left).
    by rewrite string_of_list_ascii_of_string.
  - rewrite Hq. simpl. rewrite <- Hq, parse_body_escaped by (by right).
    by rewrite string_of_list_ascii_of_string.
Qed.

Lemma repr_prefix s1 s2 t1 t2 :
  repr s1 ++ t1 = repr s2 ++ t2 → s1 = s2 ∧ t1 = t2.
Proof.
  intros H. pose proof (f_equal parse_repr H) as Hp.
  rewrite !parse_repr_app in Hp. by injection Hp as -> ->.
Qed.

Lemma repr_head s : ∃ q l, repr s = q :: l ∧ (q = squote ∨ q = dquote).
Proof. exists (repr_quote s). eexists. split; [reflexivity|apply repr_quote_cases]. Qed.

Lemma repr_val_prefix v1 v2 t1 t2 :
  repr_val v1 ++ t1 = repr_val v2 ++ t2 → v1 = v2 ∧ t1 = t2.
Proof.
  destruct v1 as [s1|[]], v2 as [s2|[]]; cbn [repr_val]; intros H.
  - by destruct (repr_prefix s1 s2 t1 t2 H) as [-> ->].
  - destruct (repr_head s1) as (q & l & Hr & [-> | ->]); rewrite Hr in H;
      discriminate H.
  - destruct (repr_head s1) as (q & l & Hr & [-> | ->]); rewrite Hr in H;
      discriminate H.
  - destruct (repr_head s2) as (q & l & Hr & [-> | ->]); rewrite Hr in H;
      discriminate H.
  - simpl in H. by injection H as ->.
  - discriminate H.
  - destruct (repr_head s2) as (q & l & Hr & [-> | ->]); rewrite Hr in H;
      discriminate H.
  - discriminate H.
  - simpl in H. by injection H as ->.
Qed.

Lemma item_repr_prefix i1 i2 t1 t2 :
  item_repr i1 ++ t1 = item_repr i2 ++ t2 → i1 = i2 ∧ t1 = t2.
Proof.
  destruct i1 as [k1 v1], i2 as [k2 v2]. unfold item_repr. cbn [fst snd].
  rewrite <- !app_comm_cons, <- !app_assoc. intros H.
  apply (f_equal tail) in H. cbn [tail] in H.
  destruct (repr_prefix k1 k2 _ _ H) as [-> H2].
  apply (f_equal (drop 2)) in H2. simpl in H2. rewrite <- !app_assoc in H2.
  destruct (repr_val_prefix v1 v2 _ _ H2) as [-> H3].
  simpl in H3. by injection H3 as ->.
Qed.

Definition join_rest (l : list chars) : chars :=
  match l with
  | [] => ["]"%char]
  | _ => [","%char; " "%char] ++ join l ++ ["]"%char]
  end.

Lemma join_cons x l : join (x :: l) ++ ["]"%char] = x ++ join_rest l.
Proof. destruct l; simpl; [done|]. by rewrite <- !app_assoc. Qed.

Lemma item_repr_head i : ∃ l, item_repr i = "("%char :: l.
Proof. eexists. reflexivity. Qed.

Lemma join_items_inj l1 l2 :
  join (item_repr <$> l1) ++ ["]"%char] = join (item_repr <$> l2) ++ ["]"%char] →
  l1 = l2.
Proof.
  revert l2. induction l1 as [|i1 l1 IH]; intros [|i2 l2] H; rewrite ?fmap_cons in H.
  - done.
  - rewrite join_cons in H. destruct (item_repr_head i2) as [l Hl].
    rewrite Hl in H. discriminate H.
  - rewrite join_cons in H. destruct (item_repr_head i1) as [l Hl].
    rewrite Hl in H. discriminate H.
  - rewrite !join_cons in H. destruct (item_repr_prefix _ _ _ _ H) as [-> Hr].
    f_equal. destruct l1 as [|j1 l1], l2 as [|j2 l2]; rewrite ?fmap_cons in Hr;
      cbn [join_rest] in Hr.
    + done.
    + discriminate Hr.
    + discriminate Hr.
    + apply (f_equal (drop 2)) in Hr. cbn [app drop] in Hr.
      apply IH. by rewrite !fmap_cons.
Qed.

Lemma row_key_inj r1 r2 : row_key r1 = row_key r2 → r1 = r2.
Proof.
  unfold row_key. intros H. injection H as H.
  apply join_items_inj in H. unfold sorted_items in H.
  apply map_to_list_inj.
  rewrite <- (merge_sort_Permutation item_le (map_to_list r1)), H.
  apply merge_sort_Permutation.
Qed.

Lemma nat_of_ascii_inj x y : nat_of_ascii x = nat_of_ascii y → x = y.
Proof.
  intros H. rewrite <- (ascii_nat_embedding x), <- (ascii_nat_embedding y), H.
  done.
Qed.

Lemma chars_leb_cons x y a b :
  chars_leb (x :: a) (y :: b) = true ↔
  nat_of_ascii x < nat_of_ascii y ∨ (x = y ∧ chars_leb a b = true).
Proof.
  simpl. destruct (Nat.ltb_spec (nat_of_ascii x) (nat_of_ascii y)) as [Hlt|Hge];
    [split; [by left|done]|].
  destruct (Ascii.eqb_spec x y) as [->|Hne].
  - split; [by right|]. intros [?|[_ ?]]; [lia|done].
  - split; [done|]. intros [?|[? _]]; [lia|done].
Qed.

Lemma chars_leb_total a b : chars_leb a b = true ∨ chars_leb b a = true.
Proof.
  revert b. induction a as [|x a IH]; intros [|y b]; [by left|by left|by right|].
  rewrite !chars_leb_cons.
  destruct (lt_eq_lt_dec (nat_of_ascii x) (nat_of_ascii y)) as [[Hlt|Heq]|Hgt].
  - by left; left.
  - apply nat_of_ascii_inj in Heq as ->.
    destruct (IH b); [left|right]; by right.
  - by right; left.
Qed.

Lemma chars_leb_trans a b c :
  chars_leb a b = true → chars_leb b c = true → chars_leb a c = true.
Proof.
  revert b c. induction a as [|x a IH]; intros [|y b] [|z c] H1 H2; try done.
  rewrite chars_leb_cons in *.
  destruct H1 as [H1|[-> H1]], H2 as [H2|[-> H2]].
  - left. lia.
  - by left.
  - by left.
  - right. split; [done|]. by eapply IH.
Qed.

Lemma chars_leb_antisym a b :
  chars_leb a b = true → chars_leb b a = true → a = b.
Proof.
  revert b. induction a as [|x a IH]; intros [|y b] H1 H2; try done.
  rewrite chars_leb_cons in *.
  destruct H1 as [H1|[-> H1]], H2 as [H2|[Hyx H2]]; try lia.
  - subst. lia.
  - f_equal. by apply IH.
Qed.

Lemma key_le_total : Total key_le.
Proof. intros r1 r2. apply chars_leb_total. Qed.

Lemma key_le_trans : Transitive key_le.
Proof. intros r1 r2 r3. apply chars_leb_trans. Qed.

Lemma key_le_antisymm : AntiSymm (=) key_le.
Proof.
  intros r1 r2 H1 H2. apply row_key_inj. by apply chars_leb_antisym.
Qed.

End ReprFacts.

(* ------------------------------------------------------------------------- *)
(** ** Lemmas on the runners *)

Module RunnerFacts.
Import PyStr PyRepr Runner.

Section Facts.
Variable B : Type.
Variable execute_query : string → B → exn + list row.
Variable execute_update : string → B → exn + (B * Z).
Variable path_exists : string → bool.
Variable read_file : string → exn + string.
Variable py_int : string → option Z.
Variable project_root : string.
Variable suite : gmap string test_case.
Variable test_levels : gmap string (string * list string).
Variable materialization_requirements : gmap string (list string).

Local Abbreviation levels_loop := (Runner.levels_loop B execute_query execute_update
  path_exists read_file py_int project_root suite test_levels materialization_requirements).
Local Abbreviation run_level := (Runner.run_level B execute_query execute_update
  path_exists read_file py_int project_root suite test_levels materialization_requirements).

Lemma levels_loop_acc mpl lvls acc s :
  levels_loop mpl lvls acc s =
  match levels_loop mpl lvls [] s with
  | (s', inr l) => (s', inr (acc ++ l))
  | (s', inl e) => (s', inl e)
  end.
Proof.
  revert acc s. induction lvls as [|lv rest IH]; intros acc s.
  - simpl. by rewrite app_nil_r.
  - cbn [Runner.levels_loop].
    unfold mbind, mret, Runner.M_bind, Runner.M_ret, Runner.get_state.
    destruct (run_level lv _ s) as [s1 [e|r]]; [done|].
    case_bool_decide; [done|].
    rewrite (IH (acc ++ _)), (IH ([] ++ _)).
    destruct (levels_loop mpl rest [] s1) as [s2 [e|l]]; [done|].
    simpl. by rewrite <- app_assoc.
Qed.

Local Abbreviation run_test := (Runner.run_test B execute_query).
Local Abbreviation run_test_list := (Runner.run_test_list B execute_query).
Local Abbreviation run_tests := (Runner.run_tests B execute_query py_int suite).

(** [run_test] never raises and adds one to [passed] or to [failed]. *)
Lemma run_test_counts tid t s :
  ∃ s' b, run_test tid t s = (s', inr b) ∧
    passed (runner_results B s') + failed (runner_results B s') =
      S (passed (runner_results B s) + failed (runner_results B s)) ∧
    total (runner_results B s') = total (runner_results B s).
Proof.
  unfold Runner.run_test, mbind, mret, Runner.M_bind, Runner.M_ret, Runner.get_state,
    Runner.modify_results.
  destruct (execute_query _ _) as [e|rows]; [|destruct (results_match _ _)];
    (eexists _, _; split_and!; [reflexivity|simpl; lia|reflexivity]).
Qed.

Lemma run_test_list_counts tests s :
  ∃ s', run_test_list tests s = (s', inr ()) ∧
    passed (runner_results B s') + failed (runner_results B s') =
      passed (runner_results B s) + failed (runner_results B s) + length tests ∧
    total (runner_results B s') = total (runner_results B s).
Proof.
  revert s. induction tests as [|[tid t] tests IH]; intros s.
  - exists s. split_and!; [reflexivity|simpl; lia|reflexivity].
  - cbn [Runner.run_test_list]. unfold mbind at 1, Runner.M_bind at 1.
    destruct (run_test_counts tid t s) as (s1 & b & Hr & Hc & Ht). rewrite Hr.
    destruct (IH s1) as (s2 & Hr2 & Hc2 & Ht2). exists s2.
    split_and!; [done|simpl; lia|congruence].
Qed.

(** A call of [run_tests] that returns sets [total] to the number of tests
    it ran and adds exactly that number to [passed + failed]. *)
Lemma run_tests_counts ids s s' u :
  run_tests ids s = (s', inr u) →
  passed (runner_results B s') + failed (runner_results B s') =
    passed (runner_results B s) + failed (runner_results B s) + total (runner_results B s').
Proof.
  unfold Runner.run_tests. unfold mbind at 1, Runner.M_bind at 1.
  set (sel := match ids with Some (_ :: _) => _ | _ => _ end).
  assert (Hsel : ∃ o, sel s = (s, o)).
  { subst sel. destruct ids as [[|tid ids]|];
      unfold Runner.all_tests_sorted, mret, Runner.M_ret, Runner.raise;
      repeat case_match; eauto. }
  destruct Hsel as [[e|tests] Hs]; rewrite Hs; [done|].
  unfold mbind, Runner.M_bind, Runner.modify_results.
  destruct (run_test_list_counts tests
    (mk_state B (backend B s) (set_total (length tests) (runner_results B s))))
    as (s2 & Hr & Hc & Ht).
  rewrite Hr. intros [= <- _]. simpl in Hc, Ht. rewrite Ht. lia.
Qed.

End Facts.

End RunnerFacts.

(* ------------------------------------------------------------------------- *)
(** ** Claims on the runners *)

Module RunnerClaims.
Import PyStr PyRepr Runner RunnerExamples ReprFacts RunnerFacts.

(** C1 (counterexample): level 0's only test fails (the backend returns no
    row where one is expected); [run_all_levels] returns after level 0 and
    the test of level 1 is never run. *)
Lemma run_all_levels_failure_stops :
  (ex_run_all t_fail).2 = inr [("level_0", Shared)] ∧
  failed (runner_results unit (ex_run_all t_fail).1) = 1 ∧
  details (runner_results unit (ex_run_all t_fail).1) !! "1.1" = None.
Proof. vm_compute. split_and!; reflexivity. Qed.

Section Levels.
Variable B : Type.
Variable execute_query : string → B → exn + list row.
Variable execute_update : string → B → exn + (B * Z).
Variable path_exists : string → bool.
Variable read_file : string → exn + string.
Variable py_int : string → option Z.
Variable project_root : string.
Variable suite : gmap string test_case.
Variable test_levels : gmap string (string * list string).
Variable materialization_requirements : gmap string (list string).

Local Abbreviation run_level := (Runner.run_level B execute_query execute_update
  path_exists read_file py_int project_root suite test_levels materialization_requirements).
Local Abbreviation run_all_levels := (Runner.run_all_levels B execute_query execute_update
  path_exists read_file py_int project_root suite test_levels materialization_requirements).

(** C1 (amended): let level [start] (below 4) run, with the scripts
    [materialize_per_level.get(start, [])], and return [r] in state [s1].
    If the dict [r] then reports [failed > 0], [run_all_levels] returns at
    once with that level's entry only: no later level's scripts or tests
    run, the final state is [s1].  If the level's tests ran ([r] is the
    runner's dict) and it reports [failed = 0], the run goes on with level
    [start + 1] from [s1]. *)
Theorem run_all_levels_stops_on_failure (start : nat) (Hstart : start < 4)
    (mpl : gmap nat (list string)) (s s1 : state B) (r : res_ref)
    (Hlevel : run_level start (Some (default [] (mpl !! start))) s = (s1, inr r)) :
  (0 < failed (deref B s1 r) →
     run_all_levels start mpl s = (s1, inr [(level_key start, r)])) ∧
  (r = Shared → failed (deref B s1 r) = 0 →
     run_all_levels start mpl s =
     match run_all_levels (S start) mpl s1 with
     | (s2, inr l) => (s2, inr ((level_key start, r) :: l))
     | (s2, inl e) => (s2, inl e)
     end).
Proof.
  unfold Runner.run_all_levels.
  assert (Hseq : seq start (4 - start) = start :: seq (S start) (4 - S start)).
  { replace (4 - start) with (S (4 - S start)) by lia. reflexivity. }
  rewrite Hseq. cbn [Runner.levels_loop].
  unfold mbind, mret, Runner.M_bind, Runner.M_ret, Runner.get_state.
  rewrite Hlevel. split.
  - intros Hf. rewrite bool_decide_true by done. done.
  - intros _ Hf. rewrite bool_decide_false by lia. rewrite RunnerFacts.levels_loop_acc.
    done.
Qed.
End Levels.

Lemma run_all_levels_stops_on_failure_witness :
  run_all_levels unit ex_query ex_update (λ _, true) (λ _, inr "") (λ _, None) ""
    (ex_suite t_fail) ex_levels ∅ 0 ∅ ex_state =
  ((ex_run_all t_fail).1, inr [(level_key 0, Shared)]).
Proof.
  apply (run_all_levels_stops_on_failure unit ex_query ex_update (λ _, true)
    (λ _, inr "") (λ _, None) "" (ex_suite t_fail) ex_levels ∅ 0 ltac:(lia) ∅
    ex_state (ex_run_all t_fail).1 Shared).
  - vm_compute. reflexivity.
  - vm_compute. lia.
Defined.

(** C8: the comparison of [run_test] (both lists sorted by
    [str(sorted(x.items()))], then [==]) judges every list of rows equal to
    each of its permutations.  The key is injective on rows ([row_key_inj]),
    so the sorted list does not depend on the input order. *)
Theorem results_match_permutation (rows rows' : list row) (Hperm : rows ≡ₚ rows') :
  results_match rows rows' = true.
Proof.
  unfold results_match, sort_rows. apply bool_decide_eq_true.
  pose proof key_le_total as Htot. pose proof key_le_trans as Htr.
  pose proof key_le_antisymm as Hanti.
  apply (Sorted_unique key_le).
  - by apply Sorted_merge_sort.
  - by apply Sorted_merge_sort.
  - by rewrite !merge_sort_Permutation.
Qed.

Lemma results_match_permutation_witness :
  results_match
    [ {[ "x" := VStr ":Alice"; "y" := VStr "it's" ]}; {[ "x" := VStr ":Bob" ]};
      {[ "result" := VBool true ]} ]
    [ {[ "result" := VBool true ]}; {[ "x" := VStr ":Bob" ]};
      {[ "x" := VStr ":Alice"; "y" := VStr "it's" ]} ] = true.
Proof.
  apply results_match_permutation.
  apply (bool_decide_unpack _). vm_compute. reflexivity.
Defined.

(** C9 (failing input): [run_all_levels] over four levels of one passing
    test each.  [run_tests] sets [total] to the length of its own list but
    adds to [passed] and [failed] on the runner's single [results] dict, so
    after the second call [total = 1] while [passed = 4]. *)
Theorem run_tests_total_mismatch :
  (ex_run_all t_pass).2 =
    inr [("level_0", Shared); ("level_1", Shared); ("level_2", Shared); ("level_3", Shared)] ∧
  total (runner_results unit (ex_run_all t_pass).1) = 1 ∧
  passed (runner_results unit (ex_run_all t_pass).1) = 4 ∧
  failed (runner_results unit (ex_run_all t_pass).1) = 0.
Proof. vm_compute. split_and!; reflexivity. Qed.

(** C10: one row holding a key ['result'] is returned as it is, whatever its
    values (for instance a SELECT whose variable is named [result]); every
    other non-empty list has each row replaced by a row with the same keys,
    whose values are [str(value)], rewritten to [':' + local name] when they
    contain the family namespace. *)
Theorem normalize_results_spec :
  (∀ r : row, is_Some (r !! "result") → normalize_results [r] = [r]) ∧
  (∀ rows : list row, rows ≠ [] →
     (∀ r, rows = [r] → r !! "result" = None) →
     length (normalize_results rows) = length rows ∧
     ∀ i r, rows !! i = Some r →
       ∃ r', normalize_results rows !! i = Some r' ∧ dom r' = dom r ∧
         ∀ k v, r !! k = Some v →
           r' !! k = Some (VStr
             (if contains family_ns (py_str v)
              then String ":" (last_of (split "#" (py_str v)))
              else py_str v))).
Proof.
  split.
  - intros r Hr. simpl. by rewrite decide_True.
  - intros rows Hne Hone.
    assert (Hn : normalize_results rows = normalize_row <$> rows).
    { destruct rows as [|r [|r2 rows]]; [done| |done].
      simpl. rewrite decide_False; [done|]. rewrite (Hone r eq_refl).
      by intros [? ?]. }
    rewrite Hn. split; [apply length_fmap|].
    intros i r Hi. exists (normalize_row r). split_and!.
    + by rewrite list_lookup_fmap, Hi.
    + unfold normalize_row. apply dom_fmap_L.
    + intros k v Hk. unfold normalize_row. rewrite lookup_fmap, Hk. done.
Qed.

Lemma normalize_results_spec_witness :
  normalize_results [ {[ "result" := VStr "http://example.org/family#Alice" ]} ] =
    [ {[ "result" := VStr "http://example.org/family#Alice" ]} ] ∧
  length (normalize_results [ {[ "x" := VStr "http://example.org/family#Alice" ]} ]) = 1.
Proof.
  split.
  - apply (proj1 normalize_results_spec). vm_compute. eexists. reflexivity.
  - apply (proj2 normalize_results_spec).
    + discriminate.
    + intros r Hr. injection Hr as <-. vm_compute. reflexivity.
Defined.

End RunnerClaims.


(* ------------------------------------------------------------------------ *)
(** ** Further properties of the analyser, the runners and the command line *)

Module StrFacts.
Import PyStr Levels AnalyzerOutputs.

Definition chars_of (s : string) : list ascii := list_ascii_of_string s.

Lemma str_app_nil_r s : s +:+ "" = s.
Proof. induction s as [|x s IH]; [done|]. exact (f_equal (String x) IH). Qed.

Lemma str_app_assoc s1 s2 s3 : s1 +:+ (s2 +:+ s3) = (s1 +:+ s2) +:+ s3.
Proof. induction s1 as [|x s1 IH]; [done|]. exact (f_equal (String x) IH). Qed.

Lemma chars_of_app s1 s2 : chars_of (s1 +:+ s2) = chars_of s1 ++ chars_of s2.
Proof. induction s1 as [|x s1 IH]; [done|]. exact (f_equal (cons x) IH). Qed.

Lemma split_go_no_sep c s cur : c ∉ chars_of s → split_go c s cur = [cur +:+ s].
Proof.
  revert cur. induction s as [|x s IH]; intros cur Hc; simpl.
  - by rewrite str_app_nil_r.
  - destruct (Ascii.eqb_spec x c) as [->|Hx].
    + destruct Hc. by left.
    + rewrite IH; [|intros H; apply Hc; by right].
      by rewrite <-str_app_assoc.
Qed.

Lemma split_go_sep c s1 s2 cur :
  ∃ pre, split_go c (s1 +:+ String c s2) cur = pre ++ split_go c s2 "".
Proof.
  revert cur. induction s1 as [|x s1 IH]; intros cur; simpl.
  - rewrite Ascii.eqb_refl. by exists [cur].
  - destruct (Ascii.eqb x c).
    + destruct (IH "") as [pre Hpre]. exists (cur :: pre). by rewrite Hpre.
    + apply IH.
Qed.

Lemma split_go_nonempty c s cur : split_go c s cur ≠ [].
Proof.
  revert cur. induction s as [|x s IH]; intros cur; simpl; [done|].
  destruct (Ascii.eqb x c); [done|apply IH].
Qed.

Lemma last_of_app l1 l2 : l2 ≠ [] → last_of (l1 ++ l2) = last_of l2.
Proof. destruct l2 as [|x l2]; [done|]. intros _. unfold last_of. by rewrite last_app_cons. Qed.

Lemma last_of_cons x l : l ≠ [] → last_of (x :: l) = last_of l.
Proof. apply (last_of_app [x]). Qed.

Lemma last_of_split_sep c s1 s2 :
  last_of (split c (s1 +:+ String c s2)) = last_of (split c s2).
Proof.
  unfold split. destruct (split_go_sep c s1 s2 "") as [pre ->].
  apply last_of_app, split_go_nonempty.
Qed.

Lemma last_of_split_no_sep c s : c ∉ chars_of s → last_of (split c s) = s.
Proof. intros Hc. unfold split. by rewrite split_go_no_sep. Qed.

Lemma last_of_split_app c p s :
  c ∉ chars_of s → last_of (split c (p +:+ s)) = last_of (split c p) +:+ s.
Proof.
  intros Hc. unfold split. generalize EmptyString as cur.
  induction p as [|y p IH]; intros cur; simpl.
  - by rewrite split_go_no_sep.
  - destruct (Ascii.eqb y c).
    + rewrite !last_of_cons by apply split_go_nonempty. apply IH.
    + apply IH.
Qed.

Lemma split_go_chars c s cur x d :
  x ∈ split_go c s cur → d ∈ chars_of x → d ∈ chars_of cur ∨ (d ∈ chars_of s ∧ d ≠ c).
Proof.
  revert cur. induction s as [|y s IH]; intros cur Hx Hd; simpl in Hx.
  - apply list_elem_of_singleton in Hx as ->. by left.
  - destruct (Ascii.eqb_spec y c) as [->|Hy].
    + apply elem_of_cons in Hx as [->|Hx]; [by left|].
      destruct (IH "" Hx Hd) as [Hd'|[Hd' Hne]]; [by apply elem_of_nil in Hd'|].
      right. split; [by right|done].
    + destruct (IH _ Hx Hd) as [Hd'|[Hd' Hne]].
      * rewrite chars_of_app in Hd'. apply elem_of_app in Hd' as [Hd'|Hd']; [by left|].
        apply list_elem_of_singleton in Hd' as ->. right. split; [by left|done].
      * right. split; [by right|done].
Qed.

Lemma last_of_split_chars c s d :
  d ∈ chars_of (last_of (split c s)) → d ∈ chars_of s ∧ d ≠ c.
Proof.
  intros Hd. unfold last_of in Hd.
  destruct (last (split c s)) as [x|] eqn:Hl.
  - apply last_Some_elem_of in Hl. simpl in Hd.
    destruct (split_go_chars c s "" x d Hl Hd) as [H|H]; [by apply elem_of_nil in H|done].
  - by apply elem_of_nil in Hd.
Qed.

Lemma replace_char_chars a b s d :
  d ∈ chars_of (replace_char a b s) → (d ∈ chars_of s ∧ d ≠ a) ∨ d = b.
Proof.
  induction s as [|y s IH]; simpl; intros Hd; [by apply elem_of_nil in Hd|].
  apply elem_of_cons in Hd as [->|Hd].
  - destruct (Ascii.eqb_spec y a) as [->|Hy]; [by right|]. left. split; [by left|done].
  - destruct (IH Hd) as [[??]|?]; [left; split; [by right|done]|by right].
Qed.

End StrFacts.

Module StrExtras.
Import PyStr Levels AnalyzerOutputs StrFacts.

(** [_get_short_name] returns a name made of characters of the URI, none
    of them ['#'] or ['/']; applied to its own result it changes nothing. *)
Theorem short_name_spec (u : string) :
  (∀ d, d ∈ chars_of (short_name u) → d ∈ chars_of u ∧ d ≠ "#"%char ∧ d ≠ "/"%char) ∧
  short_name (short_name u) = short_name u.
Proof.
  assert (Hc : ∀ d, d ∈ chars_of (short_name u) → d ∈ chars_of u ∧ d ≠ "#"%char ∧ d ≠ "/"%char).
  { intros d Hd. unfold short_name in Hd.
    apply last_of_split_chars in Hd as [Hd Hs].
    apply last_of_split_chars in Hd as [Hd Hh]. done. }
  split; [done|]. unfold short_name at 1.
  rewrite (last_of_split_no_sep "#"), (last_of_split_no_sep "/"); [done| |];
    intros Hd; by destruct (Hc _ Hd) as (_ & ? & ?).
Qed.

(** For a URI [p#x] or [p/x] whose last part [x] holds neither ['#'] nor
    ['/'], [_get_short_name] returns [x], whatever [p] is. *)
Theorem short_name_suffix (p x : string) :
  "#"%char ∉ chars_of x → "/"%char ∉ chars_of x →
  short_name (p +:+ String "#" x) = x ∧ short_name (p +:+ String "/" x) = x.
Proof.
  intros Hh Hs. unfold short_name. split.
  - by rewrite last_of_split_sep, (last_of_split_no_sep "#" x Hh),
      (last_of_split_no_sep "/" x Hs).
  - rewrite (last_of_split_app "#" p (String "/" x)).
    + by rewrite last_of_split_sep, (last_of_split_no_sep "/" x Hs).
    + intros Hd. apply elem_of_cons in Hd as [Hd|Hd]; [discriminate|done].
Qed.

(** [_format_node_name] returns a name without ['#'], ['/'], ['-'] or [':']:
    each of its characters is one of the URI or ['_']. *)
Theorem format_node_name_chars (u : string) d :
  d ∈ chars_of (format_node_name u) →
  (d ∈ chars_of u ∨ d = "_"%char) ∧
  d ≠ "#"%char ∧ d ≠ "/"%char ∧ d ≠ "-"%char ∧ d ≠ ":"%char.
Proof.
  intros Hd. unfold format_node_name in Hd.
  apply replace_char_chars in Hd as [[Hd Hcolon]| ->]; [|split_and!; [by right|discriminate..]].
  apply replace_char_chars in Hd as [[Hd Hdash]| ->]; [|split_and!; [by right|discriminate..]].
  destruct ((proj1 (short_name_spec u)) d Hd) as (Hu & Hh & Hs).
  split_and!; [by left|done..].
Qed.

End StrExtras.

Module ContextFacts.
Import PyStr Levels AnalyzerOutputs.

Definition marked (line : string) : bool := String.prefix ">> " line.

Lemma range_from_length s n : length (range_from s n) = n.
Proof. revert s. induction n; intros s; simpl; auto. Qed.

Lemma range_from_filter s n a :
  filter (λ i, (i + 1 = a)%Z) (range_from s n) =
  if bool_decide (s + 1 ≤ a < s + 1 + Z.of_nat n)%Z then [(a - 1)%Z] else [].
Proof.
  revert s. induction n as [|n IH]; intros s; simpl.
  - case_bool_decide; [lia|done].
  - rewrite filter_cons. case_decide as Hs.
    + rewrite IH. case_bool_decide; [lia|]. case_bool_decide; [|lia].
      f_equal. lia.
    + rewrite IH. case_bool_decide; case_bool_decide; done || lia.
Qed.

Lemma marked_prefix x : marked (">> " +:+ x) = true.
Proof. by destruct x. Qed.
Lemma marked_blank x : marked ("   " +:+ x) = false.
Proof. by destruct x. Qed.

End ContextFacts.

Module ContextExtras.
Import PyStr Levels AnalyzerOutputs ContextFacts.

(** [_get_error_context] (with [context_lines >= 0]) returns
    [min(len(lines), line_num + context_lines) - max(0, line_num -
    context_lines - 1)] lines (none if that is negative); exactly one of them
    is marked with [">> "] when [1 <= line_num <= len(lines)], and it is the
    line [line_num] of the file, none otherwise. *)
Theorem error_context_marked (lines : list string) (line_num context_lines : Z) :
  (0 ≤ context_lines)%Z →
  length (error_context_lines lines line_num context_lines) =
    Z.to_nat (Z.min (Z.of_nat (length lines)) (line_num + context_lines) -
              Z.max 0 (line_num - context_lines - 1)) ∧
  filter (λ l, marked l = true) (error_context_lines lines line_num context_lines) =
    if bool_decide (1 ≤ line_num ≤ Z.of_nat (length lines))%Z
    then [">> " +:+ pretty line_num +:+ ": " +:+
          rstrip (default "" (lines !! Z.to_nat (line_num - 1)))]
    else [].
Proof.
  intros Hc. unfold error_context_lines, py_range.
  split; [by rewrite length_fmap, range_from_length|].
  set (g := λ i, (if bool_decide (i + 1 = line_num)%Z then ">> " else "   ") +:+
        pretty (i + 1)%Z +:+ ": " +:+ rstrip (default "" (lines !! Z.to_nat i))).
  assert (Hmap : ∀ r : list Z, filter (λ l, marked l = true) (g <$> r) =
                     g <$> filter (λ i, (i + 1 = line_num)%Z) r).
  { induction r as [|i r IH]; [done|]. rewrite fmap_cons, !filter_cons.
    assert (Hg : marked (g i) = bool_decide (i + 1 = line_num)%Z).
    { unfold g. case_bool_decide; [apply marked_prefix|apply marked_blank]. }
    rewrite Hg, IH. case_bool_decide as Hi.
    - by rewrite !decide_True.
    - rewrite !decide_False; [done..|discriminate]. }
  rewrite Hmap, range_from_filter.
  set (st := Z.max 0 (line_num - context_lines - 1)).
  set (en := Z.min (Z.of_nat (length lines)) (line_num + context_lines)).
  assert (Hiff : (st + 1 ≤ line_num < st + 1 + Z.of_nat (Z.to_nat (en - st)))%Z ↔
                 (1 ≤ line_num ≤ Z.of_nat (length lines))%Z).
  { destruct (Z.le_gt_cases 0 (en - st)) as [Hp|Hn].
    - rewrite Z2Nat.id by done. subst st en. lia.
    - rewrite Z2Nat.nonpos by lia. subst st en. lia. }
  case_bool_decide as H1; case_bool_decide as H2; try tauto.
  simpl. unfold g. rewrite bool_decide_true by lia.
  by replace (line_num - 1 + 1)%Z with line_num by lia.
Qed.

End ContextExtras.

Module ExtractFacts.
Import PyStr Analyzer Levels AnalyzerOutputs.

Definition add_pair (m : dep_maps) (pd : string * string) : dep_maps :=
  add_dependency pd.1 pd.2 m.

(** No key of the map is bound to an empty set. *)
Definition no_empty (M : gmap string (gset string)) : Prop :=
  ∀ k S, M !! k = Some S → S ≠ ∅.

Lemma depends_insert_union (M : gmap string (gset string)) k x p d :
  depends (<[k := {[x]} ∪ default ∅ (M !! k)]> M) p d ↔
  (p = k ∧ d = x) ∨ depends M p d.
Proof.
  unfold depends. destruct (decide (p = k)) as [->|Hne].
  - rewrite lookup_insert_eq. split.
    + intros (S & [= <-] & Hd). apply elem_of_union in Hd as [Hd|Hd].
      * left. split; [done|]. by apply elem_of_singleton in Hd.
      * right. destruct (M !! k) as [S|]; simpl in Hd; [by exists S|set_solver].
    + intros [[_ ->]|(S & HS & Hd)]; eexists; split; [done| |done|]; [set_solver|].
      rewrite HS. simpl. set_solver.
  - rewrite lookup_insert_ne by done. split; [by right|]. intros [[? _]|?]; [done|done].
Qed.

Lemma no_empty_insert (M : gmap string (gset string)) k x :
  no_empty M → no_empty (<[k := {[x]} ∪ default ∅ (M !! k)]> M).
Proof.
  intros Hne k' S. destruct (decide (k' = k)) as [->|Hk].
  - rewrite lookup_insert_eq. intros [= <-]. set_solver.
  - rewrite lookup_insert_ne by done. apply Hne.
Qed.

Lemma add_pairs_spec ps m :
  let m' := foldl add_pair m ps in
  (∀ p d, depends (dependencies_of m') p d ↔ (p, d) ∈ ps ∨ depends (dependencies_of m) p d) ∧
  (∀ p d, depends (reverse_deps m') d p ↔ (p, d) ∈ ps ∨ depends (reverse_deps m) d p) ∧
  (no_empty (dependencies_of m) → no_empty (dependencies_of m')) ∧
  (no_empty (reverse_deps m) → no_empty (reverse_deps m')).
Proof.
  revert m. induction ps as [|[p0 d0] ps IH]; intros m; simpl.
  - split_and!; try done; intros p d; (split; [by right|intros [H|H]; [by apply elem_of_nil in H|done]]).
  - destruct (IH (add_pair m (p0, d0))) as (H1 & H2 & H3 & H4). split_and!.
    + intros p d. rewrite H1. unfold add_pair. simpl. rewrite depends_insert_union.
      rewrite elem_of_cons. naive_solver.
    + intros p d. rewrite H2. unfold add_pair. simpl. rewrite depends_insert_union.
      rewrite elem_of_cons. naive_solver.
    + intros Hne. apply H3. apply no_empty_insert, Hne.
    + intros Hne. apply H4. apply no_empty_insert, Hne.
Qed.

Lemma foldl_concat {A X Y} (f : A → Y → A) (h : X → list Y) (l : list X) a :
  foldl (λ a x, foldl f a (h x)) a l = foldl f a (concat (h <$> l)).
Proof.
  revert a. induction l as [|x l IH]; intros a; simpl; [done|].
  by rewrite foldl_app, IH.
Qed.

Definition chain_pairs (items : term → list term) (so : term * term) : list (string * string) :=
  if is_bnode so.2
  then (λ dep, (term_str so.1, term_str dep)) <$> filter (λ dep, is_bnode dep = false) (items so.2)
  else [].

Definition annotation_pairs (so : term * term) : list (string * string) :=
  match so with
  | (URIRef p, URIRef d) => [(p, d)]
  | _ => []
  end.

Lemma chain_step_pairs items m so :
  chain_step items m so = foldl add_pair m (chain_pairs items so).
Proof.
  destruct so as [prop cn]. unfold chain_step, chain_pairs. simpl.
  destruct (is_bnode cn); [|done].
  generalize m. induction (items cn) as [|x l IH]; intros m'; simpl; [done|].
  rewrite filter_cons. case_decide as Hb; rewrite ?Hb; [|destruct (is_bnode x); [|done]]; apply IH.
Qed.

Lemma annotation_step_pairs m so :
  annotation_step m so = foldl add_pair m (annotation_pairs so).
Proof. by destruct so as [[p|p|p] [d|d|d]]. Qed.

Lemma elem_of_concat {A} (x : A) (ls : list (list A)) :
  x ∈ concat ls ↔ ∃ l, x ∈ l ∧ l ∈ ls.
Proof.
  induction ls as [|l ls IH]; simpl.
  - split; [by intros ?%elem_of_nil|]. intros (l & _ & ?%elem_of_nil). done.
  - rewrite elem_of_app, IH. split.
    + intros [Hx|(l' & Hx & Hl')]; [exists l; split; [done|by left]|].
      exists l'. split; [done|by right].
    + intros (l' & Hx & Hl'). apply elem_of_cons in Hl' as [->|Hl']; [by left|].
      right. by exists l'.
Qed.

Definition extract_pairs (items : term → list term) (g : list triple) : list (string * string) :=
  concat (chain_pairs items <$> triples_with g owl_propertyChainAxiom) ++
  concat (annotation_pairs <$> triples_with g family_materializationDependency).

Lemma extract_dependencies_pairs items g :
  extract_dependencies items g = foldl add_pair (mk_dep_maps ∅ ∅) (extract_pairs items g).
Proof.
  unfold extract_dependencies, extract_pairs. rewrite foldl_app.
  rewrite <-!foldl_concat.
  assert (Hc : ∀ l m, foldl (chain_step items) m l =
                      foldl (λ a x, foldl add_pair a (chain_pairs items x)) m l).
  { induction l as [|x l IH]; intros m; simpl; [done|]. by rewrite chain_step_pairs, IH. }
  assert (Ha : ∀ l m, foldl annotation_step m l =
                      foldl (λ a x, foldl add_pair a (annotation_pairs x)) m l).
  { induction l as [|x l IH]; intros m; simpl; [done|]. by rewrite annotation_step_pairs, IH. }
  by rewrite Hc, Ha.
Qed.

Lemma triples_with_elem g pred s o :
  (s, o) ∈ triples_with g pred ↔ (s, pred, o) ∈ g.
Proof.
  unfold triples_with. rewrite list_elem_of_fmap. split.
  - intros ([[s' p'] o'] & [= -> ->] & Ht). apply list_elem_of_filter in Ht as [Hp Ht].
    simpl in Hp. by subst.
  - intros Ht. exists (s, pred, o). split; [done|]. by apply list_elem_of_filter.
Qed.

Definition extracted_edge (items : term → list term) (g : list triple) (p d : string) : Prop :=
  (∃ s c x, (s, owl_propertyChainAxiom, BNode c) ∈ g ∧ x ∈ items (BNode c) ∧
     is_bnode x = false ∧ p = term_str s ∧ d = term_str x) ∨
  (URIRef p, family_materializationDependency, URIRef d) ∈ g.

Lemma extract_pairs_elem items g p d :
  (p, d) ∈ extract_pairs items g ↔ extracted_edge items g p d.
Proof.
  unfold extract_pairs, extracted_edge. rewrite elem_of_app, !elem_of_concat. f_equiv.
  - split.
    + intros (l & Hpd & Hl). apply list_elem_of_fmap in Hl as ([s o] & -> & Hso).
      apply triples_with_elem in Hso. unfold chain_pairs in Hpd. simpl in Hpd.
      destruct o as [o|o|o]; simpl in Hpd; try by apply elem_of_nil in Hpd.
      apply list_elem_of_fmap in Hpd as (x & [= -> ->] & Hx).
      apply list_elem_of_filter in Hx as [Hb Hx]. by exists s, o, x.
    + intros (s & c & x & Hg & Hx & Hb & -> & ->).
      exists (chain_pairs items (s, BNode c)). split.
      * unfold chain_pairs. simpl. apply list_elem_of_fmap. exists x. split; [done|].
        by apply list_elem_of_filter.
      * apply list_elem_of_fmap. exists (s, BNode c). split; [done|].
        by apply triples_with_elem.
  - split.
    + intros (l & Hpd & Hl). apply list_elem_of_fmap in Hl as ([s o] & -> & Hso).
      apply triples_with_elem in Hso.
      destruct s as [s|s|s], o as [o|o|o]; simpl in Hpd; try by apply elem_of_nil in Hpd.
      apply list_elem_of_singleton in Hpd as [= -> ->]. done.
    + intros Hg. exists [(p, d)]. split; [by apply list_elem_of_singleton|].
      apply list_elem_of_fmap. exists (URIRef p, URIRef d). split; [done|].
      by apply triples_with_elem.
Qed.

Lemma map_eq_depends (M1 M2 : gmap string (gset string)) :
  no_empty M1 → no_empty M2 → (∀ p d, depends M1 p d ↔ depends M2 p d) → M1 = M2.
Proof.
  intros H1 H2 H. apply map_eq. intros k.
  destruct (M1 !! k) as [S1|] eqn:E1, (M2 !! k) as [S2|] eqn:E2.
  - f_equal. apply set_eq. intros x. specialize (H k x). unfold depends in H.
    rewrite E1, E2 in H. split.
    + intros Hx. destruct (proj1 H (ex_intro _ S1 (conj eq_refl Hx))) as (S & [= <-] & ?). done.
    + intros Hx. destruct (proj2 H (ex_intro _ S2 (conj eq_refl Hx))) as (S & [= <-] & ?). done.
  - exfalso. apply (H1 k S1 E1). apply set_eq. intros x. split; [|set_solver].
    intros Hx. destruct (proj1 (H k x) (ex_intro _ S1 (conj E1 Hx))) as (S & HS & _). congruence.
  - exfalso. apply (H2 k S2 E2). apply set_eq. intros x. split; [|set_solver].
    intros Hx. destruct (proj2 (H k x) (ex_intro _ S2 (conj E2 Hx))) as (S & HS & _). congruence.
  - done.
Qed.

End ExtractFacts.

Module ExtractExtras.
Import PyStr Analyzer Levels AnalyzerOutputs ExtractFacts.

(** [extract_dependencies] makes [p] depend on [d] exactly when the graph
    has a [owl:propertyChainAxiom] triple from [p] to a blank node whose RDF
    list holds [d] (a URI or a literal), or a [:materializationDependency]
    triple between the URIs [p] and [d]; [reverse_deps] is the converse
    relation, and neither map binds a key to an empty set. *)
Theorem extract_dependencies_spec (items : term → list term) (g : list triple) :
  let m := extract_dependencies items g in
  (∀ p d, depends (dependencies_of m) p d ↔
    (∃ s c x, (s, owl_propertyChainAxiom, BNode c) ∈ g ∧ x ∈ items (BNode c) ∧
       is_bnode x = false ∧ p = term_str s ∧ d = term_str x) ∨
    (URIRef p, family_materializationDependency, URIRef d) ∈ g) ∧
  (∀ p d, depends (reverse_deps m) d p ↔ depends (dependencies_of m) p d) ∧
  (∀ k S, dependencies_of m !! k = Some S → S ≠ ∅) ∧
  (∀ k S, reverse_deps m !! k = Some S → S ≠ ∅).
Proof.
  simpl. rewrite extract_dependencies_pairs.
  destruct (add_pairs_spec (extract_pairs items g) (mk_dep_maps ∅ ∅)) as (H1 & H2 & H3 & H4).
  assert (Hnil : ∀ p d, ¬ depends (∅ : gmap string (gset string)) p d).
  { intros p d (S & HS & _). by rewrite lookup_empty in HS. }
  split_and!.
  - intros p d. rewrite H1. simpl. rewrite extract_pairs_elem. unfold extracted_edge.
    split; [intros [?|?]; [done|by destruct (Hnil p d)]|by left].
  - intros p d. rewrite H1, H2. simpl. split; (intros [?|H]; [by left|by destruct (Hnil _ _ H)]).
  - apply H3. intros k S. simpl. by rewrite lookup_empty.
  - apply H4. intros k S. simpl. by rewrite lookup_empty.
Qed.

(** The maps [extract_dependencies] builds depend only on the set of triples
    of the graph: not on the order in which the graph yields them, nor on
    repeated triples. *)
Theorem extract_dependencies_order (items : term → list term) (g1 g2 : list triple) :
  (∀ t, t ∈ g1 ↔ t ∈ g2) →
  extract_dependencies items g1 = extract_dependencies items g2.
Proof.
  intros Hg. rewrite !extract_dependencies_pairs.
  destruct (add_pairs_spec (extract_pairs items g1) (mk_dep_maps ∅ ∅)) as (A1 & A2 & A3 & A4).
  destruct (add_pairs_spec (extract_pairs items g2) (mk_dep_maps ∅ ∅)) as (B1 & B2 & B3 & B4).
  assert (Hnil : ∀ p d, ¬ depends (∅ : gmap string (gset string)) p d).
  { intros p d (S & HS & _). by rewrite lookup_empty in HS. }
  assert (Hne : no_empty (∅ : gmap string (gset string))).
  { intros k S. by rewrite lookup_empty. }
  assert (Hpairs : ∀ p d, (p, d) ∈ extract_pairs items g1 ↔ (p, d) ∈ extract_pairs items g2).
  { intros p d. rewrite !extract_pairs_elem. unfold extracted_edge.
    setoid_rewrite Hg. done. }
  destruct (foldl add_pair (mk_dep_maps ∅ ∅) (extract_pairs items g1)) as [D1 R1] eqn:E1.
  destruct (foldl add_pair (mk_dep_maps ∅ ∅) (extract_pairs items g2)) as [D2 R2] eqn:E2.
  simpl in *. f_equal; apply map_eq_depends; auto.
  - intros p d. rewrite A1, B1, Hpairs. split; intros [?|H]; auto; by destruct (Hnil _ _ H).
  - intros p d. rewrite A2, B2, Hpairs. split; intros [?|H]; auto; by destruct (Hnil _ _ H).
Qed.

End ExtractExtras.

Module LevelMoreFacts.
Import PyStr Analyzer AnalyzerFacts Levels LevelsFacts.

(** Every positive level is one more than the level of some dependency. *)
Definition tight (rg : gmap string (list string)) (lv : gmap string nat) : Prop :=
  ∀ x v, lv !! x = Some (S v) → ∃ d, d ∈ rev_deps rg x ∧ lv !! d = Some v.

Lemma py_max_attained (lv : gmap string nat) ds :
  ds ≠ [] → ∃ d, d ∈ ds ∧ default 0 (lv !! d) = py_max ((λ dep, default 0 (lv !! dep)) <$> ds).
Proof.
  set (f := λ dep, default 0 (lv !! dep)).
  induction ds as [|e ds IH]; intros Hne; [done|].
  change (py_max (f <$> e :: ds)) with (Nat.max (f e) (py_max (f <$> ds))).
  destruct ds as [|e' ds'].
  - exists e. split; [by left|]. change (py_max (f <$> [])) with 0. by rewrite Nat.max_0_r.
  - destruct IH as (d & Hd & Hdv); [done|].
    destruct (Nat.max_spec (f e) (py_max (f <$> e' :: ds'))) as [[_ Hm]|[_ Hm]];
      rewrite Hm.
    + exists d. split; [by right|done].
    + exists e. split; [by left|done].
Qed.

Lemma tight_pass_step rg lv c n :
  tight rg lv → tight rg (pass_step rg (lv, c) n).1.
Proof.
  intros Ht. unfold pass_step.
  destruct (decide (is_Some (lv !! n))) as [|Hn]; [done|].
  apply eq_None_not_Some in Hn.
  destruct (rev_deps rg n) as [|d0 ds] eqn:Hrd.
  - simpl. intros x v. destruct (decide (x = n)) as [->|Hx].
    + by rewrite lookup_insert_eq.
    + rewrite lookup_insert_ne by done. intros Hxv.
      destruct (Ht x v Hxv) as (d & Hd & Hdv). exists d. split; [done|].
      destruct (decide (d = n)) as [->|]; [congruence|]. by rewrite lookup_insert_ne.
  - destruct (forallb _ _) eqn:Hall; simpl; [|done].
    rewrite forallb_forall in Hall.
    intros x v. destruct (decide (x = n)) as [->|Hx].
    + rewrite lookup_insert_eq. intros [= Hv].
      destruct (py_max_attained lv (d0 :: ds)) as (d & Hd & Hdv); [done|].
      exists d. rewrite Hrd. split; [done|].
      assert (Hsd : is_Some (lv !! d)).
      { apply (proj1 (bool_decide_eq_true _)), Hall, list_elem_of_In, Hd. }
      destruct (decide (d = n)) as [->|Hdn]; [by rewrite Hn in Hsd; destruct Hsd|].
      rewrite lookup_insert_ne by done. destruct Hsd as [w Hw].
      rewrite Hw in Hdv |- *. simpl in Hdv. congruence.
    + rewrite lookup_insert_ne by done. intros Hxv.
      destruct (Ht x v Hxv) as (d & Hd & Hdv). exists d. split; [done|].
      destruct (decide (d = n)) as [->|]; [congruence|]. by rewrite lookup_insert_ne.
Qed.

Lemma tight_level_pass rg ns lv c :
  tight rg lv → tight rg (foldl (pass_step rg) (lv, c) ns).1.
Proof.
  revert lv c. induction ns as [|n ns IH]; intros lv c Ht; [done|].
  change (foldl (pass_step rg) (lv, c) (n :: ns))
    with (foldl (pass_step rg) (pass_step rg (lv, c) n) ns).
  destruct (pass_step rg (lv, c) n) as [lv' c'] eqn:E.
  apply IH. change lv' with (lv', c').1. rewrite <-E. by apply tight_pass_step.
Qed.

Lemma tight_fixpoint_loop rg ns f lv lvf :
  tight rg lv → fixpoint_loop rg ns f lv = Some lvf → tight rg lvf.
Proof.
  revert lv. induction f as [|f IH]; intros lv Ht; simpl; [done|].
  unfold level_pass. pose proof (tight_level_pass rg ns lv false Ht) as Ht'.
  destruct (foldl (pass_step rg) (lv, false) ns) as [lv' []]; simpl in Ht'.
  - by apply IH.
  - by intros [= <-].
Qed.

Lemma init_levels_zero rg ns x v : init_levels rg ns !! x = Some v → v = 0.
Proof.
  unfold init_levels.
  assert (Hgen : ∀ l (lv : gmap string nat), (∀ y w, lv !! y = Some w → w = 0) →
    ∀ y w, foldl (λ lv node, if decide (rev_deps rg node = []) then <[node := 0]> lv else lv)
             lv l !! y = Some w → w = 0).
  { induction l as [|n l IH]; intros lv Hlv; simpl; [done|]. apply IH.
    case_decide; [|done]. intros y w. destruct (decide (y = n)) as [->|Hy].
    - rewrite lookup_insert_eq. by intros [= <-].
    - rewrite lookup_insert_ne by done. apply Hlv. }
  apply Hgen. intros y w. by rewrite lookup_empty.
Qed.

Lemma tight_loop_levels iter D nodes rels lvf :
  collect D = (nodes, rels) → loop_levels iter D = Some lvf →
  tight (build_rev_graph nodes rels) lvf.
Proof.
  intros Hc. unfold loop_levels. rewrite Hc. apply tight_fixpoint_loop.
  intros x v Hx. by apply init_levels_zero in Hx.
Qed.

Lemma foldr_max_ge (l : list nat) x : x ∈ l → x ≤ foldr Nat.max 0 l.
Proof.
  induction l as [|y l IH]; intros Hx; [by apply elem_of_nil in Hx|]. simpl.
  apply elem_of_cons in Hx as [->|Hx]; [lia|]. specialize (IH Hx). lia.
Qed.

Lemma foldr_max_in (l : list nat) : l ≠ [] → foldr Nat.max 0 l ∈ l.
Proof.
  induction l as [|y l IH]; intros Hne; [done|]. simpl.
  destruct l as [|z l]; [simpl; rewrite Nat.max_0_r; by left|].
  destruct (Nat.max_spec y (foldr Nat.max 0 (z :: l))) as [[_ ->]|[_ ->]].
  - right. by apply IH.
  - by left.
Qed.

Lemma max_level_of_ge lv x v : lv !! x = Some v → v ≤ max_level_of lv.
Proof.
  intros Hx. apply foldr_max_ge. apply list_elem_of_fmap. exists (x, v).
  split; [done|]. by apply elem_of_map_to_list.
Qed.

Lemma max_level_of_attained (lv : gmap string nat) :
  lv ≠ ∅ → ∃ x, lv !! x = Some (max_level_of lv).
Proof.
  intros Hne. unfold max_level_of, py_max.
  assert (Hin : foldr Nat.max 0 (snd <$> map_to_list lv) ∈ snd <$> map_to_list lv).
  { apply foldr_max_in. intros Hnil. apply fmap_nil_inv in Hnil.
    apply Hne. by apply map_to_list_empty_iff. }
  apply list_elem_of_fmap in Hin as ([x v] & Hv & Hxv). simpl in Hv.
  exists x. rewrite Hv. by apply elem_of_map_to_list.
Qed.

Lemma collect_length D :
  length (collect D).2 = sum_list ((λ kv : string * gset string, size kv.2) <$> map_to_list D).
Proof.
  unfold collect. generalize (map_to_list D) as items.
  assert (Hgen : ∀ (items : list (string * gset string)) (N : gset string)
      (R : list (string * string)), length (foldl (λ acc kv,
      let prop := short_name kv.1 in
      foldl (λ acc2 dep_uri,
          let dep := short_name dep_uri in
          ({[dep]} ∪ acc2.1, acc2.2 ++ [(dep, prop)]))
        ({[prop]} ∪ acc.1, acc.2) (elements kv.2)) (N, R) items).2 =
      length R + sum_list ((λ kv : string * gset string, size kv.2) <$> items)).
  { induction items as [|[p S] items IH]; intros N R; simpl; [lia|].
    rewrite collect_inner, IH, length_app, length_fmap.
    assert (Hs : size S = length (elements S)) by done. rewrite Hs. simpl.
    rewrite Nat.add_assoc. reflexivity. }
  intros items. by rewrite Hgen.
Qed.

End LevelMoreFacts.

Module LevelExtras.
Import PyStr Analyzer AnalyzerFacts Levels LevelsFacts LevelMoreFacts.

(** [_calculate_dependency_levels] returns as [nodes] the short names of
    the relations of the graph, gives a level to every node and to nothing
    else, and returns as [max_level] the largest level, or 0 when there is no
    node. *)
Theorem levels_domain_max (iter : gset string → list string)
    (Hiter : ∀ X x, x ∈ iter X ↔ x ∈ X) (D : gmap string (gset string)) :
  ∃ nodes rels levels max_level,
    calculate_dependency_levels iter D = Some (nodes, rels, levels, max_level) ∧
    (∀ x, x ∈ nodes ↔ ∃ A, A ∈ all_nodes D ∧ x = short_name A) ∧
    (∀ x, is_Some (levels !! x) ↔ x ∈ nodes) ∧
    (∀ x v, levels !! x = Some v → v ≤ max_level) ∧
    (nodes ≠ ∅ → ∃ x, levels !! x = Some max_level) ∧
    (nodes = ∅ → max_level = 0).
Proof.
  destruct (collect D) as [nodes rels] eqn:Hc.
  destruct (loop_levels_spec iter Hiter D nodes rels Hc) as (lvf & Hl & Hinv & _).
  unfold calculate_dependency_levels. rewrite Hc, Hl.
  set (levels := fill_default (iter nodes) lvf).
  assert (Hdom : ∀ x, is_Some (levels !! x) ↔ x ∈ nodes).
  { intros x. rewrite <-(Hiter nodes x). split.
    - intros [v Hv]. apply fill_default_lookup in Hv as [Hv|(_ & Hx & _)]; [|done].
      by destruct (Hinv x v Hv).
    - intros Hx. destruct (lvf !! x) as [v|] eqn:Hv.
      + exists v. apply fill_default_lookup. by left.
      + exists 0. apply fill_default_lookup. by right. }
  eexists _, _, _, _. split; [reflexivity|]. split_and!.
  - intros x. change nodes with (nodes, rels).1. rewrite <-Hc. apply collect_nodes.
  - done.
  - intros x v. apply max_level_of_ge.
  - intros Hne. apply max_level_of_attained. intros He. apply Hne.
    apply set_eq. intros x. split; [|set_solver]. intros Hx.
    apply Hdom in Hx. rewrite He, lookup_empty in Hx. by destruct Hx.
  - intros ->. assert (He : levels = ∅).
    { apply map_empty. intros x. destruct (levels !! x) eqn:Hx; [|done].
      assert (Hs : is_Some (levels !! x)) by (by rewrite Hx).
      apply Hdom in Hs. set_solver. }
    rewrite He. done.
Qed.

(** In the result of [_calculate_dependency_levels], a node at level
    [v + 1] has every dependency (a relation with that short name depends on
    one with the dependency's short name) at a level of at most [v], and one
    of them at level [v]: its level is one more than the highest level among
    its dependencies.  This holds for every graph, cyclic or not. *)
Theorem levels_one_above_dependencies (iter : gset string → list string)
    (Hiter : ∀ X x, x ∈ iter X ↔ x ∈ X) (D : gmap string (gset string)) :
  ∃ nodes rels levels max_level,
    calculate_dependency_levels iter D = Some (nodes, rels, levels, max_level) ∧
    ∀ t v, levels !! t = Some (S v) →
      (∀ A B, depends D A B → short_name A = t →
         ∃ w, levels !! short_name B = Some w ∧ w ≤ v) ∧
      (∃ A B, depends D A B ∧ short_name A = t ∧ levels !! short_name B = Some v).
Proof.
  destruct (collect D) as [nodes rels] eqn:Hc.
  destruct (loop_levels_spec iter Hiter D nodes rels Hc) as (lvf & Hl & Hinv & _).
  pose proof (tight_loop_levels iter D nodes rels lvf Hc Hl) as Ht.
  unfold calculate_dependency_levels. rewrite Hc, Hl.
  eexists _, _, _, _. split; [reflexivity|].
  intros t v Htv. apply fill_default_lookup in Htv as [Htv|(_ & _ & ?)]; [|lia].
  split.
  - intros A B HAB <-.
    apply depends_short, (short_depends_rg D nodes rels) in HAB; [|done].
    destruct (Hinv _ _ Htv) as (_ & _ & Hd). destruct (Hd _ HAB) as (w & Hw & Hlt).
    exists w. split; [|lia]. apply fill_default_lookup. by left.
  - destruct (Ht t v Htv) as (d & Hd & Hdv).
    apply (short_depends_rg D nodes rels) in Hd; [|done].
    apply short_depends_spec in Hd as (p & S & d' & HS & Hd' & -> & ->).
    exists p, d'. split; [by exists S|]. split; [done|].
    apply fill_default_lookup. by left.
Qed.


End LevelExtras.

Module GroupFacts.
Import PyStr Analyzer Levels AnalyzerOutputs.

Lemma group_pairs_go l (g0 : gmap nat (list string)) k :
  let g := foldl (λ (g : gmap nat (list string)) (kx : nat * string),
             <[kx.1 := default [] (g !! kx.1) ++ [kx.2]]> g) g0 l in
  default [] (g !! k) = default [] (g0 !! k) ++ (snd <$> filter (λ kx, kx.1 = k) l) ∧
  (is_Some (g !! k) ↔ is_Some (g0 !! k) ∨ ∃ x, (k, x) ∈ l).
Proof.
  revert g0. induction l as [|[k' x'] l IH]; intros g0; simpl.
  - rewrite app_nil_r. split; [done|]. split; [by left|].
    intros [?|(x & Hx)]; [done|by apply elem_of_nil in Hx].
  - destruct (IH (<[k' := default [] (g0 !! k') ++ [x']]> g0)) as [H1 H2]. split.
    + rewrite H1, filter_cons. destruct (decide (k = k')) as [->|Hk].
      * rewrite lookup_insert_eq, decide_True by done. simpl. by rewrite <-app_assoc.
      * rewrite lookup_insert_ne, decide_False by done. done.
    + rewrite H2. destruct (decide (k = k')) as [->|Hk].
      * rewrite lookup_insert_eq. split; [intros _; right; exists x'; by left|by eauto].
      * rewrite lookup_insert_ne by done. split.
        -- intros [?|(x & Hx)]; [by left|right; exists x; by right].
        -- intros [?|(x & Hx)]; [by left|right]. exists x.
           apply elem_of_cons in Hx as [[= -> _]|?]; [done|done].
Qed.

Lemma group_pairs_lookup l k :
  default [] (group_pairs l !! k) = snd <$> filter (λ kx, kx.1 = k) l.
Proof. unfold group_pairs. rewrite (proj1 (group_pairs_go l ∅ k)). by rewrite lookup_empty. Qed.

Lemma group_pairs_dom l k : is_Some (group_pairs l !! k) ↔ ∃ x, (k, x) ∈ l.
Proof.
  unfold group_pairs. rewrite (proj2 (group_pairs_go l ∅ k)). rewrite lookup_empty.
  split; [intros [[]|?]; [discriminate|done]|by right].
Qed.

Lemma sorted_keys_spec {V} (g : gmap nat V) :
  StronglySorted lt (sorted_keys g) ∧ NoDup (sorted_keys g) ∧
  ∀ k, k ∈ sorted_keys g ↔ is_Some (g !! k).
Proof.
  unfold sorted_keys.
  assert (Hp := merge_sort_Permutation Nat.le (fst <$> map_to_list g)).
  assert (Hnd : NoDup (merge_sort Nat.le (fst <$> map_to_list g))).
  { rewrite Hp. apply NoDup_fst_map_to_list. }
  assert (Hs : StronglySorted Nat.le (merge_sort Nat.le (fst <$> map_to_list g))).
  { apply StronglySorted_merge_sort; first [apply _|intros ??; lia]. }
  split_and!.
  - clear Hp. revert Hs Hnd. generalize (merge_sort Nat.le (fst <$> map_to_list g)).
    intros l Hs. induction Hs as [|x l Hs IH Hall]; intros Hnd; constructor.
    + apply IH. by apply NoDup_cons in Hnd as [_ ?].
    + apply NoDup_cons in Hnd as [Hx _]. apply Forall_forall. intros y Hy.
      rewrite Forall_forall in Hall. specialize (Hall y Hy).
      assert (x ≠ y) by (intros ->; by apply Hx). lia.
  - done.
  - intros k. rewrite Hp, list_elem_of_fmap. split.
    + intros ([k' v] & -> & Hkv). apply elem_of_map_to_list in Hkv. by exists v.
    + intros [v Hv]. exists (k, v). split; [done|]. by apply elem_of_map_to_list.
Qed.

Lemma sorted_strs_perm l : sorted_strs l ≡ₚ l.
Proof. apply merge_sort_Permutation. Qed.

#[local] Instance str_le_total : Total str_le.
Proof. intros a b. unfold str_le. apply String.leb_total. Qed.

Lemma sorted_strs_sorted l : Sorted str_le (sorted_strs l).
Proof. apply Sorted_merge_sort. by apply str_le_total. Qed.

(** Partition of a list by a key function. *)
Lemma concat_partition {A K} `{EqDecision K} (f : A → K) (Ks : list K) (l : list A) :
  NoDup Ks → (∀ x, x ∈ l → f x ∈ Ks) →
  concat ((λ k, filter (λ x, f x = k) l) <$> Ks) ≡ₚ l.
Proof.
  revert l. induction Ks as [|k Ks IH]; intros l Hnd Hin; simpl.
  - destruct l as [|x l]; [done|]. exfalso. specialize (Hin x (list_elem_of_here _ _)).
    by apply elem_of_nil in Hin.
  - apply NoDup_cons in Hnd as [Hk Hnd].
    rewrite <-(filter_app_complement (λ x, f x = k) l) at 2. f_equiv.
    rewrite <-(IH (filter (λ x, ¬ f x = k) l)); [|done|].
    + apply reflexive_eq. f_equal. apply list_fmap_ext. intros i k' Hk'.
      rewrite list_filter_filter. apply list_filter_iff. intros x. split.
      * intros Hx. split; [done|]. rewrite Hx. intros ->. apply Hk.
        by eapply list_elem_of_lookup_2.
      * by intros [? _].
    + intros x Hx. apply list_elem_of_filter in Hx as [Hx Hxl].
      specialize (Hin x Hxl). apply elem_of_cons in Hin as [?|?]; [done|done].
Qed.

Lemma concat_fmap_perm {A B} (F G : A → list B) (l : list A) :
  (∀ x, x ∈ l → F x ≡ₚ G x) → concat (F <$> l) ≡ₚ concat (G <$> l).
Proof.
  induction l as [|x l IH]; intros H; simpl; [done|].
  f_equiv; [apply H; by left|]. apply IH. intros y Hy. apply H. by right.
Qed.

Lemma pair_snd_filter (l : list (nat * string)) k :
  pair k <$> (snd <$> filter (λ kx, kx.1 = k) l) = filter (λ kx, kx.1 = k) l.
Proof.
  induction l as [|[k' x] l IH]; [done|]. rewrite filter_cons.
  case_decide as Hk; simpl in Hk; [|done]. subst. rewrite !fmap_cons, IH. done.
Qed.

(** The groups of [group_pairs l], each sorted, in the order of their keys,
    hold the pairs of [l] once each. *)
Lemma group_blocks_perm (l : list (nat * string)) :
  concat ((λ k, pair k <$> sorted_strs (default [] (group_pairs l !! k)))
            <$> sorted_keys (group_pairs l)) ≡ₚ l.
Proof.
  destruct (sorted_keys_spec (group_pairs l)) as (_ & Hnd & Hin).
  rewrite (concat_fmap_perm _ (λ k, filter (λ kx : nat * string, kx.1 = k) l)).
  - apply concat_partition; [done|]. intros [k x] Hkx. apply Hin, group_pairs_dom.
    by exists x.
  - intros k _. rewrite sorted_strs_perm, group_pairs_lookup. by rewrite pair_snd_filter.
Qed.

Lemma group_pairs_key l k x : x ∈ default [] (group_pairs l !! k) ↔ (k, x) ∈ l.
Proof.
  rewrite group_pairs_lookup, list_elem_of_fmap. split.
  - intros ([k' x'] & -> & Hf). apply list_elem_of_filter in Hf as [Hk Hf].
    simpl in *. by subst.
  - intros Hkx. exists (k, x). split; [done|]. by apply list_elem_of_filter.
Qed.

End GroupFacts.

Module OutputExtras.
Import PyStr Analyzer Levels AnalyzerOutputs GroupFacts.

(** [write_ordered_relationships] writes two header lines, then one block
    per level in increasing order: a heading and the relationships of that
    level in sorted order.  Every relationship it is given is written once,
    under the level of its short name (0 when it has none). *)
Theorem ordered_relationships_grouped (timestamp : string) (relationships : list string)
    (dependency_levels : gmap string nat) :
  ∃ blocks : list (nat * list string),
    ordered_relationships_writes timestamp relationships dependency_levels =
      ["# Ordered Relationships by Dependency Level" +:+ nl;
       "# Generated at: " +:+ timestamp +:+ nl +:+ nl] ++
      concat ((λ b : nat * list string,
          (if b.1 =? 0 then "## Level 0 (Base relationships - no dependencies)" +:+ nl
           else "## Level " +:+ pretty b.1 +:+ " (Dependency Depth: " +:+ pretty b.1 +:+ ")" +:+ nl) ::
          ((λ rel, "- " +:+ short_name rel +:+ " (" +:+ rel +:+ ")" +:+ nl) <$> b.2) ++ [nl])
        <$> blocks) ∧
    StronglySorted lt (fst <$> blocks) ∧
    (∀ b, b ∈ blocks → Sorted str_le b.2) ∧
    concat ((λ b : nat * list string, pair b.1 <$> b.2) <$> blocks) ≡ₚ
      (λ rel, (default 0 (dependency_levels !! short_name rel), rel)) <$> relationships.
Proof.
  set (l := (λ rel, (default 0 (dependency_levels !! short_name rel), rel)) <$> relationships).
  set (g := group_pairs l).
  exists ((λ k, (k, sorted_strs (default [] (g !! k)))) <$> sorted_keys g).
  destruct (sorted_keys_spec g) as (Hss & _ & _).
  split_and!.
  - unfold ordered_relationships_writes. fold l g. f_equal. by rewrite <-list_fmap_compose.
  - by rewrite <-list_fmap_compose, list_fmap_id.
  - intros b (k & -> & _)%list_elem_of_fmap. apply sorted_strs_sorted.
  - rewrite <-list_fmap_compose. apply group_blocks_perm.
Qed.

End OutputExtras.

Module MermaidFacts.
Import PyStr Analyzer Levels AnalyzerOutputs ExtractFacts GroupFacts.

Lemma concat_fmap_ext_in {A B} (F G : A → list B) (l : list A) :
  (∀ x, x ∈ l → F x = G x) → concat (F <$> l) = concat (G <$> l).
Proof.
  induction l as [|x l IH]; intros H; [done|]. rewrite !fmap_cons. cbn [concat].
  rewrite (H x (list_elem_of_here _ _)), IH; [done|]. intros y Hy. apply H. by right.
Qed.

Lemma concat_fmap_filter {A B} (P : A → Prop) `{∀ x, Decision (P x)} (F : A → list B) l :
  (∀ x, ¬ P x → F x = []) → concat (F <$> l) = concat (F <$> filter P l).
Proof.
  induction l as [|x l IH]; intros HF; [done|]. rewrite filter_cons.
  case_decide as Hx; rewrite !fmap_cons; cbn [concat]; [by rewrite IH|].
  rewrite HF by done. simpl. by apply IH.
Qed.

Lemma fmap_concat' {A B} (f : A → B) (L : list (list A)) :
  f <$> concat L = concat ((λ l : list A, f <$> l) <$> L).
Proof. induction L as [|l L IH]; [done|]. rewrite !fmap_cons. cbn [concat]. by rewrite fmap_app, IH. Qed.

Lemma concat_fmap_concat {A B} (h : A → list B) (L : list (list A)) :
  concat (h <$> concat L) = concat ((λ l, concat (h <$> l)) <$> L).
Proof.
  induction L as [|l L IH]; [done|]. rewrite !fmap_cons. cbn [concat].
  by rewrite fmap_app, concat_app, IH.
Qed.

Lemma concat_fmap_Permutation {A B} (h : A → list B) (l l' : list A) :
  l ≡ₚ l' → concat (h <$> l) ≡ₚ concat (h <$> l').
Proof.
  induction 1 as [|x l l' _ IH|x y l|l l' l'' _ IH1 _ IH2]; rewrite ?fmap_cons; cbn [concat].
  - done.
  - by f_equiv.
  - rewrite !app_assoc. f_equiv. apply Permutation_app_comm.
  - by rewrite IH1, IH2.
Qed.

Lemma snd_filter_pairs {A} `{EqDecision A} (lv : string → A) (L : list string) k :
  snd <$> filter (λ kx : A * string, kx.1 = k) ((λ n, (lv n, n)) <$> L) =
  filter (λ n, lv n = k) L.
Proof.
  induction L as [|n L IH]; [done|]. rewrite fmap_cons, !filter_cons. simpl.
  case_decide; [|done]. rewrite fmap_cons. by rewrite IH.
Qed.

(** Collecting, for each target in a duplicate-free list, the pairs with
    that target. *)
Lemma concat_by_target (rels : list (string * string)) (N : list string) :
  NoDup N →
  concat ((λ n, filter (λ st : string * string, st.2 = n) rels) <$> N) ≡ₚ
  filter (λ st : string * string, st.2 ∈ N) rels.
Proof.
  intros Hnd.
  rewrite <-(concat_partition snd N (filter (λ st : string * string, st.2 ∈ N) rels)).
  2: done.
  2: by intros x [? _]%list_elem_of_filter.
  apply reflexive_eq. apply concat_fmap_ext_in. intros n Hn.
  rewrite list_filter_filter. apply list_filter_iff. intros st. split.
  - intros Hst. split; [done|]. by rewrite Hst.
  - by intros [? _].
Qed.

Lemma node_line_class level node :
  level ≠ 0 → node_line level node = "    " +:+ node +:+ ":::" +:+ level_class level.
Proof. intros H. destruct level as [|[|[|level]]]; [done|reflexivity..]. Qed.

Lemma sorted_keys_zero {V} (g : gmap nat V) v :
  g !! 0 = Some v → ∃ K', sorted_keys g = 0 :: K' ∧ ∀ k, k ∈ K' → k ≠ 0.
Proof.
  intros Hv. destruct (sorted_keys_spec g) as (Hs & Hnd & Hin).
  assert (H0 : 0 ∈ sorted_keys g) by (apply Hin; by eexists).
  destruct (sorted_keys g) as [|k K'] eqn:HK; [by apply elem_of_nil in H0|].
  apply StronglySorted_inv in Hs as [_ Hall]. rewrite Forall_forall in Hall.
  apply elem_of_cons in H0 as [<-|H0]; [|specialize (Hall 0 H0); lia].
  exists K'. split; [done|]. intros k Hk ->. specialize (Hall 0 Hk). lia.
Qed.


Lemma decl_blocks_eq (g : gmap nat (list string)) (rest : list string) :
  match g !! 0 with
  | Some ns =>
      ["    %% Level 0 nodes (no dependencies)"] ++
      ((λ node, "    " +:+ node +:+ ":::Level0") <$> sorted_strs ns) ++ [""]
  | None => []
  end ++
  concat ((λ level,
      if level =? 0 then []
      else ("    %% Level " +:+ pretty level +:+ " nodes") ::
           (node_line level <$> sorted_strs (default [] (g !! level))) ++ [""])
    <$> sorted_keys g) ++ rest =
  concat ((λ k, node_decl_block k (sorted_strs (default [] (g !! k)))) <$> sorted_keys g) ++ rest.
Proof.
  destruct (sorted_keys_spec g) as (_ & _ & HKin). rewrite app_assoc. f_equal.
  destruct (g !! 0) as [ns|] eqn:H0.
  - destruct (sorted_keys_zero g ns H0) as (K' & HK' & HK'0).
    rewrite HK', !fmap_cons. cbn [concat]. rewrite H0. cbn [Nat.eqb]. rewrite app_nil_l.
    f_equal; try reflexivity.
    apply concat_fmap_ext_in. intros k Hk. specialize (HK'0 k Hk).
    rewrite (proj2 (Nat.eqb_neq k 0)) by done. unfold node_decl_block.
    rewrite (proj2 (Nat.eqb_neq k 0)) by done. f_equal. f_equal.
    apply list_fmap_ext. intros _ n _. by apply node_line_class.
  - simpl. apply concat_fmap_ext_in. intros k Hk.
    assert (k ≠ 0) by (intros ->; apply HKin in Hk as [? Hk]; congruence).
    rewrite (proj2 (Nat.eqb_neq k 0)) by done. unfold node_decl_block.
    rewrite (proj2 (Nat.eqb_neq k 0)) by done. f_equal. f_equal.
    apply list_fmap_ext. intros _ n _. by apply node_line_class.
Qed.

Lemma edge_blocks_eq (g : gmap nat (list string)) (rels : list (string * string)) :
  concat ((λ level,
      if level =? 0 then []
      else ("        %% Level " +:+ pretty level +:+ " dependencies") ::
           concat ((λ node,
               (λ st : string * string, "        " +:+ st.1 +:+ " --> " +:+ st.2) <$>
                 filter (λ st : string * string, st.2 = node) rels)
             <$> sorted_strs (default [] (g !! level))) ++ [""])
    <$> sorted_keys g) =
  concat ((λ b : nat * list (string * string), edge_block b.1 b.2) <$>
    ((λ k, (k, concat ((λ node, filter (λ st : string * string, st.2 = node) rels)
                  <$> sorted_strs (default [] (g !! k)))))
      <$> filter (λ l, l ≠ 0) (sorted_keys g))).
Proof.
  rewrite <-list_fmap_compose. rewrite (concat_fmap_filter (λ l, l ≠ 0)).
  - apply concat_fmap_ext_in. intros k [Hk _]%list_elem_of_filter.
    rewrite (proj2 (Nat.eqb_neq k 0)) by done. unfold compose, edge_block. simpl. f_equal.
    f_equal. rewrite fmap_concat', <-list_fmap_compose. done.
  - intros k Hk. apply dec_stable in Hk. subst. done.
Qed.

Lemma mermaid_lines_blocks (iter : gset string → list string) timestamp source_file nodes
    (relationships : list (string * string)) (dependency_levels : gmap string nat) max_level :
  let g := group_pairs ((λ node, (default 0 (dependency_levels !! node), node)) <$> iter nodes) in
  ∃ ctx,
    mermaid_lines iter timestamp source_file nodes relationships dependency_levels max_level =
      mermaid_header ++
      concat ((λ b : nat * list string, node_decl_block b.1 b.2) <$>
        ((λ k, (k, sorted_strs (default [] (g !! k)))) <$> sorted_keys g)) ++
      ["";
       "    subgraph Dependencies[" +:+ quoted "Dependencies" +:+ "]";
       "        direction LR";
       ""] ++
      concat ((λ b : nat * list (string * string), edge_block b.1 b.2) <$>
        ((λ k, (k, concat ((λ node, filter (λ st : string * string, st.2 = node) relationships)
                      <$> sorted_strs (default [] (g !! k)))))
          <$> filter (λ l, l ≠ 0) (sorted_keys g))) ++
      ["    end"] ++ ctx ∧
    (match source_file with Some f => f = "" | None => True end → ctx = []).
Proof.
  intros g. eexists. split.
  - unfold mermaid_lines. cbv zeta. rewrite decl_blocks_eq, edge_blocks_eq.
    rewrite <-(list_fmap_compose (λ k : nat, (k, sorted_strs (default [] (g !! k))))
      (λ b : nat * list string, node_decl_block b.1 b.2)).
    reflexivity.
  - destruct source_file as [f|]; simpl; [|done]. intros ->. reflexivity.
Qed.
End MermaidFacts.

Module MermaidExtras.
Import PyStr Analyzer Levels AnalyzerOutputs ExtractFacts GroupFacts MermaidFacts.

(** The Mermaid diagram is the fixed header, then the node declarations one
    block per level in increasing order (each block's nodes sorted, every
    node of [nodes] declared once with the class of its level), then the
    [Dependencies] subgraph holding one block per nonzero level in the same
    order, with each relationship whose target is a node of nonzero level
    drawn once, in the block of its target's level; the [Context] subgraph
    only follows when a non-empty source file is given. *)
Theorem mermaid_structure (iter : gset string → list string) (timestamp : string)
    (source_file : option string) (nodes : gset string)
    (relationships : list (string * string)) (dependency_levels : gmap string nat)
    (max_level : nat)
    (Hiter : ∀ x, x ∈ iter nodes ↔ x ∈ nodes) (Hnd : NoDup (iter nodes)) :
  ∃ (nblocks : list (nat * list string)) (eblocks : list (nat * list (string * string)))
    (ctx : list string),
    mermaid_lines iter timestamp source_file nodes relationships dependency_levels max_level =
      mermaid_header ++ concat ((λ b : nat * list string, node_decl_block b.1 b.2) <$> nblocks) ++
      ["";
       "    subgraph Dependencies[" +:+ quoted "Dependencies" +:+ "]";
       "        direction LR";
       ""] ++
      concat ((λ b : nat * list (string * string), edge_block b.1 b.2) <$> eblocks) ++
      ["    end"] ++ ctx ∧
    StronglySorted lt (fst <$> nblocks) ∧
    (∀ b, b ∈ nblocks → Sorted str_le b.2) ∧
    concat ((λ b : nat * list string, pair b.1 <$> b.2) <$> nblocks) ≡ₚ
      (λ n, (default 0 (dependency_levels !! n), n)) <$> iter nodes ∧
    fst <$> eblocks = filter (λ l, l ≠ 0) (fst <$> nblocks) ∧
    (∀ b, b ∈ eblocks → ∀ st, st ∈ b.2 → default 0 (dependency_levels !! st.2) = b.1) ∧
    concat (snd <$> eblocks) ≡ₚ
      filter (λ st : string * string,
        st.2 ∈ nodes ∧ default 0 (dependency_levels !! st.2) ≠ 0) relationships ∧
    (match source_file with Some f => f = "" | None => True end → ctx = []).
Proof.
  set (lv := λ n, default 0 (dependency_levels !! n)).
  set (pairs := (λ node, (lv node, node)) <$> iter nodes).
  set (g := group_pairs pairs).
  set (K := sorted_keys g).
  set (E := λ node, filter (λ st : string * string, st.2 = node) relationships).
  destruct (sorted_keys_spec g) as (Hss & HKnd & HKin). fold K in Hss, HKnd, HKin.
  exists ((λ k, (k, sorted_strs (default [] (g !! k)))) <$> K).
  exists ((λ k, (k, concat (E <$> sorted_strs (default [] (g !! k))))) <$> filter (λ l, l ≠ 0) K).
  destruct (mermaid_lines_blocks iter timestamp source_file nodes relationships
    dependency_levels max_level) as (ctx & Hlines & Hctx).
  exists ctx. split_and!.
  - exact Hlines.
  - by rewrite <-list_fmap_compose, list_fmap_id.
  - intros b (k & -> & _)%list_elem_of_fmap. apply sorted_strs_sorted.
  - rewrite <-list_fmap_compose. apply group_blocks_perm.
  - by rewrite <-!list_fmap_compose, !list_fmap_id.
  - intros b (k & -> & Hk)%list_elem_of_fmap st Hst. simpl in *.
    apply elem_of_concat in Hst as (l & Hst & Hl).
    apply list_elem_of_fmap in Hl as (n & -> & Hn).
    apply list_elem_of_filter in Hst as [-> _].
    rewrite sorted_strs_perm in Hn. apply group_pairs_key in Hn.
    apply list_elem_of_fmap in Hn as (n' & Heq & _). by inversion Heq.
  - set (L := iter nodes). fold L in pairs.
    rewrite <-list_fmap_compose. unfold compose. simpl.
    rewrite (concat_fmap_perm _ (λ k, concat (E <$> filter (λ n, lv n = k) L))).
    2:{ intros k _. rewrite concat_fmap_Permutation by apply sorted_strs_perm.
        unfold g. rewrite group_pairs_lookup. unfold pairs. by rewrite snd_filter_pairs. }
    change ((λ k, concat (E <$> filter (λ n, lv n = k) L)) <$> filter (λ l, l ≠ 0) K) with
      (((λ l, concat (E <$> l)) ∘ (λ k, filter (λ n, lv n = k) L)) <$> filter (λ l, l ≠ 0) K).
    rewrite list_fmap_compose, <-concat_fmap_concat.
    rewrite (concat_fmap_Permutation E _ (filter (λ n, lv n ≠ 0) L)).
    + unfold E. rewrite concat_by_target by (apply NoDup_filter; done).
      apply reflexive_eq. apply list_filter_iff. intros st.
      rewrite list_elem_of_filter. unfold L. rewrite Hiter. unfold lv. tauto.
    + rewrite <-(concat_partition lv (filter (λ l, l ≠ 0) K) (filter (λ n, lv n ≠ 0) L)).
      * apply reflexive_eq. f_equal. apply list_fmap_ext. intros i k Hk.
        apply list_elem_of_lookup_2, list_elem_of_filter in Hk as [Hk _].
        rewrite list_filter_filter. apply list_filter_iff. intros n. split.
        -- intros Hn. split; [done|]. by rewrite Hn.
        -- by intros [? _].
      * by apply NoDup_filter.
      * intros n [Hn HnL]%list_elem_of_filter. apply list_elem_of_filter.
        split; [done|]. apply HKin. unfold g. apply group_pairs_dom. exists n.
        unfold pairs. apply list_elem_of_fmap. by exists n.
  - exact Hctx.
Qed.

End MermaidExtras.

Module GraphDataFacts.
Import PyStr Analyzer Levels AnalyzerOutputs GroupFacts.

Lemma fst_pairs {V} (F : string → V) (S : list string) : fst <$> ((λ n, (n, F n)) <$> S) = S.
Proof. induction S as [|n S IH]; [done|]. rewrite !fmap_cons. simpl. by rewrite IH. Qed.

Lemma assoc_insert_fresh {V} k (v : V) (l : list (string * V)) :
  k ∉ fst <$> l → assoc_insert k v l = l ++ [(k, v)].
Proof.
  induction l as [|[k' v'] l IH]; intros Hk; [done|]. simpl.
  destruct (String.eqb_spec k k') as [->|Hne].
  - exfalso. apply Hk. rewrite fmap_cons. by left.
  - rewrite IH; [done|]. intros H. apply Hk. rewrite fmap_cons. by right.
Qed.

Lemma foldl_assoc_insert_fresh {A V} (key : A → string) (val : A → V) (xs : list A)
    (acc : list (string * V)) :
  NoDup (key <$> xs) → (∀ x, x ∈ xs → key x ∉ fst <$> acc) →
  foldl (λ ns x, assoc_insert (key x) (val x) ns) acc xs =
  acc ++ ((λ x, (key x, val x)) <$> xs).
Proof.
  revert acc. induction xs as [|x xs IH]; intros acc Hnd Hfresh; simpl.
  { by rewrite app_nil_r. }
  rewrite fmap_cons in Hnd. apply NoDup_cons in Hnd as [Hx Hnd].
  rewrite assoc_insert_fresh by (apply Hfresh; by left).
  rewrite IH; [by rewrite <-app_assoc|done|].
  intros y Hy. rewrite fmap_app, elem_of_app. intros [Hin|Hin].
  - apply (Hfresh y); [by right|done].
  - simpl in Hin. apply list_elem_of_singleton in Hin. apply Hx. rewrite <-Hin.
    by apply list_elem_of_fmap_2.
Qed.

Lemma assoc_modify_pairs {V} k (f : V → V) (F : string → V) (S : list string) :
  NoDup S →
  assoc_modify k f ((λ n, (n, F n)) <$> S) =
  (λ n, (n, if decide (n = k) then f (F n) else F n)) <$> S.
Proof.
  induction S as [|n S IH]; intros Hnd; [done|]. apply NoDup_cons in Hnd as [Hn Hnd].
  rewrite !fmap_cons. simpl. destruct (String.eqb_spec k n) as [->|Hne].
  - rewrite decide_True by done. f_equal. apply list_fmap_ext. intros i m Hm.
    rewrite decide_False; [done|]. intros ->. apply Hn. by eapply list_elem_of_lookup_2.
  - rewrite decide_False by congruence. by rewrite IH.
Qed.

Section Adjacency.
Variable nodes : gset string.
Variable lv : string → nat.
Variable S : list string.
Hypothesis HS : NoDup S.
Hypothesis HSmem : ∀ x, x ∈ S ↔ x ∈ nodes.

Lemma adjacency_fold (rels R : list (string * string)) :
  foldl adjacency_step
    ((λ n, (n, mk_node_entry (lv n)
        (fst <$> filter (λ st : string * string, st.2 = n ∧ st.1 ∈ nodes) R)
        (snd <$> filter (λ st : string * string, st.1 = n ∧ st.2 ∈ nodes) R))) <$> S) rels =
  (λ n, (n, mk_node_entry (lv n)
        (fst <$> filter (λ st : string * string, st.2 = n ∧ st.1 ∈ nodes) (R ++ rels))
        (snd <$> filter (λ st : string * string, st.1 = n ∧ st.2 ∈ nodes) (R ++ rels)))) <$> S.
Proof.
  revert R. induction rels as [|[s t] rels IH]; intros R; simpl.
  { by rewrite app_nil_r. }
  rewrite (cons_middle (s, t) R rels), app_assoc, <-IH. f_equal.
  unfold adjacency_step. rewrite fst_pairs.
  destruct (decide (s ∈ nodes)) as [Hs|Hs]; destruct (decide (t ∈ nodes)) as [Ht|Ht].
  - rewrite !bool_decide_eq_true_2 by (by apply HSmem). simpl.
    rewrite !assoc_modify_pairs by done.
    apply list_fmap_ext. intros i n Hn. f_equal.
    rewrite !filter_app, !filter_cons, !filter_nil, !fmap_app. simpl.
    repeat case_decide; unfold add_dependency_entry, add_dependent; simpl;
      rewrite ?app_nil_r; try done; exfalso; naive_solver.
  - rewrite (bool_decide_eq_false_2 (t ∈ S)) by (by rewrite HSmem). rewrite andb_false_r.
    apply list_fmap_ext. intros i n Hn. apply list_elem_of_lookup_2, HSmem in Hn. f_equal.
    rewrite !filter_app, !filter_cons, !filter_nil, !fmap_app. simpl.
    repeat case_decide; simpl; rewrite ?app_nil_r; try done; exfalso; naive_solver.
  - rewrite (bool_decide_eq_false_2 (s ∈ S)) by (by rewrite HSmem). simpl.
    apply list_fmap_ext. intros i n Hn. apply list_elem_of_lookup_2, HSmem in Hn. f_equal.
    rewrite !filter_app, !filter_cons, !filter_nil, !fmap_app. simpl.
    repeat case_decide; simpl; rewrite ?app_nil_r; try done; exfalso; naive_solver.
  - rewrite (bool_decide_eq_false_2 (s ∈ S)) by (by rewrite HSmem). simpl.
    apply list_fmap_ext. intros i n Hn. apply list_elem_of_lookup_2, HSmem in Hn. f_equal.
    rewrite !filter_app, !filter_cons, !filter_nil, !fmap_app. simpl.
    repeat case_decide; simpl; rewrite ?app_nil_r; try done; exfalso; naive_solver.
Qed.
End Adjacency.

Lemma level_key_inj (l1 l2 : nat) : "level_" +:+ pretty l1 = "level_" +:+ pretty l2 → l1 = l2.
Proof. intros H. apply (inj pretty). by apply (inj (String.app "level_")) in H. Qed.

End GraphDataFacts.

Module GraphDataExtras.
Import PyStr Analyzer Levels AnalyzerOutputs GroupFacts GraphDataFacts.

(** [dump_graph_data] lists the nodes in sorted order, each with its level
    (0 when it has none), the sources of the relationships into it and the
    targets of the relationships out of it, in the order of the
    relationships; a relationship counts only when both its ends are
    nodes. *)
Theorem dump_graph_nodes (iter : gset string → list string) (nodes : gset string)
    (relationships : list (string * string)) (dependency_levels : gmap string nat)
    (Hiter : ∀ x, x ∈ iter nodes ↔ x ∈ nodes) (Hnd : NoDup (iter nodes)) :
  gd_nodes (graph_data_of iter nodes relationships dependency_levels) =
    (λ n, (n, mk_node_entry (default 0 (dependency_levels !! n))
        (fst <$> filter (λ st : string * string, st.2 = n ∧ st.1 ∈ nodes) relationships)
        (snd <$> filter (λ st : string * string, st.1 = n ∧ st.2 ∈ nodes) relationships)))
    <$> sorted_strs (iter nodes).
Proof.
  assert (HS : NoDup (sorted_strs (iter nodes))) by (by rewrite sorted_strs_perm).
  assert (HSmem : ∀ x, x ∈ sorted_strs (iter nodes) ↔ x ∈ nodes)
    by (intros x; by rewrite sorted_strs_perm).
  assert (H0 : foldl (λ ns node, assoc_insert node
                 (mk_node_entry (default 0 (dependency_levels !! node)) [] []) ns)
               [] (sorted_strs (iter nodes)) =
               [] ++ ((λ n, (n, mk_node_entry (default 0 (dependency_levels !! n)) [] []))
                        <$> sorted_strs (iter nodes))).
  { apply (foldl_assoc_insert_fresh (λ x, x)
      (λ node, mk_node_entry (default 0 (dependency_levels !! node)) [] [])).
    - by rewrite list_fmap_id.
    - intros x _ Hx. by apply elem_of_nil in Hx. }
  unfold graph_data_of. cbv zeta. cbn [gd_nodes]. rewrite H0, app_nil_l.
  exact (adjacency_fold nodes (λ n, default 0 (dependency_levels !! n))
           (sorted_strs (iter nodes)) HS HSmem relationships []).
Qed.

(** The [levels_ordered] entry of [dump_graph_data] has one key
    [level_<l>] for each level [l] some node has, in increasing
    order, and maps it to the nodes of that level, sorted and
    without repetition. *)
Theorem dump_graph_levels_ordered (iter : gset string → list string) (nodes : gset string)
    (relationships : list (string * string)) (dependency_levels : gmap string nat) :
  ∃ (Ks : list nat) (Ls : nat → list string),
    gd_levels_ordered (graph_data_of iter nodes relationships dependency_levels) =
      (λ l, ("level_" +:+ pretty l, Ls l)) <$> Ks ∧
    StronglySorted lt Ks ∧
    (∀ l, l ∈ Ks ↔ ∃ x, dependency_levels !! x = Some l) ∧
    (∀ l, Sorted str_le (Ls l) ∧ NoDup (Ls l) ∧
          ∀ x, x ∈ Ls l ↔ dependency_levels !! x = Some l).
Proof.
  set (pairs := (λ kv : string * nat, (kv.2, kv.1)) <$> map_to_list dependency_levels).
  set (g := group_pairs pairs).
  destruct (sorted_keys_spec g) as (Hss & HKnd & HKin).
  assert (Hpair : ∀ l x, (l, x) ∈ pairs ↔ dependency_levels !! x = Some l).
  { intros l x. unfold pairs. rewrite list_elem_of_fmap, <-elem_of_map_to_list. split.
    - intros ([x' l'] & Heq & Hin). simpl in Heq. by inversion Heq; subst.
    - intros Hin. by exists (x, l). }
  exists (sorted_keys g), (λ l, sorted_strs (default [] (g !! l))). split_and!.
  - unfold graph_data_of. cbv zeta. cbn [gd_levels_ordered]. fold pairs g.
    rewrite (foldl_assoc_insert_fresh (λ l, "level_" +:+ pretty l)
               (λ l, sorted_strs (default [] (g !! l)))).
    + done.
    + apply NoDup_fmap_2_strong; [|done]. intros x y _ _. apply level_key_inj.
    + intros x _ Hx. by apply elem_of_nil in Hx.
  - done.
  - intros l. rewrite HKin. unfold g. rewrite group_pairs_dom. split.
    + intros [x Hx]. exists x. by apply Hpair.
    + intros [x Hx]. exists x. by apply Hpair.
  - intros l. split_and!.
    + apply sorted_strs_sorted.
    + rewrite sorted_strs_perm. unfold g. rewrite group_pairs_lookup.
      apply NoDup_fmap_2_strong.
      * intros [l1 x1] [l2 x2] H1 H2 Hx. simpl in Hx. subst x2.
        apply list_elem_of_filter in H1 as [Hl1 H1], H2 as [Hl2 H2]. simpl in *.
        by subst.
      * apply NoDup_filter. unfold pairs. apply NoDup_fmap_2_strong.
        -- intros [x1 l1] [x2 l2] _ _ Heq. by inversion Heq.
        -- apply NoDup_map_to_list.
    + intros x. rewrite sorted_strs_perm. unfold g. rewrite group_pairs_key. apply Hpair.
Qed.

End GraphDataExtras.

Module MainFacts.
Import PyStr Analyzer AnalyzerFacts Levels LevelsFacts AnalyzerOutputs.

Section Outcome.
Variable iter : gset string → list string.
Hypothesis Hiter : ∀ X x, x ∈ iter X ↔ x ∈ X.

(** On a fresh analyser the sort returns normally exactly when the
    dependencies have no cycle. *)
Lemma topological_sort_fresh_outcome D :
  (acyclic D → ∃ a, topological_sort iter (fresh D) = Ok a) ∧
  ((∃ x, tc (depends D) x x) → ∀ a, topological_sort iter (fresh D) ≠ Ok a).
Proof.
  split.
  - intros Hacyc. destruct (topological_sort iter (fresh D)) as [a|a|] eqn:Hrun.
    + by exists a.
    + exfalso. destruct (topological_sort_cycle iter Hiter (fresh D) a eq_refl Hrun) as [x Hx].
      by apply (Hacyc x).
    + by destruct (topological_sort_not_oof iter Hiter (fresh D)).
  - intros [x Hx] a' Hrun.
    destruct (topological_sort_ok iter Hiter (fresh D) a' Hrun)
      as ((_ & Hnd & Hsv & _ & _ & Hord) & _ & Hall).
    simpl in *.
    assert (Hxn : x ∈ all_nodes D).
    { inversion Hx as [? ? H|? ? ? H _]; subst;
        exact (proj1 (depends_all_nodes _ _ _ H)). }
    assert (Hin : ∀ z, z ∈ all_nodes D → z ∈ sorted_relations a').
    { intros z Hz. apply Hsv, Hall, Hz. }
    destruct (list_elem_of_lookup_1 _ _ (Hin x Hxn)) as [i Hi].
    destruct (topo_ordered_tc _ _ x x i Hord Hin Hx Hi) as (j & Hj & Hjx).
    pose proof (NoDup_lookup _ i j x Hnd Hi Hjx). lia.
Qed.

Lemma calculate_dependency_levels_some D :
  ∃ res, calculate_dependency_levels iter D = Some res.
Proof.
  unfold calculate_dependency_levels. destruct (collect D) as [nodes rels] eqn:Hc.
  destruct (loop_levels_spec iter Hiter D nodes rels Hc) as (lvf & -> & _). by eexists.
Qed.
End Outcome.

End MainFacts.

Module MainExtras.
Import PyStr Analyzer Levels AnalyzerOutputs MainFacts.


End MainExtras.

Module PyStrFacts.
Import PyStr StrFacts.

Lemma prefix_spec p s : String.prefix p s = true ↔ ∃ b, s = p +:+ b.
Proof.
  revert p. induction s as [|c s IH]; intros [|a p]; simpl.
  - split; [by exists ""|done].
  - split; [discriminate|intros [b Hb]; discriminate].
  - split; [by exists (String c s)|done].
  - destruct (ascii_dec a c) as [->|Hac].
    + rewrite IH. split; intros [b Hb]; exists b; [by subst|by injection Hb].
    + split; [discriminate|intros [b Hb]; injection Hb; congruence].
Qed.

Lemma contains_spec sub s : contains sub s = true ↔ ∃ a b, s = a +:+ sub +:+ b.
Proof.
  induction s as [|c s IH]; cbn [contains].
  - rewrite orb_false_r, prefix_spec. split.
    + intros [b Hb]. by exists "", b.
    + intros [[|x a] [b Hb]]; [by exists b|discriminate].
  - rewrite orb_true_iff, prefix_spec, IH. split.
    + intros [[b Hb]|(a & b & Hab)].
      * by exists "", b.
      * exists (String c a), b. by rewrite Hab.
    + intros [[|x a] [b Hb]].
      * left. by exists b.
      * right. injection Hb as -> Hb. by exists a, b.
Qed.

Lemma contains_chars sub s d :
  contains sub s = true → d ∈ chars_of sub → d ∈ chars_of s.
Proof.
  intros (a & b & ->)%contains_spec Hd.
  rewrite !chars_of_app. apply elem_of_app. right. apply elem_of_app. by left.
Qed.

End PyStrFacts.

Module RunnerMoreFacts.
Import PyStr PyRepr Runner StrFacts PyStrFacts.

Lemma ensure_prefix_keeps q :
  contains "PREFIX :" q = true → ensure_prefix q = q.
Proof. intros Hq. unfold ensure_prefix. by rewrite Hq, andb_false_r. Qed.

Lemma normalize_value_idem v :
  normalize_value (VStr (normalize_value v)) = normalize_value v.
Proof.
  unfold normalize_value at 2. destruct (contains family_ns (py_str v)) eqn:Hc.
  - unfold normalize_value. cbn [py_str].
    destruct (contains family_ns (String ":" (last_of (split "#" (py_str v))))) eqn:Hc';
      [|by rewrite Hc]. exfalso.
    assert (Hh : "#"%char ∈ chars_of family_ns) by (apply (bool_decide_unpack _); vm_compute; reflexivity).
    pose proof (contains_chars _ _ _ Hc' Hh) as Hd. simpl in Hd.
    apply elem_of_cons in Hd as [Hd|Hd]; [discriminate|].
    by apply last_of_split_chars in Hd as [_ ?].
  - unfold normalize_value. cbn [py_str]. by rewrite Hc.
Qed.

Lemma normalize_row_idem r : normalize_row (normalize_row r) = normalize_row r.
Proof.
  unfold normalize_row. rewrite <-map_fmap_compose.
  apply map_fmap_ext. intros k v _. simpl. by rewrite normalize_value_idem.
Qed.


Lemma zlist_leb_total a b : zlist_leb a b = true ∨ zlist_leb b a = true.
Proof.
  revert b. induction a as [|x a IH]; intros [|y b]; simpl; auto.
  destruct (Z.ltb_spec x y); [auto|]. destruct (Z.ltb_spec y x); [auto|].
  assert (x = y) as -> by lia. rewrite Z.eqb_refl. apply IH.
Qed.

Lemma zlist_leb_trans a b c :
  zlist_leb a b = true → zlist_leb b c = true → zlist_leb a c = true.
Proof.
  revert b c. induction a as [|x a IH]; intros [|y b] [|z c]; simpl; try done.
  destruct (Z.ltb_spec x y), (Z.eqb_spec x y), (Z.ltb_spec y z), (Z.eqb_spec y z),
    (Z.ltb_spec x z), (Z.eqb_spec x z); try done; try lia.
  subst. apply IH.
Qed.

#[export] Instance keyed_le_total : Total keyed_le.
Proof. intros a b. apply zlist_leb_total. Qed.
#[export] Instance keyed_le_trans : Transitive keyed_le.
Proof. intros a b c. apply zlist_leb_trans. Qed.

Lemma StronglySorted_lookup_lt {A} (R : relation A) l i j a b :
  StronglySorted R l → i < j → l !! i = Some a → l !! j = Some b → R a b.
Proof.
  intros HS. revert i j. induction HS as [|x l HS IH Hall]; intros i j Hij Hi Hj; [done|].
  destruct i as [|i], j as [|j]; simpl in Hi, Hj; try lia.
  - injection Hi as <-. rewrite Forall_forall in Hall. apply Hall.
    by eapply list_elem_of_lookup_2.
  - eapply IH; [|done..]. lia.
Qed.

Lemma Forall2_snd {A B} (P : A → B * A → Prop) l k :
  (∀ x y, P x y → y.2 = x) → Forall2 P l k → l = snd <$> k.
Proof. intros HP Hl. induction Hl as [|x y l k Hxy _ IH]; [done|]. simpl. by rewrite IH, (HP x y). Qed.

Section Tests.
Variable B : Type.
Variable execute_query : string → B → exn + list row.

Local Abbreviation run_test := (Runner.run_test B execute_query).
Local Abbreviation run_test_list := (Runner.run_test_list B execute_query).

Lemma run_test_effect tid t s :
  ∃ s' b, run_test tid t s = (s', inr b) ∧ backend B s' = backend B s ∧
    dom (details (runner_results B s')) = {[tid]} ∪ dom (details (runner_results B s)) ∧
    total (runner_results B s') = total (runner_results B s).
Proof.
  unfold Runner.run_test, mbind, mret, Runner.M_bind, Runner.M_ret, Runner.get_state,
    Runner.modify_results.
  destruct (execute_query _ _) as [e|rows]; [|destruct (results_match _ _)];
    (eexists _, _; split_and!; [reflexivity|done|simpl; by rewrite dom_insert_L|done]).
Qed.

Lemma run_test_list_effect tests s :
  ∃ s', run_test_list tests s = (s', inr ()) ∧ backend B s' = backend B s ∧
    dom (details (runner_results B s')) =
      list_to_set (fst <$> tests) ∪ dom (details (runner_results B s)) ∧
    total (runner_results B s') = total (runner_results B s).
Proof.
  revert s. induction tests as [|[tid t] tests IH]; intros s.
  - exists s. split_and!; [done|done|simpl; set_solver|done].
  - cbn [Runner.run_test_list]. unfold mbind at 1, Runner.M_bind at 1.
    destruct (run_test_effect tid t s) as (s1 & b & Hr & Hb & Hd & Ht). rewrite Hr.
    destruct (IH s1) as (s2 & Hr2 & Hb2 & Hd2 & Ht2). exists s2.
    split_and!; [done|congruence| |congruence].
    rewrite Hd2, Hd. simpl. set_solver.
Qed.

End Tests.

Section Scripts.
Variable B : Type.
Variable execute_update : string → B → exn + (B * Z).
Variable path_exists : string → bool.
Variable read_file : string → exn + string.

Local Abbreviation apply_materialization := (Runner.apply_materialization B execute_update
  path_exists read_file).
Local Abbreviation apply_scripts := (Runner.apply_scripts B execute_update
  path_exists read_file).

Lemma apply_materialization_results p s :
  ∃ s' o, apply_materialization p s = (s', o) ∧ runner_results B s' = runner_results B s.
Proof.
  unfold Runner.apply_materialization, Runner.raise, mbind, Runner.M_bind,
    Runner.get_state, Runner.put_state.
  destruct (path_exists p); simpl; [|eauto].
  destruct (read_file p) as [e|u]; [eauto|].
  destruct (execute_update u (backend B s)) as [e|[b' n]]; eauto.
Qed.

Lemma apply_scripts_cons p rest s :
  apply_scripts (p :: rest) s =
  match apply_materialization p s with
  | (s1, inr _) => apply_scripts rest s1
  | (s1, inl e) => (s1, inr (Some e))
  end.
Proof.
  cbn [Runner.apply_scripts].
  unfold mbind, Runner.M_bind, Runner.try_catch, mret, Runner.M_ret.
  by destruct (apply_materialization p s) as [s1 [e|[]]].
Qed.

End Scripts.

Lemma keyed_spec py_int (x : string * test_case) y :
  (k ← id_key py_int x.1; Some (k, x)) = Some y →
  y.2 = x ∧ id_key py_int y.2.1 = Some y.1.
Proof. destruct (id_key py_int x.1) eqn:E; simpl; [|done]. by intros [= <-]. Qed.

End RunnerMoreFacts.

Module RunnerExtras.
Import PyStr PyRepr Runner StrFacts PyStrFacts RunnerMoreFacts.

(** [_ensure_prefix] returns a query that contains ["PREFIX :"]; a query
    that contains it already is returned unchanged, so applying it twice
    is the same as applying it once. *)
Theorem ensure_prefix_spec (q : string) :
  contains "PREFIX :" (ensure_prefix q) = true ∧
  (contains "PREFIX :" q = true → ensure_prefix q = q) ∧
  ensure_prefix (ensure_prefix q) = ensure_prefix q.
Proof.
  assert (Hin : contains "PREFIX :" (ensure_prefix q) = true).
  { unfold ensure_prefix.
    destruct (contains "PREFIX : <http://example.org/family#>" q) eqn:Hp; cbn [negb andb].
    - apply contains_spec in Hp as (a & b & ->). apply contains_spec.
      exists a, (" <http://example.org/family#>" +:+ b). reflexivity.
    - destruct (contains "PREFIX :" q) eqn:Hq; [done|]. cbn [negb andb].
      apply contains_spec.
      exists "", (" <http://example.org/family#>" +:+ String (ascii_of_nat 10) q).
      reflexivity. }
  split_and!; [done|apply ensure_prefix_keeps|by apply ensure_prefix_keeps].
Qed.

(** [normalize_results] is idempotent: normalising its output again changes
    nothing. *)
Theorem normalize_results_idem (rows : list row) :
  normalize_results (normalize_results rows) = normalize_results rows.
Proof.
  destruct rows as [|r [|r2 rows]]; [done| |].
  - cbn [normalize_results]. case_decide as Hr.
    + cbn [normalize_results]. by rewrite decide_True.
    + cbn [normalize_results]. rewrite decide_False.
      * by rewrite normalize_row_idem.
      * unfold normalize_row. rewrite lookup_fmap. intros [x Hx].
        apply Hr. destruct (r !! "result"); [by eexists|discriminate].
  - cbn [normalize_results]. rewrite !fmap_cons. cbn [normalize_results].
    rewrite !fmap_cons, <-list_fmap_compose.
    rewrite !normalize_row_idem. f_equal; f_equal.
    apply list_fmap_ext. intros i x _. apply normalize_row_idem.
Qed.

End RunnerExtras.

Module RunnerExtras2.
Import PyStr PyRepr Runner RunnerMoreFacts.

Section Run.
Variable B : Type.
Variable execute_query : string → B → exn + list row.
Variable execute_update : string → B → exn + (B * Z).
Variable path_exists : string → bool.
Variable read_file : string → exn + string.
Variable py_int : string → option Z.
Variable project_root : string.
Variable suite : gmap string test_case.
Variable test_levels : gmap string (string * list string).
Variable materialization_requirements : gmap string (list string).

Local Abbreviation run_tests := (Runner.run_tests B execute_query py_int suite).
Local Abbreviation run_test_list := (Runner.run_test_list B execute_query).
Local Abbreviation all_tests_sorted := (Runner.all_tests_sorted B py_int suite).
Local Abbreviation id_key := (Runner.id_key py_int).

(** [run_tests(test_ids)] with a non-empty list naming a test that the
    suite does not have raises [ValueError] before it runs any test or
    sets [total]: the state is unchanged. *)
Theorem run_tests_unknown_id (ids : list string) (tid : string) (s : state B)
    (Hin : tid ∈ ids) (Hmiss : suite !! tid = None) :
  ∃ msg, run_tests (Some ids) s = (s, inl (ValueError msg)).
Proof.
  destruct ids as [|tid0 ids']; [by apply elem_of_nil in Hin|].
  assert (Hm : mapM (λ tid, pair tid <$> suite !! tid) (tid0 :: ids') = None).
  { apply mapM_None_2, Exists_exists. exists tid. split; [done|]. by rewrite Hmiss. }
  unfold Runner.run_tests. rewrite Hm. eexists. reflexivity.
Qed.

(** [run_tests(test_ids)] with a non-empty list of known ids returns
    normally and leaves the backend as it was; it sets [total] to the
    length of the list, adds that length to [passed + failed], and records
    a status for each id in [details]. *)
Theorem run_tests_selected (ids : list string) (s : state B)
    (Hne : ids ≠ []) (Hall : ∀ tid, tid ∈ ids → is_Some (suite !! tid)) :
  ∃ s', run_tests (Some ids) s = (s', inr ()) ∧
    backend B s' = backend B s ∧
    total (runner_results B s') = length ids ∧
    passed (runner_results B s') + failed (runner_results B s') =
      passed (runner_results B s) + failed (runner_results B s) + length ids ∧
    dom (details (runner_results B s')) = list_to_set ids ∪ dom (details (runner_results B s)).
Proof.
  destruct ids as [|tid0 ids']; [done|].
  destruct (mapM_is_Some_2 (λ tid, pair tid <$> suite !! tid) (tid0 :: ids')) as [l Hl].
  { apply Forall_forall. intros tid Htid. destruct (Hall tid Htid) as [t Ht].
    simpl. rewrite Ht. by eexists. }
  assert (Hfst : tid0 :: ids' = fst <$> l).
  { pose proof (mapM_Some_1 _ _ _ Hl) as HF. clear Hl Hall Hne.
    induction HF as [|x y l1 k1 Hxy _ IH]; [done|].
    rewrite fmap_cons, <-IH. f_equal. by apply fmap_Some in Hxy as [? [_ ->]]. }
  unfold Runner.run_tests. rewrite Hl.
  unfold mbind, Runner.M_bind, mret, Runner.M_ret, Runner.modify_results.
  set (s1 := mk_state B (backend B s) (set_total (length l) (runner_results B s))).
  destruct (run_test_list_effect B execute_query l s1) as (s2 & Hr & Hb & Hd & Ht).
  destruct (RunnerFacts.run_test_list_counts B execute_query l s1) as (s3 & Hr3 & Hc3 & Ht3).
  rewrite Hr in Hr3. injection Hr3 as <-. rewrite Hr. exists s2.
  rewrite Hfst, length_fmap. subst s1. simpl in *. split_and!; [done|done|congruence|lia|done].
Qed.

(** [run_tests()] (or an empty list): when every test id of the suite
    parses, the tests are exactly the suite's entries, in non-decreasing
    order of their integer tuples, and they are run in that order after
    [total] is set to their number. *)
Theorem run_tests_all_sorted (s : state B)
    (Hkeys : ∀ tid t, suite !! tid = Some t → is_Some (id_key tid)) :
  ∃ l, all_tests_sorted s = (s, inr l) ∧ l ≡ₚ map_to_list suite ∧
    (∀ i j a b, i < j → l !! i = Some a → l !! j = Some b →
       zlist_leb (default [] (id_key a.1)) (default [] (id_key b.1)) = true) ∧
    run_tests None s =
      run_test_list l (mk_state B (backend B s) (set_total (length l) (runner_results B s))).
Proof.
  destruct (mapM_is_Some_2 (λ kv : string * test_case, k ← id_key kv.1; Some (k, kv))
    (map_to_list suite)) as [keyed Hk].
  { apply Forall_forall. intros [tid t] Hin. apply elem_of_map_to_list in Hin.
    destruct (Hkeys _ _ Hin) as [k Hkey]. simpl. rewrite Hkey. by eexists. }
  pose proof (mapM_Some_1 _ _ _ Hk) as HF.
  assert (Hsnd : map_to_list suite = snd <$> keyed).
  { eapply Forall2_snd; [|exact HF]. intros x y Hxy. by apply keyed_spec in Hxy as [? _]. }
  assert (Hkey : ∀ y, y ∈ keyed → id_key y.2.1 = Some y.1).
  { intros y Hy. apply list_elem_of_lookup in Hy as [i Hi].
    destruct (Forall2_lookup_r _ _ _ _ _ HF Hi) as [x [_ Hx]].
    by apply keyed_spec in Hx as [_ ?]. }
  assert (Hall : all_tests_sorted s = (s, inr (snd <$> merge_sort keyed_le keyed))).
  { unfold Runner.all_tests_sorted. by rewrite Hk. }
  exists (snd <$> merge_sort keyed_le keyed). split_and!.
  - done.
  - by rewrite Hsnd, merge_sort_Permutation.
  - intros i j a b Hij Ha Hb. rewrite list_lookup_fmap in Ha, Hb.
    destruct (merge_sort keyed_le keyed !! i) as [ya|] eqn:Ha'; [|done].
    destruct (merge_sort keyed_le keyed !! j) as [yb|] eqn:Hb'; [|done].
    injection Ha as <-. injection Hb as <-.
    pose proof (StronglySorted_merge_sort keyed_le keyed) as HS.
    pose proof (StronglySorted_lookup_lt _ _ _ _ _ _ HS Hij Ha' Hb') as Hle.
    assert (Hin : ∀ i y, merge_sort keyed_le keyed !! i = Some y → y ∈ keyed).
    { intros i' y Hy. rewrite <-(merge_sort_Permutation keyed_le keyed).
      by eapply list_elem_of_lookup_2. }
    rewrite (Hkey ya (Hin _ _ Ha')), (Hkey yb (Hin _ _ Hb')). exact Hle.
  - unfold Runner.run_tests. cbn iota. unfold mbind at 1, Runner.M_bind at 1.
    rewrite Hall. reflexivity.
Qed.

(** [run_tests()] raises [ValueError], before it runs any test, when a test
    id of the suite has a part that [int()] rejects; the state is
    unchanged. *)
Theorem run_tests_all_bad_id (s : state B) (tid : string) (t : test_case)
    (Ht : suite !! tid = Some t) (Hbad : id_key tid = None) :
  ∃ msg, run_tests None s = (s, inl (ValueError msg)).
Proof.
  assert (Hm : mapM (λ kv : string * test_case, k ← id_key kv.1; Some (k, kv))
    (map_to_list suite) = None).
  { apply mapM_None_2, Exists_exists. exists (tid, t).
    split; [by apply elem_of_map_to_list|]. simpl. by rewrite Hbad. }
  unfold Runner.run_tests, Runner.all_tests_sorted. cbn iota. rewrite Hm.
  eexists. reflexivity.
Qed.

End Run.
End RunnerExtras2.

Module LevelRunExtras.
Import PyStr PyRepr Runner RunnerMoreFacts.

Section Run.
Variable B : Type.
Variable execute_query : string → B → exn + list row.
Variable execute_update : string → B → exn + (B * Z).
Variable path_exists : string → bool.
Variable read_file : string → exn + string.
Variable py_int : string → option Z.
Variable project_root : string.
Variable suite : gmap string test_case.
Variable test_levels : gmap string (string * list string).
Variable materialization_requirements : gmap string (list string).

Local Abbreviation apply_scripts := (Runner.apply_scripts B execute_update
  path_exists read_file).
Local Abbreviation run_tests := (Runner.run_tests B execute_query py_int suite).
Local Abbreviation run_level := (Runner.run_level B execute_query execute_update
  path_exists read_file py_int project_root suite test_levels materialization_requirements).
Local Abbreviation levels_loop := (Runner.levels_loop B execute_query execute_update
  path_exists read_file py_int project_root suite test_levels materialization_requirements).
Local Abbreviation run_all_levels := (Runner.run_all_levels B execute_query execute_update
  path_exists read_file py_int project_root suite test_levels materialization_requirements).

(** The script loop of [run_level] never raises and never touches the
    runner's results.  Running [l1 ++ l2] runs [l1] and, only if no script
    of [l1] failed, then [l2]: no script after a failing one is applied.
    A script whose path does not exist stops the loop with its
    [FileNotFoundError], the state unchanged. *)
Theorem apply_scripts_spec (scripts l1 l2 rest : list string) (p : string) (s : state B) :
  (∃ s' o, apply_scripts scripts s = (s', inr o) ∧
     runner_results B s' = runner_results B s) ∧
  apply_scripts (l1 ++ l2) s =
    match apply_scripts l1 s with
    | (s1, inr None) => apply_scripts l2 s1
    | r => r
    end ∧
  (path_exists p = false →
   apply_scripts (p :: rest) s =
     (s, inr (Some (FileNotFoundError
                      (String.append "Materialization script not found: " p))))).
Proof.
  split_and!.
  - revert s. induction scripts as [|q scripts IH]; intros s.
    + by exists s, None.
    + rewrite apply_scripts_cons.
      destruct (apply_materialization_results B execute_update path_exists read_file q s)
        as (s1 & o & Ha & Hr).
      rewrite Ha. destruct o as [e|u].
      * by exists s1, (Some e).
      * destruct (IH s1) as (s2 & o2 & H2 & Hr2). exists s2, o2. split; [done|congruence].
  - revert s. induction l1 as [|q l1 IH]; intros s; [done|].
    rewrite <-app_comm_cons, !apply_scripts_cons.
    destruct (Runner.apply_materialization B execute_update path_exists read_file q s)
      as [s1 [e|u]]; [done|apply IH].
  - intros Hp. rewrite apply_scripts_cons. unfold Runner.apply_materialization.
    by rewrite Hp.
Qed.

(** [run_level(level, materialize)]: a level missing from the config
    raises [ValueError] with the state unchanged.  Otherwise the scripts
    ([materialize], or the config's requirements resolved against the
    project root when it is [None]) are applied first, leaving the runner's
    results as they were; if one fails, the level returns a fresh dict with
    zero counts and the error message, and no test is run; if none fails,
    the level's tests are run by [run_tests] and the runner's own results
    dict is returned. *)
Theorem run_level_spec (level : nat) (m : option (list string)) (s : state B) :
  (test_levels !! pretty level = None →
     ∃ msg, run_level level m s = (s, inl (ValueError msg))) ∧
  ∀ name ids, test_levels !! pretty level = Some (name, ids) →
    ∃ s1 o,
      apply_scripts
        (match m with
         | Some l => l
         | None => resolve_script_path project_root <$>
                     default [] (materialization_requirements !! pretty level)
         end) s = (s1, inr o) ∧
      runner_results B s1 = runner_results B s ∧
      run_level level m s =
        match o with
        | Some e => (s1, inr (Fresh (mk_results 0 0 0 ∅ (Some (exn_msg e)))))
        | None =>
            match run_tests (Some ids) s1 with
            | (s2, inr _) => (s2, inr Shared)
            | (s2, inl e) => (s2, inl e)
            end
        end.
Proof.
  split.
  - intros Hl. unfold Runner.run_level. rewrite Hl. eexists. reflexivity.
  - intros name ids Hl.
    destruct (proj1 (apply_scripts_spec
      (match m with
       | Some l => l
       | None => resolve_script_path project_root <$>
                   default [] (materialization_requirements !! pretty level)
       end) [] [] [] "" s)) as (s1 & o & Ha & Hr).
    exists s1, o. split_and!; [done|done|].
    unfold Runner.run_level. rewrite Hl. cbv zeta.
    unfold mbind at 1, Runner.M_bind at 1. rewrite Ha.
    destruct o as [e|]; [reflexivity|].
    unfold mbind, Runner.M_bind, mret, Runner.M_ret.
    by destruct (run_tests (Some ids) s1) as [s2 [e|u]].
Qed.

Lemma levels_loop_entries mpl n start s s' l :
  levels_loop mpl (seq start n) [] s = (s', inr l) →
  fst <$> l = level_key <$> seq start (length l) ∧ length l ≤ n ∧
  (length l < n → ∃ k r, last l = Some (k, r) ∧ 0 < failed (deref B s' r)).
Proof.
  revert start s l. induction n as [|n IH]; intros start s l H.
  - simpl in H. injection H as <- <-. simpl. split_and!; [done|lia|lia].
  - cbn [seq Runner.levels_loop] in H.
    unfold mbind, mret, Runner.M_bind, Runner.M_ret, Runner.get_state in H.
    destruct (run_level start (Some (default [] (mpl !! start))) s) as [s1 [e|r]]; [done|].
    cbv zeta in H. case_bool_decide as Hf.
    + injection H as <- <-. simpl. split_and!; [done|lia|].
      intros _. by exists (level_key start), r.
    + rewrite RunnerFacts.levels_loop_acc in H.
      destruct (levels_loop mpl (seq (S start) n) [] s1) as [s2 [e|l']] eqn:Hl; [done|].
      injection H as <- <-. destruct (IH _ _ _ Hl) as (Hk & Hlen & Hlast).
      cbn [app length seq]. split_and!.
      * rewrite !fmap_cons, Hk. done.
      * lia.
      * intros Hlt. destruct (Hlast ltac:(lia)) as (k & r' & Hl' & Hf').
        exists k, r'. split; [|done]. destruct l' as [|x l']; [done|].
        by rewrite last_cons_cons.
Qed.

(** [run_all_levels(start_level, ...)] returns, when it returns normally,
    one entry per level run, keyed [level_start], [level_start+1], ... in
    that order, at most [4 - start_level] of them; if it returns fewer, the
    last entry's dict reports a failure in the final state (the loop only
    breaks on failures). *)
Theorem run_all_levels_entries (start : nat) (mpl : gmap nat (list string))
    (s s' : state B) (l : list (string * res_ref))
    (H : run_all_levels start mpl s = (s', inr l)) :
  fst <$> l = level_key <$> seq start (length l) ∧ length l ≤ 4 - start ∧
  (length l < 4 - start → ∃ k r, last l = Some (k, r) ∧ 0 < failed (deref B s' r)).
Proof. by apply levels_loop_entries in H. Qed.

(** [run_all_levels] passes [materialize_per_level.get(level, [])] to
    [run_level], never [None]: the config's materialization requirements
    are never read, and the run is the same whatever they are. *)
Theorem run_all_levels_ignores_requirements
    (reqs : gmap string (list string)) (start : nat) (mpl : gmap nat (list string))
    (s : state B) :
  run_all_levels start mpl s =
  Runner.run_all_levels B execute_query execute_update path_exists read_file py_int
    project_root suite test_levels reqs start mpl s.
Proof.
  unfold Runner.run_all_levels. generalize (seq start (4 - start)) as lvls.
  generalize (@nil (string * res_ref)) as acc.
  intros acc lvls. revert acc s. induction lvls as [|lv lvls IH]; intros acc s; [done|].
  cbn [Runner.levels_loop]. unfold mbind, Runner.M_bind.
  assert (Hlv : run_level lv (Some (default [] (mpl !! lv))) s =
    Runner.run_level B execute_query execute_update path_exists read_file py_int
      project_root suite test_levels reqs lv (Some (default [] (mpl !! lv))) s)
    by reflexivity.
  rewrite <-Hlv.
  destruct (run_level lv _ s) as [s1 [e|r]]; [done|].
  unfold Runner.get_state. case_bool_decide; [done|]. apply IH.
Qed.

End Run.
End LevelRunExtras.

Module CliFacts.
Import PyStr Cli.

Lemma dedup_step_in acc S x : x ∈ S → dedup_step (acc, S) x = (acc, S).
Proof. intros Hx. unfold dedup_step. simpl. by rewrite decide_True. Qed.

Lemma dedup_step_notin acc S x : x ∉ S → dedup_step (acc, S) x = (acc ++ [x], {[x]} ∪ S).
Proof. intros Hx. unfold dedup_step. simpl. by rewrite decide_False. Qed.

Lemma dedup_app_acc acc S l :
  (foldl dedup_step (acc, S) l).1 = acc ++ (foldl dedup_step ([], S) l).1.
Proof.
  revert acc S. induction l as [|x l IH]; intros acc S; cbn [foldl]; [by rewrite app_nil_r|].
  destruct (decide (x ∈ S)) as [Hx|Hx].
  - rewrite !dedup_step_in by done. apply IH.
  - rewrite !dedup_step_notin by done. rewrite IH, (IH [x]). by rewrite <-app_assoc.
Qed.

Lemma dedup_filter acc S1 S2 x l :
  (∀ z, z ∈ S1 ↔ z = x ∨ z ∈ S2) →
  (foldl dedup_step (acc, S1) l).1 = (foldl dedup_step (acc, S2) (filter (λ y, y ≠ x) l)).1.
Proof.
  revert acc S1 S2. induction l as [|y l IH]; intros acc S1 S2 HS; [done|].
  rewrite filter_cons. cbn [foldl].
  destruct (decide (y ∈ S1)) as [Hy1|Hy1].
  - rewrite dedup_step_in by done. case_decide as Hyx.
    + cbn [foldl]. rewrite dedup_step_in; [by apply IH|].
      apply HS in Hy1 as [->|?]; [done|done].
    + subst. by apply IH.
  - assert (Hyx : y ≠ x) by (intros ->; apply Hy1, HS; by left).
    rewrite dedup_step_notin by done. rewrite decide_True by done. cbn [foldl].
    rewrite dedup_step_notin by (intros ?; apply Hy1, HS; by right).
    apply IH. intros z. rewrite !elem_of_union, !elem_of_singleton, HS. tauto.
Qed.

Lemma dedup_spec acc S l :
  (∀ z, z ∈ S ↔ z ∈ acc) → NoDup acc →
  NoDup (foldl dedup_step (acc, S) l).1 ∧
  ∀ z, z ∈ (foldl dedup_step (acc, S) l).1 ↔ z ∈ acc ∨ z ∈ l.
Proof.
  revert acc S. induction l as [|y l IH]; intros acc S HS Hnd; cbn [foldl].
  - split; [done|]. intros z. rewrite elem_of_nil. tauto.
  - destruct (decide (y ∈ S)) as [Hy|Hy].
    + rewrite dedup_step_in by done. destruct (IH acc S HS Hnd) as [H1 H2]. split; [done|].
      intros z. rewrite H2, elem_of_cons. apply HS in Hy. naive_solver.
    + rewrite dedup_step_notin by done. destruct (IH (acc ++ [y]) ({[y]} ∪ S)) as [H1 H2].
      * intros z. rewrite elem_of_union, elem_of_singleton, HS, elem_of_app,
          list_elem_of_singleton. tauto.
      * apply NoDup_app. split_and!; [done| |by apply NoDup_singleton].
        intros z Hz Hz'. apply list_elem_of_singleton in Hz' as ->. apply Hy, HS, Hz.
      * split; [done|]. intros z. rewrite H2, elem_of_app, list_elem_of_singleton,
          elem_of_cons. tauto.
Qed.

Lemma foldl_nested_dedup (L : nat → list string) st levels :
  foldl (λ st level, foldl dedup_step st (L level)) st levels =
  foldl dedup_step st (concat (L <$> levels)).
Proof.
  revert st. induction levels as [|lv levels IH]; intros st; [done|].
  simpl. by rewrite IH, foldl_app.
Qed.

End CliFacts.

Module CliExtras.
Import PyStr Cli CliFacts.

(** The deduplicating loops of [cmd_run_tests] keep each element once, at
    its first occurrence: the result has no duplicates and the same
    elements as the input, and an input starting with [x] gives [x]
    followed by the result for the rest with every [x] removed. *)
Theorem collect_unique_spec (l : list string) :
  NoDup (collect_unique l) ∧
  (∀ z, z ∈ collect_unique l ↔ z ∈ l) ∧
  ∀ x l', collect_unique (x :: l') = x :: collect_unique (filter (λ y, y ≠ x) l').
Proof.
  split_and!.
  - apply (dedup_spec [] ∅ l); [set_solver|constructor].
  - intros z. unfold collect_unique. rewrite (proj2 (dedup_spec [] ∅ l ltac:(set_solver) NoDup_nil_2)).
    rewrite elem_of_nil. tauto.
  - intros x l'. unfold collect_unique. cbn [foldl].
    rewrite dedup_step_notin by set_solver. rewrite dedup_app_acc. simpl. f_equal.
    apply dedup_filter. set_solver.
Qed.

(** With no explicit ['all'] entry, [--level all] applies the scripts of
    the requirements of levels 0 to 9, concatenated in level order, with
    each script kept once at its first occurrence; no other script. *)
Theorem all_materialize_levels (mat_config : gmap string (list string))
    (Hno : mat_config !! "all" = None) :
  all_materialize mat_config =
    collect_unique (concat ((λ level, default [] (mat_config !! pretty level)) <$> seq 0 10)) ∧
  NoDup (all_materialize mat_config) ∧
  ∀ x, x ∈ all_materialize mat_config ↔
    ∃ level, level < 10 ∧ x ∈ default [] (mat_config !! pretty level).
Proof.
  assert (Heq : all_materialize mat_config =
    collect_unique (concat ((λ level, default [] (mat_config !! pretty level)) <$> seq 0 10))).
  { unfold all_materialize, collect_unique. rewrite Hno. by rewrite foldl_nested_dedup. }
  split_and!; [done| |].
  - rewrite Heq. apply (dedup_spec [] ∅); [set_solver|constructor].
  - intros x. rewrite Heq. unfold collect_unique.
    rewrite (proj2 (dedup_spec [] ∅ _ ltac:(set_solver) NoDup_nil_2)).
    rewrite elem_of_nil, list_elem_of_In, in_concat. setoid_rewrite <-list_elem_of_In.
    split.
    + intros [[] | (ls & Hls & Hx)].
      apply list_elem_of_fmap in Hls as (lv & -> & Hlv).
      apply elem_of_seq in Hlv. exists lv. split; [lia|done].
    + intros (lv & Hlv & Hx). right. eexists. split; [|exact Hx].
      apply list_elem_of_fmap. exists lv. split; [done|]. apply elem_of_seq. lia.
Qed.

End CliExtras.

Module ExtraWitnesses.
Import PyStr PyRepr Analyzer Levels AnalyzerExamples AnalyzerOutputs Runner RunnerExamples
  StrFacts ExtraExamples Cli.

Lemma short_name_suffix_witness :
  short_name ("http://example.org/family" +:+ String "#" "parentOf") = "parentOf" ∧
  short_name ("http://example.org/family" +:+ String "/" "parentOf") = "parentOf".
Proof.
  apply StrExtras.short_name_suffix; apply (bool_decide_unpack _); vm_compute; reflexivity.
Defined.

Lemma format_node_name_chars_witness :
  ("_"%char ∈ chars_of "http://example.org/family#has-parent" ∨ "_"%char = "_"%char) ∧
  "_"%char ≠ "#"%char ∧ "_"%char ≠ "/"%char ∧ "_"%char ≠ "-"%char ∧ "_"%char ≠ ":"%char.
Proof.
  apply (StrExtras.format_node_name_chars "http://example.org/family#has-parent").
  apply (bool_decide_unpack _). vm_compute. reflexivity.
Defined.

Lemma error_context_marked_witness :
  filter (λ l, ContextFacts.marked l = true) (error_context_lines ["a"; "b"; "c"] 2 1) =
    [">> " +:+ pretty 2%Z +:+ ": " +:+ rstrip (default "" (["a"; "b"; "c"] !! Z.to_nat (2 - 1)))].
Proof.
  rewrite (proj2 (ContextExtras.error_context_marked ["a"; "b"; "c"] 2 1 ltac:(lia))).
  rewrite bool_decide_true; [reflexivity|]. simpl. lia.
Defined.

Lemma extract_dependencies_order_witness :
  let t1 : triple := (URIRef "http://example.org/family#grandparentOf",
                      family_materializationDependency,
                      URIRef "http://example.org/family#parentOf") in
  let t2 : triple := (URIRef "http://example.org/family#uncleOf",
                      family_materializationDependency,
                      URIRef "http://example.org/family#siblingOf") in
  extract_dependencies (λ _, []) [t1; t2] = extract_dependencies (λ _, []) [t2; t1].
Proof.
  intros t1 t2. apply ExtractExtras.extract_dependencies_order.
  intros t. rewrite !elem_of_cons, !elem_of_nil. tauto.
Defined.

Lemma levels_domain_max_witness :
  ∃ nodes rels levels max_level,
    calculate_dependency_levels elements d_chain = Some (nodes, rels, levels, max_level) ∧
    (∀ x, x ∈ nodes ↔ ∃ A, A ∈ all_nodes d_chain ∧ x = short_name A) ∧
    (∀ x, is_Some (levels !! x) ↔ x ∈ nodes) ∧
    (∀ x v, levels !! x = Some v → v ≤ max_level) ∧
    (nodes ≠ ∅ → ∃ x, levels !! x = Some max_level) ∧
    (nodes = ∅ → max_level = 0).
Proof. apply (LevelExtras.levels_domain_max elements (λ X x, elem_of_elements X x)). Defined.

Lemma levels_one_above_dependencies_witness :
  ∃ nodes rels levels max_level,
    calculate_dependency_levels elements d_chain = Some (nodes, rels, levels, max_level) ∧
    ∀ t v, levels !! t = Some (S v) →
      (∀ A B, depends d_chain A B → short_name A = t →
         ∃ w, levels !! short_name B = Some w ∧ w ≤ v) ∧
      (∃ A B, depends d_chain A B ∧ short_name A = t ∧ levels !! short_name B = Some v).
Proof.
  apply (LevelExtras.levels_one_above_dependencies elements (λ X x, elem_of_elements X x)).
Defined.


Lemma mermaid_structure_witness :
  ∃ (nblocks : list (nat * list string)) (eblocks : list (nat * list (string * string))),
    fst <$> eblocks = filter (λ l, l ≠ 0) (fst <$> nblocks) ∧
    concat (snd <$> eblocks) ≡ₚ
      filter (λ st : string * string,
        st.2 ∈ ({["parentOf"; "grandparentOf"]} : gset string) ∧
        default 0 (({["parentOf" := 0; "grandparentOf" := 1]} : gmap string nat) !! st.2) ≠ 0)
        [("parentOf", "grandparentOf")].
Proof.
  destruct (MermaidExtras.mermaid_structure elements "2026-01-01" None
    {["parentOf"; "grandparentOf"]} [("parentOf", "grandparentOf")]
    {["parentOf" := 0; "grandparentOf" := 1]} 1
    (λ x, elem_of_elements _ x) (NoDup_elements _))
    as (nb & eb & ctx & _ & _ & _ & _ & Hfst & _ & Hperm & _).
  exists nb, eb. split; [exact Hfst|exact Hperm].
Defined.

Lemma dump_graph_nodes_witness :
  gd_nodes (graph_data_of elements {["parentOf"; "grandparentOf"]}
     [("parentOf", "grandparentOf")] {["parentOf" := 0; "grandparentOf" := 1]}) =
  (λ n, (n, mk_node_entry
      (default 0 (({["parentOf" := 0; "grandparentOf" := 1]} : gmap string nat) !! n))
      (fst <$> filter (λ st : string * string,
         st.2 = n ∧ st.1 ∈ ({["parentOf"; "grandparentOf"]} : gset string))
         [("parentOf", "grandparentOf")])
      (snd <$> filter (λ st : string * string,
         st.1 = n ∧ st.2 ∈ ({["parentOf"; "grandparentOf"]} : gset string))
         [("parentOf", "grandparentOf")])))
  <$> sorted_strs (elements ({["parentOf"; "grandparentOf"]} : gset string)).
Proof.
  apply (GraphDataExtras.dump_graph_nodes elements).
  - intros x. apply elem_of_elements.
  - apply NoDup_elements.
Defined.


Lemma run_tests_unknown_id_witness :
  ∃ msg, run_tests unit ex_query (λ _, None) (ex_suite t_pass) (Some ["0.1"; "9.9"]) ex_state =
    (ex_state, inl (ValueError msg)).
Proof.
  apply (RunnerExtras2.run_tests_unknown_id unit ex_query (λ _, None) (ex_suite t_pass)
    ["0.1"; "9.9"] "9.9" ex_state).
  - right. left.
  - reflexivity.
Defined.

Lemma run_tests_selected_witness :
  ∃ s', run_tests unit ex_query (λ _, None) (ex_suite t_fail) (Some ["0.1"; "1.1"]) ex_state =
    (s', inr ()) ∧ total (runner_results unit s') = 2 ∧
    passed (runner_results unit s') + failed (runner_results unit s') = 2.
Proof.
  assert (Hall : ∀ tid, tid ∈ ["0.1"; "1.1"] → is_Some (ex_suite t_fail !! tid)).
  { intros tid Htid. rewrite !elem_of_cons, elem_of_nil in Htid.
    destruct Htid as [->|[->|[]]]; eexists; reflexivity. }
  destruct (RunnerExtras2.run_tests_selected unit ex_query (λ _, None) (ex_suite t_fail)
    ["0.1"; "1.1"] ex_state ltac:(discriminate) Hall) as (s' & Hr & _ & Ht & Hc & _).
  exists s'. split_and!; [exact Hr|exact Ht|]. rewrite Hc. reflexivity.
Defined.

Lemma run_tests_all_sorted_witness :
  ∃ l, all_tests_sorted unit digits_int (ex_suite t_pass) ex_state = (ex_state, inr l) ∧
    l ≡ₚ map_to_list (ex_suite t_pass).
Proof.
  assert (Hk : map_Forall (λ tid _, is_Some (id_key digits_int tid)) (ex_suite t_pass)).
  { apply (bool_decide_unpack _). vm_compute. reflexivity. }
  destruct (RunnerExtras2.run_tests_all_sorted unit ex_query digits_int (ex_suite t_pass)
    ex_state (λ tid t Ht, map_Forall_lookup_1 _ _ _ _ Hk Ht)) as (l & H1 & H2 & _).
  exists l. split; [exact H1|exact H2].
Defined.

Lemma run_tests_all_bad_id_witness :
  ∃ msg, run_tests unit ex_query (λ _, None) (ex_suite t_pass) None ex_state =
    (ex_state, inl (ValueError msg)).
Proof.
  apply (RunnerExtras2.run_tests_all_bad_id unit ex_query (λ _, None) (ex_suite t_pass)
    ex_state "0.1" t_pass); reflexivity.
Defined.

Lemma run_all_levels_entries_witness :
  ∃ k r, last [("level_0", Shared)] = Some (k, r) ∧
    0 < failed (deref unit (ex_run_all t_fail).1 r).
Proof.
  apply (LevelRunExtras.run_all_levels_entries unit ex_query ex_update (λ _, true)
    (λ _, inr "") (λ _, None) "" (ex_suite t_fail) ex_levels ∅ 0 ∅ ex_state
    (ex_run_all t_fail).1 [("level_0", Shared)]).
  - vm_compute. reflexivity.
  - simpl. lia.
Defined.

Lemma all_materialize_levels_witness :
  let m : gmap string (list string) := {["0" := ["a.ru"; "b.ru"]; "1" := ["b.ru"; "c.ru"]]} in
  NoDup (all_materialize m) ∧
  ∀ x, x ∈ all_materialize m ↔ ∃ level, level < 10 ∧ x ∈ default [] (m !! pretty level).
Proof.
  intros m. apply (proj2 (CliExtras.all_materialize_levels m ltac:(vm_compute; reflexivity))).
Defined.

End ExtraWitnesses.
